(** * A sequential model of jkolek/hashmap

    The table of [hashmap.h] is a bucket array of singly linked chains of
    heap-allocated elements, with one mutex per bucket.  This development
    embeds the member functions over an explicit element store, so that
    pointer sharing between tables (copy and move) is visible, and proves
    the properties of the accompanying specification about them.

    Conventions of the embedding:
    - an [Element *] is an [option loc] ([None] is [nullptr]); the store
      [mem] maps the live locations to their elements;
    - [new T*[n]] without initialiser yields [n] indeterminate cells;
      reading one, like dereferencing an invalid pointer or dividing by
      zero, has the outcome [Undefined];
    - the [std::out_of_range] exception is the outcome [Throw], which
      carries the state at the throw point;
    - [unsigned] values are numbers below [2^32], wrap-around is written
      out; [size_t] values are unbounded naturals;
    - calls run one at a time: a [std::lock_guard] is taken and released
      within the call, so only the validity of the mutex pointer matters;
    - allocation never fails;
    - [std::cout] is the text written to it so far, and [operator<<] for
      keys and values is given by the class [Show]. *)

From stdpp Require Import gmap strings list fin_maps pretty.
From Stdlib Require Import NArith Lia.

#[local] Set Warnings "-clear-no-such-hyp".

Module HashMap.

Local Open Scope N_scope.

(** ** Outcomes and the state monad of the member functions *)

Inductive outcome (S A : Type) : Type :=
| Ok (a : A) (s : S)          (* normal return *)
| Throw (what : string) (s : S) (* std::out_of_range(what) *)
| Undefined                   (* undefined behaviour *)
| Diverges.                   (* no return: a loop that cannot exit *)
Arguments Ok {S A} a s.
Arguments Throw {S A} what s.
Arguments Undefined {S A}.
Arguments Diverges {S A}.

Definition M (S A : Type) : Type := S → outcome S A.

#[global] Instance M_ret {S} : MRet (M S) := λ A a s, Ok a s.
#[global] Instance M_bind {S} : MBind (M S) := λ A B f m s,
  match m s with
  | Ok a s' => f a s'
  | Throw w s' => Throw w s'
  | Undefined => Undefined
  | Diverges => Diverges
  end.

Definition throw {S A} (what : string) : M S A := λ s, Throw what s.
Definition undefined {S A} : M S A := λ _, Undefined.
Definition diverges {S A} : M S A := λ _, Diverges.
Definition put {S} (s : S) : M S unit := λ _, Ok tt s.

(** [for (unsigned i = 0; i < bound; ++i) body], [bound] a [size_t]; the
    accumulator [a] stands for the local variables the body updates.  The
    counter reaches a bound below [2^32] after [bound] rounds.  A larger
    bound is never reached: the counter wraps first and the loop has no
    normal exit, which the model reports as [Diverges]. *)
Fixpoint for_from {S A} (n : nat) (i : N) (body : N → A → M S A) (a : A) : M S A :=
  match n with
  | O => mret a
  | Datatypes.S n' => a' ← body i a; for_from n' (N.succ i) body a'
  end.

Definition for_unsigned {S A} (bound : N) (body : N → A → M S A) (a : A) : M S A :=
  if decide (bound < 2 ^ 32) then for_from (N.to_nat bound) 0 body a
  else diverges.

(** ** Memory cells and arrays *)

Definition loc := positive.

(** A cell of an array obtained from [new T[n]]: indeterminate until it is
    first assigned (and again once the object it points to is deleted). *)
Inductive cell (A : Type) : Type :=
| Indeterminate
| Val (a : A).
Arguments Indeterminate {A}.
Arguments Val {A} a.

(** A pointer to an array: [nullptr], a pointer whose array was released
    with [delete []], or a live array. *)
Inductive array (A : Type) : Type :=
| Null
| Dangling
| Array (cells : list (cell A)).
Arguments Null {A}.
Arguments Dangling {A}.
Arguments Array {A} cells.

(** [a[i]] as an rvalue. *)
Definition load {A} (a : array A) (i : N) : option A :=
  match a with
  | Array cells =>
      match cells !! N.to_nat i with
      | Some (Val x) => Some x
      | _ => None
      end
  | _ => None
  end.

(** [a[i] = x]. *)
Definition assign {A} (a : array A) (i : N) (c : cell A) : option (array A) :=
  match a with
  | Array cells =>
      if decide (N.to_nat i < length cells)%nat
      then Some (Array (<[N.to_nat i := c]> cells))
      else None
  | _ => None
  end.

(** A live, unlocked [std::mutex]. *)
Inductive mutex : Type := unlocked.

#[global] Instance cell_eq_dec {A} `{EqDecision A} : EqDecision (cell A).
Proof. solve_decision. Defined.
#[global] Instance array_eq_dec {A} `{EqDecision A} : EqDecision (array A).
Proof. solve_decision. Defined.
#[global] Instance mutex_eq_dec : EqDecision mutex.
Proof. solve_decision. Defined.

(** The hash functor [F hashFunctor] of the table: stateless and
    deterministic, from keys to unsigned integers. *)
Class Hasher (K : Type) : Type := hashFunctor : K → N.

(** [operator<<] of [std::ostream] for the keys and for the values: the
    characters it writes. *)
Class Show (A : Type) : Type := show : A → string.

(** [std::cout << t]; the state is the text written so far. *)
Definition write (t : string) : M string unit := λ out, Ok tt (out +:+ t).

(** What [std::endl] writes. *)
Definition endl : string := String (Ascii.ascii_of_N 10) "".

Section Table.

Context {K V : Type} `{EqDecision K} `{Hasher K}.

(** ** Data model *)

(** [struct Element] ([HashMapElement] in the older header). *)
Record Element : Type := mkElement {
  key : K;
  value : V;
  next : option loc
}.

Record HashMap : Type := mkHashMap {
  _size : N;
  _table : array (option loc);
  _mutexes : array mutex
}.

(** One table object together with the element store. *)
Record state : Type := mkState {
  this : HashMap;
  mem : gmap loc Element
}.

Definition set_this (f : HashMap → HashMap) (s : state) : state :=
  mkState (f (this s)) (mem s).
Definition set_mem (f : gmap loc Element → gmap loc Element) (s : state) : state :=
  mkState (this s) (f (mem s)).

(** ** Primitive steps *)

(** [*p] for an [Element *p]. *)
Definition deref (p : option loc) : M state Element := λ s,
  match p with
  | None => Undefined
  | Some l =>
      match mem s !! l with
      | Some e => Ok e s
      | None => Undefined
      end
  end.

(** Assignment to the fields of [*l]. *)
Definition store (l : loc) (e : Element) : M state unit := λ s,
  match mem s !! l with
  | Some _ => Ok tt (set_mem <[l := e]> s)
  | None => Undefined
  end.

(** [new Element(k, v)]; the [next] field starts as [nullptr]. *)
Definition new_Element (k : K) (v : V) : M state loc := λ s,
  let l := fresh (dom (mem s)) in
  Ok l (set_mem <[l := mkElement k v None]> s).

(** [delete l]. *)
Definition delete_Element (l : loc) : M state unit := λ s,
  match mem s !! l with
  | Some _ => Ok tt (set_mem (delete l) s)
  | None => Undefined
  end.

(** A [std::lock_guard] on the mutex that [t._mutexes[i]] points to. *)
Definition lock_of (t : HashMap) (i : N) : M state unit := λ s,
  match load (_mutexes t) i with
  | Some unlocked => Ok tt s
  | None => Undefined
  end.

Definition lock_guard (i : N) : M state unit := λ s, lock_of (this s) i s.

(** [t._table[i]] *)
Definition bucket_of (t : HashMap) (i : N) : M state (option loc) := λ s,
  match load (_table t) i with
  | Some p => Ok p s
  | None => Undefined
  end.

Definition read_bucket (i : N) : M state (option loc) := λ s,
  bucket_of (this s) i s.

(** [_table[i] = p] *)
Definition write_bucket (i : N) (p : option loc) : M state unit := λ s,
  match assign (_table (this s)) i (Val p) with
  | Some a => Ok tt (set_this (λ t, mkHashMap (_size t) a (_mutexes t)) s)
  | None => Undefined
  end.

(** [delete _mutexes[i]] *)
Definition delete_mutex (i : N) : M state unit := λ s,
  match load (_mutexes (this s)) i with
  | Some unlocked =>
      match assign (_mutexes (this s)) i Indeterminate with
      | Some a => Ok tt (set_this (λ t, mkHashMap (_size t) (_table t) a) s)
      | None => Undefined
      end
  | None => Undefined
  end.

(** Chain loops recurse on a fuel.  A walk over an acyclic chain visits
    each live element at most once, so the number of live elements is
    enough; running out of it means that the chain is cyclic. *)
Definition with_fuel {A} (f : nat → M state A) : M state A := λ s,
  f (size (mem s)) s.

(** ** Member functions *)

(** [unsigned hash(K key) { return hashFunctor(key) % _size; }] *)
Definition hash (k : K) : M state N := λ s,
  if decide (_size (this s) = 0) then Undefined
  else Ok ((hashFunctor k mod _size (this s)) mod 2 ^ 32) s.

Definition getSize : M state N := λ s, Ok (_size (this s)) s.

(** [while (tmp != nullptr && tmp->key != key) tmp = tmp->next;] *)
Fixpoint find (fuel : nat) (k : K) (tmp : option loc) : M state (option loc) :=
  match tmp with
  | None => mret None
  | Some _ =>
      e ← deref tmp;
      if decide (key e = k) then mret tmp
      else match fuel with
           | O => diverges
           | Datatypes.S fuel' => find fuel' k (next e)
           end
  end.

Definition exists_ (k : K) : M state bool :=
  i ← hash k;
  lock_guard i ;;
  tmp ← read_bucket i;
  tmp ← with_fuel (λ fuel, find fuel k tmp);
  mret (bool_decide (tmp ≠ None)).

Definition lookup (k : K) : M state V :=
  i ← hash k;
  lock_guard i ;;
  tmp ← read_bucket i;
  tmp ← with_fuel (λ fuel, find fuel k tmp);
  match tmp with
  | None => throw "HashMap: key doesn't exists"
  | Some _ => e ← deref tmp; mret (value e)
  end.

(** [while (tmp->next != nullptr && tmp->key != key) tmp = tmp->next;] *)
Fixpoint find_last (fuel : nat) (k : K) (tmp : loc) : M state loc :=
  e ← deref (Some tmp);
  match next e with
  | None => mret tmp
  | Some n =>
      if decide (key e = k) then mret tmp
      else match fuel with
           | O => diverges
           | Datatypes.S fuel' => find_last fuel' k n
           end
  end.

Definition insert (k : K) (v : V) : M state unit :=
  i ← hash k;
  lock_guard i ;;
  head ← read_bucket i;
  match head with
  | None =>
      l ← new_Element k v;
      write_bucket i (Some l)
  | Some l0 =>
      tmp ← with_fuel (λ fuel, find_last fuel k l0);
      e ← deref (Some tmp);
      if decide (key e = k) then store tmp (mkElement (key e) v (next e))
      else
        l ← new_Element k v;
        store tmp (mkElement (key e) (value e) (Some l))
  end.

(** [while (tmp != nullptr && tmp->key != key) { prev = tmp; tmp = tmp->next; }] *)
Fixpoint find_prev (fuel : nat) (k : K) (prev tmp : option loc)
  : M state (option loc * option loc) :=
  match tmp with
  | None => mret (prev, None)
  | Some _ =>
      e ← deref tmp;
      if decide (key e = k) then mret (prev, tmp)
      else match fuel with
           | O => diverges
           | Datatypes.S fuel' => find_prev fuel' k tmp (next e)
           end
  end.

Definition remove (k : K) : M state unit :=
  i ← hash k;
  lock_guard i ;;
  tmp ← read_bucket i;
  '(prev, tmp) ← with_fuel (λ fuel, find_prev fuel k None tmp);
  match tmp with
  | None => throw "HashMap: key doesn't exists"
  | Some l =>
      e ← deref tmp;
      match prev with
      | None => write_bucket i (next e)
      | Some pl =>
          pe ← deref prev;
          store pl (mkElement (key pe) (value pe) (next e))
      end ;;
      delete_Element l
  end.

(** ** Allocation and release of the arrays *)

(** [_mutexes[i] = new std::mutex] *)
Definition new_mutex (i : N) : M state unit := λ s,
  match assign (_mutexes (this s)) i (Val unlocked) with
  | Some a => Ok tt (set_this (λ t, mkHashMap (_size t) (_table t) a) s)
  | None => Undefined
  end.

(** [new T*[n]] *)
Definition new_array {A} (n : N) : array A :=
  Array (replicate (N.to_nat n) Indeterminate).

(** Assignment to the three fields of the object. *)
Definition set_fields (t : HashMap) : M state unit := λ s,
  Ok tt (set_this (λ _, t) s).

Definition allocateTableAndMutexes (size : N) : M state unit :=
  set_fields (mkHashMap size (new_array size) (new_array size)) ;;
  n ← getSize;
  for_unsigned n (λ i _, new_mutex i) tt ;;
  n ← getSize;
  for_unsigned n (λ i _, lock_guard i ;; write_bucket i None) tt.

(** [while (tmp != nullptr) { old = tmp; tmp = tmp->next; delete old; }] *)
Fixpoint free_chain (fuel : nat) (tmp : option loc) : M state unit :=
  match tmp with
  | None => mret tt
  | Some old =>
      e ← deref tmp;
      delete_Element old ;;
      match fuel with
      | O => diverges
      | Datatypes.S fuel' => free_chain fuel' (next e)
      end
  end.

(** [delete [] a] *)
Definition delete_array {A} (a : array A) : option (array A) :=
  match a with
  | Null => Some Null
  | Array _ => Some Dangling
  | Dangling => None
  end.

Definition delete_arrays : M state unit := λ s,
  match delete_array (_table (this s)), delete_array (_mutexes (this s)) with
  | Some a, Some b => Ok tt (set_this (λ t, mkHashMap (_size t) a b) s)
  | _, _ => Undefined
  end.

Definition set_size (n : N) : M state unit := λ s,
  Ok tt (set_this (λ t, mkHashMap n (_table t) (_mutexes t)) s).

(** The body of the loop: an empty bucket leaves the round through
    [continue], before the [delete _mutexes[i]] that ends the body. *)
Definition destroy_body (i : N) (_ : unit) : M state unit :=
  lock_guard i ;;
  head ← read_bucket i;
  match head with
  | None => mret tt
  | Some _ =>
      with_fuel (λ fuel, free_chain fuel head) ;;
      delete_mutex i
  end.

Definition destroyTableAndMutexes : M state unit := λ s,
  match _table (this s) with
  | Null => Ok tt s
  | _ =>
      (n ← getSize;
       for_unsigned n destroy_body tt ;;
       delete_arrays ;;
       set_size 0) s
  end.

(** ** Constructors and assignment operators *)

(** The storage of an object before its constructor runs; the constructors
    below assign every field before any is read. *)
Definition raw : HashMap := mkHashMap 0 Dangling Dangling.

(** [HashMap() : _size(0), _table(nullptr), _mutexes(nullptr) {}] *)
Definition HashMap_default : HashMap := mkHashMap 0 Null Null.

(** [HashMap(size_t size)], in the store [h]. *)
Definition HashMap_sized (size : N) (h : gmap loc Element) : outcome state unit :=
  allocateTableAndMutexes size (mkState raw h).

(** [while (tmp != nullptr) { insert(tmp->key, tmp->value); tmp = tmp->next; }] *)
Fixpoint insert_chain (fuel : nat) (tmp : option loc) : M state unit :=
  match tmp with
  | None => mret tt
  | Some _ =>
      e ← deref tmp;
      insert (key e) (value e) ;;
      e' ← deref tmp;
      match fuel with
      | O => diverges
      | Datatypes.S fuel' => insert_chain fuel' (next e')
      end
  end.

(** The loop "Insert elements from other" of the copy constructor and of
    the copy assignment operator. *)
Definition insert_from_body (other : HashMap) (i : N) (_ : unit) : M state unit :=
  lock_of other i ;;
  head ← bucket_of other i;
  match head with
  | None => mret tt
  | Some _ => with_fuel (λ fuel, insert_chain fuel head)
  end.

Definition insert_from (other : HashMap) : M state unit :=
  for_unsigned (_size other) (insert_from_body other) tt.

(** [HashMap(HashMap &other)], in the store [h]. *)
Definition HashMap_copy (other : HashMap) (h : gmap loc Element) : outcome state unit :=
  (allocateTableAndMutexes (_size other) ;; insert_from other) (mkState raw h).

(** [HashMap(HashMap &&other)]: the new object and what is left of [other]. *)
Definition HashMap_move (other : HashMap) : HashMap * HashMap :=
  (mkHashMap (_size other) (_table other) (_mutexes other), mkHashMap 0 Null Null).

(** [operator=(HashMap &other)]; [same] tells whether [this == &other]. *)
Definition copy_assign (same : bool) (other : HashMap) : M state unit :=
  if same then mret tt
  else
    destroyTableAndMutexes ;;
    allocateTableAndMutexes (_size other) ;;
    insert_from other.

(** The six assignments shared by the move constructor and the move
    assignment operator; the result is what is left of [other]. *)
Definition take_over (other : HashMap) : M state HashMap := λ s,
  Ok (snd (HashMap_move other)) (set_this (λ _, fst (HashMap_move other)) s).

(** The statements of [operator=(HashMap &&other)]. *)
Definition move_assign_body (same : bool) (other : HashMap) : M state HashMap :=
  if same then mret other
  else
    destroyTableAndMutexes ;;
    take_over other.

(** [operator=(HashMap &&other)] is declared to return [HashMap&] and ends
    without a [return] statement: control flows off the end of the function. *)
Definition move_assign (same : bool) (other : HashMap) : M state HashMap :=
  move_assign_body same other ;;
  undefined.

(** ** resize *)

(** [hashFunctor(key) % newSize], stored in an [unsigned]. *)
Definition new_index (newSize : N) (k : K) : option N :=
  if decide (newSize = 0) then None
  else Some ((hashFunctor k mod newSize) mod 2 ^ 32).

(** One round of the inner loop, up to the insertion into [newTable]. *)
Definition rehash_one (newSize : N) (newTable : array (option loc)) (tmp : option loc)
  : M state (array (option loc)) :=
  e ← deref tmp;
  match new_index newSize (key e) with
  | None => undefined
  | Some newIdx =>
      match load newTable newIdx with
      | None => undefined
      | Some None =>
          l ← new_Element (key e) (value e);
          match assign newTable newIdx (Val (Some l)) with
          | Some a => mret a
          | None => undefined
          end
      | Some (Some p0) =>
          p ← with_fuel (λ fuel, find_last fuel (key e) p0);
          pe ← deref (Some p);
          if decide (key pe = key e)
          then store p (mkElement (key pe) (value e) (next pe)) ;; mret newTable
          else
            l ← new_Element (key e) (value e);
            store p (mkElement (key pe) (value pe) (Some l)) ;; mret newTable
      end
  end.

(** [while (tmp != nullptr) { old = tmp; ...; tmp = tmp->next; delete old; }] *)
Fixpoint rehash_chain (fuel : nat) (newSize : N) (newTable : array (option loc))
    (tmp : option loc) : M state (array (option loc)) :=
  match tmp with
  | None => mret newTable
  | Some old =>
      newTable' ← rehash_one newSize newTable tmp;
      e ← deref tmp;
      delete_Element old ;;
      match fuel with
      | O => diverges
      | Datatypes.S fuel' => rehash_chain fuel' newSize newTable' (next e)
      end
  end.

(** The body of the outer loop.  As in [destroyTableAndMutexes], an empty
    bucket skips the [delete _mutexes[i]]. *)
Definition resize_body (newSize : N) (i : N) (newTable : array (option loc))
  : M state (array (option loc)) :=
  lock_guard i ;;
  head ← read_bucket i;
  match head with
  | None => mret newTable
  | Some _ =>
      newTable' ← with_fuel (λ fuel, rehash_chain fuel newSize newTable head);
      delete_mutex i ;;
      mret newTable'
  end.

(** Neither [newTable] nor the new mutex array is initialised. *)
Definition resize (newSize : N) : M state unit :=
  let newTable := new_array newSize in
  n ← getSize;
  newTable ← for_unsigned n (resize_body newSize) newTable;
  delete_arrays ;;
  set_fields (mkHashMap newSize newTable (new_array newSize)).

(** ** Iterators *)

(** A read of the map [m] from inside an iterator operation. *)
Definition peek {S A} (m : state) (r : M state A) : M S A := λ it,
  match r m with
  | Ok a _ => Ok a it
  | Throw w _ => Throw w it
  | Undefined => Undefined
  | Diverges => Diverges
  end.

(** [while (idx < size && getTable()[idx] == nullptr) idx++;] with an
    [unsigned] counter. *)
Fixpoint skip_empty {S} (fuel : nat) (m : state) (size idx : N) : M S N :=
  if decide (idx < size) then
    p ← peek m (read_bucket idx);
    match p with
    | Some _ => mret idx
    | None =>
        match fuel with
        | O => diverges
        | Datatypes.S fuel' => skip_empty fuel' m size ((idx + 1) mod 2 ^ 32)
        end
    end
  else mret idx.

(** The position a bucket scan stops at. *)
Definition land_on {S} (m : state) (size idx : N) : M S (option loc) :=
  if decide (idx < size) then peek m (read_bucket idx) else mret None.

(** *** [class HashMapIter] of the older header; [_map] is passed as [m]. *)
Record HashMapIter : Type := mkHashMapIter {
  _curr : option loc;
  _idx : N
}.

(** [HashMapIter(HashMap *map)] *)
Definition createIterator : HashMapIter := mkHashMapIter None 0.

Definition HashMapIter_first (m : state) : M HashMapIter unit := λ _,
  (size ← peek m getSize;
   idx ← skip_empty (N.to_nat size) m size 0;
   curr ← land_on m size idx;
   put (mkHashMapIter curr idx)) createIterator.

Definition HashMapIter_next (m : state) : M HashMapIter unit := λ it,
  match _curr it with
  | None => Ok tt it
  | Some _ =>
      (e ← peek m (deref (_curr it));
       match next e with
       | None =>
           size ← peek m getSize;
           idx ← skip_empty (N.to_nat size) m size ((_idx it + 1) mod 2 ^ 32);
           curr ← land_on m size idx;
           put (mkHashMapIter curr idx)
       | Some _ => put (mkHashMapIter (next e) (_idx it))
       end) it
  end.

Definition HashMapIter_isEnd (it : HashMapIter) : bool :=
  bool_decide (_curr it = None).

Definition HashMapIter_getCurrent (it : HashMapIter) : option loc := _curr it.

(** *** [class HashMap::Iterator] of the newer header *)
Record Iterator : Type := mkIterator {
  _current : option loc;
  _index : N
}.

(** [Iterator(HashMap *map, Element *current)]; [_index] keeps its default
    member initialiser. *)
Definition Iterator_at (current : option loc) : Iterator := mkIterator current 0.

Definition Iterator_next (m : state) : M Iterator unit := λ it,
  match _current it with
  | None => Ok tt it
  | Some _ =>
      (e ← peek m (deref (_current it));
       match next e with
       | None =>
           size ← peek m getSize;
           idx ← skip_empty (N.to_nat size) m size ((_index it + 1) mod 2 ^ 32);
           curr ← land_on m size idx;
           put (mkIterator curr idx)
       | Some _ => put (mkIterator (next e) (_index it))
       end) it
  end.

(** [operator==] compares the [_current] pointers only. *)
Definition Iterator_eq (a b : Iterator) : bool :=
  bool_decide (_current a = _current b).

Definition begin : M state Iterator := λ m,
  (size ← getSize;
   i ← skip_empty (N.to_nat size) m size 0;
   first ← land_on m size i;
   mret (Iterator_at first)) m.

Definition end_ : Iterator := Iterator_at None.

(** The loop of the test programs over a table [m]:
    [while (it != m.end()) { visit( *it ); ++it; }], with the visited pairs
    as result. *)
Fixpoint Iterator_visit (fuel : nat) (m : state) : M Iterator (list (K * V)) := λ it,
  if Iterator_eq it end_ then Ok [] it
  else
    match fuel with
    | O => Diverges
    | Datatypes.S fuel' =>
        (e ← peek m (deref (_current it));
         Iterator_next m ;;
         rest ← Iterator_visit fuel' m;
         mret ((key e, value e) :: rest)) it
    end.

(** The same loop with the older iterator:
    [for (it->first(); !it->isEnd(); it->next()) visit(it->getCurrent());]. *)
Fixpoint HashMapIter_visit (fuel : nat) (m : state) : M HashMapIter (list (K * V)) :=
  λ it,
  if HashMapIter_isEnd it then Ok [] it
  else
    match fuel with
    | O => Diverges
    | Datatypes.S fuel' =>
        (e ← peek m (deref (HashMapIter_getCurrent it));
         HashMapIter_next m ;;
         rest ← HashMapIter_visit fuel' m;
         mret ((key e, value e) :: rest)) it
    end.

(** The chain that starts at [p], as the list of its nodes. *)
Fixpoint walk (fuel : nat) (h : gmap loc Element) (p : option loc)
  : list (loc * (K * V)) :=
  match p with
  | None => []
  | Some l =>
      match h !! l, fuel with
      | Some e, Datatypes.S fuel' => (l, (key e, value e)) :: walk fuel' h (next e)
      | _, _ => []
      end
  end.

(** The chains of the table of [s], bucket by bucket. *)
Definition chains (s : state) : list (list (loc * (K * V))) :=
  match _table (this s) with
  | Array cells =>
      (λ c, match c with
            | Val p => walk (size (mem s)) (mem s) p
            | Indeterminate => []
            end) <$> cells
  | _ => []
  end.

(** ** Abstract view of a table

    A chain is described by the list of its nodes, each a location together
    with the key and value stored there; a table by the list of its chains,
    in bucket order. *)

(** The pointer to the first node of [xs], or [q] when there is none. *)
Definition ptr_to (xs : list (loc * (K * V))) (q : option loc) : option loc :=
  match xs with
  | [] => q
  | x :: _ => Some x.1
  end.

Definition head_ptr (xs : list (loc * (K * V))) : option loc := ptr_to xs None.

(** The store holds the nodes of [xs], each linked to the next one and the
    last one to [q]. *)
Fixpoint lseg (h : gmap loc Element) (xs : list (loc * (K * V))) (q : option loc)
  : Prop :=
  match xs with
  | [] => True
  | x :: xs' =>
      h !! x.1 = Some (mkElement x.2.1 x.2.2 (ptr_to xs' q)) ∧ lseg h xs' q
  end.

(** A whole chain ends in [nullptr]. *)
Definition linked (h : gmap loc Element) (xs : list (loc * (K * V))) : Prop :=
  lseg h xs None.

(** No element belongs twice to a chain or to two chains. *)
Definition separate (cs : list (list (loc * (K * V)))) : Prop :=
  (∀ i xs, cs !! i = Some xs → NoDup xs.*1) ∧
  (∀ i j xs zs l, cs !! i = Some xs → cs !! j = Some zs →
     l ∈ xs.*1 → l ∈ zs.*1 → i = j).

(** [t] is a table whose chains are [cs] in the store [h]: bucket [i] points
    to the head of chain [i], every bucket has its mutex, and the chains
    share no element. *)
Record table_repr (h : gmap loc Element) (t : HashMap)
    (cs : list (list (loc * (K * V)))) : Prop := mk_table_repr {
  repr_size : _size t < 2 ^ 32;
  repr_length : N.of_nat (length cs) = _size t;
  repr_table : _table t = Array ((λ xs, Val (head_ptr xs)) <$> cs);
  repr_mutexes : _mutexes t = Array (replicate (length cs) (Val unlocked));
  repr_linked : Forall (linked h) cs;
  repr_separate : separate cs
}.

Definition repr (s : state) (cs : list (list (loc * (K * V)))) : Prop :=
  table_repr (mem s) (this s) cs.

(** The bucket of a key in a table of [n] buckets. *)
Definition index (n : N) (k : K) : N := hashFunctor k mod n.

(** Invariants of the data model: every entry sits in the bucket of its
    key, and no chain holds a key twice. *)
Definition placed (n : N) (cs : list (list (loc * (K * V)))) : Prop :=
  ∀ i xs x, cs !! i = Some xs → x ∈ xs → index n x.2.1 = N.of_nat i.

Definition unique_keys (cs : list (list (loc * (K * V)))) : Prop :=
  Forall (λ xs, NoDup xs.*2.*1) cs.

(** First node of a chain with key [k]. *)
Fixpoint first_with (k : K) (xs : list (loc * (K * V))) : option (loc * (K * V)) :=
  match xs with
  | [] => None
  | x :: xs' => if decide (x.2.1 = k) then Some x else first_with k xs'
  end.

(** What [insert] does to a chain; [l] is the location of the new element,
    used when no node has key [k]. *)
Fixpoint upsert (l : loc) (k : K) (v : V) (xs : list (loc * (K * V)))
  : list (loc * (K * V)) :=
  match xs with
  | [] => [(l, (k, v))]
  | x :: xs' =>
      if decide (x.2.1 = k) then (x.1, (x.2.1, v)) :: xs'
      else x :: upsert l k v xs'
  end.

(** What [remove] does to a chain. *)
Fixpoint remove_first (k : K) (xs : list (loc * (K * V))) : list (loc * (K * V)) :=
  match xs with
  | [] => []
  | x :: xs' => if decide (x.2.1 = k) then xs' else x :: remove_first k xs'
  end.

(** The chain that the bucket of [k] points to. *)
Definition chain_of (n : N) (cs : list (list (loc * (K * V)))) (k : K)
  : list (loc * (K * V)) :=
  cs !!! N.to_nat (index n k).

(** ** remove *)

(** The pointer to the last node of [pre], or [q] when there is none. *)
Definition ptr_last (pre : list (loc * (K * V))) (q : option loc) : option loc :=
  match last pre with
  | Some p => Some p.1
  | None => q
  end.

(** ** Sized construction *)

(** The table [allocateTableAndMutexes n] builds. *)
Definition empty_table (n : N) : HashMap :=
  mkHashMap n
    (Array (replicate (N.to_nat n) (Val None)))
    (Array (replicate (N.to_nat n) (Val unlocked))).

(** ** The table as a finite map *)

(** The value the table associates with [k]: that of the first node with
    key [k] in the chain of [k]'s bucket. *)
Definition content (n : N) (cs : list (list (loc * (K * V)))) (k : K) : option V :=
  (λ x, x.2.2) <$> first_with k (chain_of n cs k).

(** ** Sequences of calls *)

Inductive op : Type :=
| Insert (k : K) (v : V)
| Remove (k : K)
| Resize (newSize : N).

Definition apply_op (o : op) : M state unit :=
  match o with
  | Insert k v => insert k v
  | Remove k => remove k
  | Resize newSize => resize newSize
  end.

(** A caller that makes the calls in turn and catches [std::out_of_range],
    as the test programs do around [lookup] and [remove]. *)
Fixpoint run (ops : list op) : M state unit := λ s,
  match ops with
  | [] => Ok tt s
  | o :: ops' =>
      match apply_op o s with
      | Ok _ s' => run ops' s'
      | Throw _ s' => run ops' s'
      | Undefined => Undefined
      | Diverges => Diverges
      end
  end.

(** The call neither removes nor overwrites the entry of [k], nor rebuilds
    the table. *)
Definition keeps (k : K) (o : op) : Prop :=
  match o with
  | Insert k' _ => k' ≠ k
  | Remove k' => k' ≠ k
  | Resize _ => False
  end.

(** All entries of a table, in bucket order and within a bucket in chain
    order. *)
Definition entries (cs : list (list (loc * (K * V)))) : list (K * V) :=
  (mjoin cs).*2.

(** The result of a call, without the state it leaves. *)
Definition result {S A} (o : outcome S A) : outcome unit A :=
  match o with
  | Ok a _ => Ok a tt
  | Throw w _ => Throw w tt
  | Undefined => Undefined
  | Diverges => Diverges
  end.

(** ** resize *)

(** The state [resize] leaves when it returns: a bucket array and a mutex
    array of [newSize] cells, none of them initialised. *)
Definition resized (newSize : N) (h : gmap loc Element) : state :=
  mkState (mkHashMap newSize (new_array newSize) (new_array newSize)) h.

(** ** States reached from a sized construction *)

(** Either a table in the sense of the data model, or what [resize] leaves. *)
Definition sound (s : state) : Prop :=
  (∃ cs, repr s cs ∧ placed (_size (this s)) cs ∧ unique_keys cs) ∨
  (∃ m h, s = resized m h).

(** [e] is an element of the chain that starts at [p]. *)
Inductive reaches (h : gmap loc Element) : option loc → Element → Prop :=
| reaches_here l e : h !! l = Some e → reaches h (Some l) e
| reaches_next l e e' :
    h !! l = Some e → reaches h (next e) e' → reaches h (Some l) e'.

(** [e] is an element of the chain of bucket [i]. *)
Definition bucket_entry (s : state) (i : N) (e : Element) : Prop :=
  ∃ p, load (_table (this s)) i = Some p ∧ reaches (mem s) p e.

(** ** Two tables in one store *)

(** The locations of the elements of a table. *)
Definition footprint (cs : list (list (loc * (K * V)))) : gset loc :=
  list_to_set (mjoin cs).*1.

(** ** The logical contents of a table *)

(** The key-value pairs of each chain, without the locations. *)
Definition kvs (cs : list (list (loc * (K * V)))) : list (list (K * V)) :=
  (λ xs : list (loc * (K * V)), xs.*2) <$> cs.

(** [upsert], on the pairs. *)
Fixpoint upsert_kv (k : K) (v : V) (c : list (K * V)) : list (K * V) :=
  match c with
  | [] => [(k, v)]
  | y :: c' => if decide (y.1 = k) then (y.1, v) :: c' else y :: upsert_kv k v c'
  end.

(** [insert], on the pairs of a table of [n] buckets. *)
Definition insert_kv (n : N) (m : list (list (K * V))) (kv : K * V)
  : list (list (K * V)) :=
  <[N.to_nat (index n kv.1) :=
      upsert_kv kv.1 kv.2 (m !!! N.to_nat (index n kv.1))]> m.

(** ** Copying *)

(** From [(s, cs)] to [(s', cs')] the table kept its capacity, took its new
    elements from outside the live ones, and left every live element that
    was not its own as it was. *)
Definition grows (s : state) (cs : list (list (loc * (K * V))))
    (s' : state) (cs' : list (list (loc * (K * V)))) : Prop :=
  _size (this s') = _size (this s) ∧
  footprint cs' ⊆ footprint cs ∪ (dom (mem s') ∖ dom (mem s)) ∧
  (∀ l, l ∈ dom (mem s) → l ∉ footprint cs → mem s' !! l = mem s !! l).

(** ** Independence of two tables *)

(** A table object in the store: one that a constructor or an assignment
    filled, or one that is default-constructed or moved-from. *)
Definition is_table (h : gmap loc Element) (t : HashMap)
    (cs : list (list (loc * (K * V)))) : Prop :=
  table_repr h t cs ∨ (t = HashMap_default ∧ cs = []).

(** The call changes the entries of a table, not its capacity. *)
Definition mutation (o : op) : Prop :=
  match o with
  | Insert _ _ | Remove _ => True
  | Resize _ => False
  end.

(** [s2] holds a table that is a copy of [t1], whose chains were [cs1] in the
    store [h]: same capacity, same entries chain by chain, so [lookup] gives
    on it what it gave on [t1]; and later calls of [insert] and [remove] on
    either table do not change what [lookup] gives on the other. *)
Definition independent_copy (t1 : HashMap) (cs1 : list (list (loc * (K * V))))
    (h : gmap loc Element) (s2 : state) : Prop :=
  _size (this s2) = _size t1 ∧
  (∃ cs2, repr s2 cs2 ∧ kvs cs2 = kvs cs1) ∧
  (∀ k, result (lookup k s2) = result (lookup k (mkState t1 h))) ∧
  (∀ ops s1' k,
     Forall mutation ops → run ops (mkState t1 (mem s2)) = Ok tt s1' →
     result (lookup k (mkState (this s2) (mem s1'))) = result (lookup k s2)) ∧
  (∀ ops s2' k,
     Forall mutation ops → run ops s2 = Ok tt s2' →
     result (lookup k (mkState t1 (mem s2'))) = result (lookup k (mkState t1 h))).

Fixpoint check_placed (n : N) (i : nat) (cs : list (list (loc * (K * V)))) : bool :=
  match cs with
  | [] => true
  | xs :: cs' =>
      forallb (λ x, bool_decide (index n x.2.1 = N.of_nat i)) xs
      && check_placed n (S i) cs'
  end.

(** ** The finite map a sequence of calls builds *)

(** What one call does to a finite map from keys to values; [resize] is
    meant to keep it. *)
Definition map_step (o : op) (f : K → option V) : K → option V :=
  match o with
  | Insert k v => λ k', if decide (k' = k) then Some v else f k'
  | Remove k => λ k', if decide (k' = k) then None else f k'
  | Resize _ => f
  end.

Definition map_after (ops : list op) (f : K → option V) : K → option V :=
  foldl (λ f o, map_step o f) f ops.

(** ** The first non-empty chain of a table *)

Fixpoint first_chain (cs : list (list (loc * (K * V)))) : list (loc * (K * V)) :=
  match cs with
  | [] => []
  | [] :: cs' => first_chain cs'
  | xs :: _ => xs
  end.

(** ** print *)

Section Print.

Context `{Show K} `{Show V}.

(** [while (tmp != nullptr) { std::cout << "(" << tmp->key << ", "
    << tmp->value << "), "; tmp = tmp->next; }] over the table [m]. *)
Fixpoint print_chain (fuel : nat) (m : state) (tmp : option loc) : M string unit :=
  match tmp with
  | None => mret tt
  | Some _ =>
      e ← peek m (deref tmp);
      write "(" ;; write (show (key e)) ;; write ", " ;;
      write (show (value e)) ;; write "), " ;;
      match fuel with
      | O => diverges
      | Datatypes.S fuel' => print_chain fuel' m (next e)
      end
  end.

(** The body of the loop of [print]; an empty bucket writes nothing. *)
Definition print_body (m : state) (i : N) (_ : unit) : M string unit :=
  peek m (lock_guard i) ;;
  head ← peek m (read_bucket i);
  match head with
  | None => mret tt
  | Some _ =>
      write "[" ;; write (pretty i) ;; write "] -> " ;;
      print_chain (size (mem m)) m head ;;
      write "" ;; write endl
  end.

Definition print (m : state) : M string unit :=
  n ← peek m getSize;
  for_unsigned n (print_body m) tt.

(** The text of one entry, of one chain, and of the chains from bucket [i]
    on. *)
Definition show_entry (kv : K * V) : string :=
  "(" +:+ show kv.1 +:+ ", " +:+ show kv.2 +:+ "), ".

Definition show_chain (i : N) (c : list (K * V)) : string :=
  match c with
  | [] => ""
  | _ => "[" +:+ pretty i +:+ "] -> "
         +:+ foldr (λ kv t, show_entry kv +:+ t) endl c
  end.

Fixpoint show_chains (i : N) (cs : list (list (K * V))) : string :=
  match cs with
  | [] => ""
  | c :: cs' => show_chain i c +:+ show_chains (N.succ i) cs'
  end.

End Print.

Section Decide.

Context `{EqDecision V}.

#[global] Instance Element_eq_dec : EqDecision Element.
Proof. solve_decision. Defined.

#[global] Instance lseg_dec h xs q : Decision (lseg h xs q).
Proof. induction xs as [|x xs IH]; simpl; apply _. Defined.

Definition check_repr (h : gmap loc Element) (t : HashMap)
    (cs : list (list (loc * (K * V)))) : bool :=
  bool_decide (_size t < 2 ^ 32)
  && bool_decide (N.of_nat (length cs) = _size t)
  && bool_decide (_table t = Array ((λ xs, Val (head_ptr xs)) <$> cs))
  && bool_decide (_mutexes t = Array (replicate (length cs) (Val unlocked)))
  && bool_decide (Forall (λ xs, lseg h xs None) cs)
  && bool_decide (NoDup (mjoin cs).*1).

Definition check_unique (cs : list (list (loc * (K * V)))) : bool :=
  bool_decide (Forall (λ xs : list (loc * (K * V)), NoDup xs.*2.*1) cs).

End Decide.

End Table.

Local Open Scope string_scope.

(** [UnsignedHash] of test1.cpp, on [unsigned] keys. *)
#[global] Instance UnsignedHash : Hasher N := λ key,
  ((key * key + 17) mod 2 ^ 32) mod 100.

(** The state a call leaves, whether it returned or threw. *)
Definition state_after {S A} (o : outcome S A) (otherwise : S) : S :=
  match o with
  | Ok _ s | Throw _ s => s
  | _ => otherwise
  end.

(** ** The tables of the test programs *)

(** [HashMap<unsigned, std::string, UnsignedHash> umap(MAX_TABLE_SIZE)], in
    a store without elements. *)
Definition umap0 : @state N string := mkState (empty_table 100) ∅.

(** [umap] after the five calls of [insert] that open test1.cpp. *)
Definition umap : @state N string :=
  state_after
    (run
       [Insert 25 "hello"; Insert 34 "world"; Insert 43 "one";
        Insert 143 "two"; Insert 754 "three"] umap0)
    umap0.

(** The table of the specification's example of iteration. *)
Definition two : @state N string :=
  state_after (run [Insert 25 "hello"; Insert 34 "world"] umap0) umap0.

(** The same two entries in a table of three buckets, where they sit in
    buckets 0 and 1. *)
Definition three : @state N string :=
  state_after
    (run [Insert 25 "hello"; Insert 34 "world"] (mkState (empty_table 3) ∅))
    (mkState (empty_table 3) ∅).

(** [std::cout << i] for an [unsigned], [std::cout << s] for a
    [std::string]. *)
#[global] Instance show_unsigned : Show N := pretty.
#[global] Instance show_string : Show string := id.

(** ** The hash functor of test2.cpp for string keys *)

(** [(unsigned) c] for a [char c].  Where [char] is a signed type, the
    bytes from 128 on are negative and the conversion wraps. *)
Definition unsigned_of_char (char_is_signed : bool) (c : Ascii.ascii) : N :=
  if char_is_signed && N.leb 128 (Ascii.N_of_ascii c)
  then 2 ^ 32 - 256 + Ascii.N_of_ascii c
  else Ascii.N_of_ascii c.

(** [res += (unsigned) *it + HASH_CONST], in an [unsigned]. *)
Definition StringHash_step (char_is_signed : bool) (res : N) (c : Ascii.ascii) : N :=
  (res + (unsigned_of_char char_is_signed c + 17) mod 2 ^ 32) mod 2 ^ 32.

(** [StringHash]: the loop over the characters of the key, from [res = 0]. *)
Definition StringHash (char_is_signed : bool) : Hasher string := λ key,
  foldl (StringHash_step char_is_signed) 0 (String.list_ascii_of_string key).

(** Decides a closed proposition by evaluation. *)
Ltac by_evaluation := apply (bool_decide_unpack _); vm_compute; exact I.

Local Close Scope string_scope.

(** * Proofs *)

(** ** The monad *)

Lemma bind_Ok {S A B} (m : M S A) (f : A → M S B) s a s' :
  m s = Ok a s' → (m ≫= f) s = f a s'.
Proof. intros Hm. unfold mbind, M_bind. by rewrite Hm. Qed.

Lemma bind_Throw {S A B} (m : M S A) (f : A → M S B) s w s' :
  m s = Throw w s' → (m ≫= f) s = Throw w s'.
Proof. intros Hm. unfold mbind, M_bind. by rewrite Hm. Qed.

Lemma bind_Undefined {S A B} (m : M S A) (f : A → M S B) s :
  m s = Undefined → (m ≫= f) s = Undefined.
Proof. intros Hm. unfold mbind, M_bind. by rewrite Hm. Qed.

Lemma bind_inv_Ok {S A B} (m : M S A) (f : A → M S B) s b s2 :
  (m ≫= f) s = Ok b s2 → ∃ a s1, m s = Ok a s1 ∧ f a s1 = Ok b s2.
Proof. unfold mbind, M_bind. destruct (m s); naive_solver. Qed.

Lemma mret_Ok {S A} (a : A) (s : S) : mret (M := M S) a s = Ok a s.
Proof. done. Qed.

Section Proofs.

Context {K V : Type} `{EqDecision K} `{Hasher K}.

Implicit Types (k : K) (v : V) (kv : K * V) (e : @Element K V).
Implicit Types (h : gmap loc (@Element K V)) (s : @state K V).
Implicit Types (x y z : loc * (K * V)) (xs ys zs pre post : list (loc * (K * V))).
Implicit Types (cs : list (list (loc * (K * V)))).
Implicit Types (o : @op K V) (ops : list (@op K V)).

(** ** Chains in the store *)

Lemma lseg_frame h h' xs q :
  lseg h xs q → (∀ l, l ∈ xs.*1 → h' !! l = h !! l) → lseg h' xs q.
Proof.
  induction xs as [|x xs IH]; simpl; [done|].
  intros [Hx Hxs] Hsame. split.
  - rewrite Hsame; [done | set_solver].
  - apply IH; [done|]. intros l Hl. apply Hsame. set_solver.
Qed.

Lemma lseg_dom h xs q l : lseg h xs q → l ∈ xs.*1 → l ∈ dom h.
Proof.
  induction xs as [|x xs IH]; simpl; [set_solver|].
  intros [Hx Hxs] Hl. apply elem_of_cons in Hl as [->|Hl].
  - apply elem_of_dom. eauto.
  - by apply IH.
Qed.

Lemma ptr_to_app xs ys q : ptr_to (xs ++ ys) q = ptr_to xs (ptr_to ys q).
Proof. by destruct xs. Qed.

Lemma lseg_app h xs ys q :
  lseg h (xs ++ ys) q ↔ lseg h xs (ptr_to ys q) ∧ lseg h ys q.
Proof.
  induction xs as [|x xs IH]; simpl; [naive_solver|].
  rewrite ptr_to_app. naive_solver.
Qed.

Lemma lseg_length h xs q :
  lseg h xs q → NoDup xs.*1 → (length xs ≤ size h)%nat.
Proof.
  intros Hl Hnd.
  rewrite <- (length_fmap fst xs), <- (size_list_to_set (C := gset loc)) by done.
  rewrite <- size_dom. apply subseteq_size.
  intros l Hl'. apply elem_of_list_to_set in Hl'. by eapply lseg_dom.
Qed.

Lemma first_with_Some k xs x :
  first_with k xs = Some x →
  ∃ pre post, xs = pre ++ x :: post ∧ Forall (λ y, y.2.1 ≠ k) pre ∧ x.2.1 = k.
Proof.
  induction xs as [|y xs IH]; simpl; [done|].
  case_decide as Hy.
  - intros [= ->]. by exists [], xs.
  - intros (pre & post & -> & Hpre & Hx)%IH.
    exists (y :: pre), post. by repeat constructor.
Qed.

Lemma first_with_None k xs :
  first_with k xs = None ↔ Forall (λ y, y.2.1 ≠ k) xs.
Proof.
  induction xs as [|y xs IH]; simpl; [by split; [constructor|]|].
  case_decide as Hy.
  - split; [done|]. by intros [? ?]%Forall_cons.
  - rewrite IH, Forall_cons. naive_solver.
Qed.

Lemma first_with_app k pre x post :
  Forall (λ y, y.2.1 ≠ k) pre → x.2.1 = k →
  first_with k (pre ++ x :: post) = Some x.
Proof.
  intros Hpre Hx. induction Hpre as [|y pre Hy _ IH]; simpl.
  - by rewrite decide_True.
  - by rewrite decide_False.
Qed.

Lemma first_with_elem k xs :
  is_Some (first_with k xs) ↔ k ∈ xs.*2.*1.
Proof.
  induction xs as [|y xs IH]; simpl.
  - split; [by intros [? ?] | by intros ?%elem_of_nil].
  - case_decide as Hy.
    + split; [intros _; subst; by left | eauto].
    + rewrite IH, elem_of_cons. naive_solver.
Qed.

(** ** Reading a represented table *)

Lemma index_lt n k : 0 < n → index n k < n.
Proof. intros Hn. apply N.mod_lt. lia. Qed.

Lemma repr_chain h t cs i :
  table_repr h t cs → i < _size t → ∃ xs, cs !! N.to_nat i = Some xs.
Proof.
  intros Hr Hi. apply lookup_lt_is_Some_2.
  pose proof (repr_length _ _ _ Hr). lia.
Qed.

Lemma repr_bucket h t cs i xs :
  table_repr h t cs → cs !! N.to_nat i = Some xs →
  load (_table t) i = Some (head_ptr xs).
Proof.
  intros Hr Hxs. unfold load.
  by rewrite (repr_table _ _ _ Hr), list_lookup_fmap, Hxs.
Qed.

Lemma repr_mutex h t cs i :
  table_repr h t cs → i < _size t → load (_mutexes t) i = Some unlocked.
Proof.
  intros Hr Hi. unfold load. rewrite (repr_mutexes _ _ _ Hr).
  rewrite lookup_replicate_2; [done|].
  pose proof (repr_length _ _ _ Hr). lia.
Qed.

Lemma repr_chain_linked h t cs i xs :
  table_repr h t cs → cs !! i = Some xs → linked h xs.
Proof.
  intros Hr Hxs. by eapply (Forall_lookup_1 _ _ _ _ (repr_linked _ _ _ Hr)).
Qed.

Lemma repr_chain_NoDup h t cs i xs :
  table_repr h t cs → cs !! i = Some xs → NoDup xs.*1.
Proof. intros Hr Hxs. by eapply (proj1 (repr_separate _ _ _ Hr)). Qed.

Lemma repr_chain_fuel h t cs i xs :
  table_repr h t cs → cs !! i = Some xs → (length xs ≤ size h)%nat.
Proof.
  intros Hr Hxs. eapply lseg_length.
  - by eapply repr_chain_linked.
  - by eapply repr_chain_NoDup.
Qed.

Lemma hash_repr s cs k :
  repr s cs → 0 < _size (this s) →
  hash k s = Ok (index (_size (this s)) k) s.
Proof.
  intros Hr Hpos. unfold hash. rewrite decide_False by lia.
  f_equal. apply N.mod_small.
  pose proof (index_lt (_size (this s)) k Hpos).
  pose proof (repr_size _ _ _ Hr). unfold index in *. lia.
Qed.

Lemma lock_guard_repr s cs i :
  repr s cs → i < _size (this s) → lock_guard i s = Ok tt s.
Proof.
  intros Hr Hi. unfold lock_guard, lock_of. by erewrite repr_mutex.
Qed.

Lemma read_bucket_repr s cs i xs :
  repr s cs → cs !! N.to_nat i = Some xs →
  read_bucket i s = Ok (head_ptr xs) s.
Proof.
  intros Hr Hxs. unfold read_bucket, bucket_of. by erewrite repr_bucket.
Qed.

Lemma write_bucket_repr s cs i p :
  repr s cs → (N.to_nat i < length cs)%nat →
  write_bucket i p s
  = Ok tt (mkState
             (mkHashMap (_size (this s))
                (Array (<[N.to_nat i := Val p]> ((λ xs, Val (head_ptr xs)) <$> cs)))
                (_mutexes (this s)))
             (mem s)).
Proof.
  intros Hr Hi. unfold write_bucket, assign.
  rewrite (repr_table _ _ _ Hr), decide_True; [done|]. by rewrite length_fmap.
Qed.

Lemma chain_of_lookup s cs k :
  repr s cs → 0 < _size (this s) →
  cs !! N.to_nat (index (_size (this s)) k) = Some (chain_of (_size (this s)) cs k).
Proof.
  intros Hr Hpos.
  destruct (repr_chain _ _ _ (index (_size (this s)) k) Hr) as [xs Hxs].
  - by apply index_lt.
  - unfold chain_of. by rewrite (list_lookup_total_correct _ _ _ Hxs).
Qed.

(** ** The scan of [exists] and [lookup] *)

Lemma find_eq fuel k tmp :
  find (V := V) fuel k tmp =
  match tmp with
  | None => mret None
  | Some _ =>
      e ← deref tmp;
      if decide (key e = k) then mret tmp
      else match fuel with
           | O => diverges
           | Datatypes.S fuel' => find fuel' k (next e)
           end
  end.
Proof. by destruct fuel. Qed.

Lemma deref_lseg s x xs q :
  lseg (mem s) (x :: xs) q →
  deref (Some x.1) s = Ok (mkElement x.2.1 x.2.2 (ptr_to xs q)) s.
Proof. intros [Hx _]. unfold deref. by rewrite Hx. Qed.

Lemma find_spec fuel k xs s :
  linked (mem s) xs → (length xs ≤ fuel)%nat →
  find fuel k (head_ptr xs) s = Ok (fst <$> first_with k xs) s.
Proof.
  revert fuel. induction xs as [|x xs IH]; intros fuel Hl Hfuel.
  - by rewrite find_eq.
  - rewrite find_eq. simpl.
    erewrite bind_Ok by (by eapply deref_lseg). simpl.
    case_decide as Hk; [done|].
    destruct fuel as [|fuel]; simpl in Hfuel; [lia|].
    apply IH; [by destruct Hl | lia].
Qed.

Lemma scan_spec s cs k {A} (f : option loc → M state A) :
  repr s cs → 0 < _size (this s) →
  (i ← hash k;
   lock_guard i ;;
   tmp ← read_bucket i;
   tmp ← with_fuel (λ fuel, find fuel k tmp);
   f tmp) s
  = f (fst <$> first_with k (chain_of (_size (this s)) cs k)) s.
Proof.
  intros Hr Hpos.
  pose proof (chain_of_lookup s cs k Hr Hpos) as Hxs.
  erewrite bind_Ok by (by eapply hash_repr).
  erewrite bind_Ok by (eapply lock_guard_repr; [done | by apply index_lt]).
  erewrite bind_Ok by (by eapply read_bucket_repr).
  erewrite bind_Ok; [done|].
  unfold with_fuel. apply find_spec.
  - by eapply repr_chain_linked.
  - by eapply repr_chain_fuel.
Qed.

Lemma exists_spec s cs k :
  repr s cs → 0 < _size (this s) →
  exists_ k s
  = Ok (bool_decide (is_Some (first_with k (chain_of (_size (this s)) cs k)))) s.
Proof.
  intros Hr Hpos. unfold exists_. rewrite (scan_spec s cs) by done.
  rewrite mret_Ok. f_equal. apply bool_decide_ext.
  destruct (first_with _ _); simpl; split; try done.
Qed.

Lemma lookup_spec s cs k :
  repr s cs → 0 < _size (this s) →
  lookup k s
  = match first_with k (chain_of (_size (this s)) cs k) with
    | Some x => Ok x.2.2 s
    | None => Throw "HashMap: key doesn't exists" s
    end.
Proof.
  intros Hr Hpos. unfold lookup. rewrite (scan_spec s cs) by done.
  destruct (first_with _ _) as [x|] eqn:Hx; simpl; [|done].
  apply first_with_Some in Hx as (pre & post & Hxs & _ & _).
  pose proof (chain_of_lookup s cs k Hr Hpos) as Hc.
  pose proof (repr_chain_linked _ _ _ _ _ Hr Hc) as Hl.
  rewrite Hxs in Hl. apply lseg_app in Hl as [_ Hl].
  erewrite bind_Ok by (by eapply deref_lseg). done.
Qed.

(** ** insert *)

Lemma upsert_split l k v xs :
  xs ≠ [] →
  (∃ pre x post, xs = pre ++ x :: post ∧ Forall (λ y, y.2.1 ≠ k) pre ∧
     x.2.1 = k ∧ upsert l k v xs = pre ++ (x.1, (x.2.1, v)) :: post) ∨
  (∃ pre x, xs = pre ++ [x] ∧ Forall (λ y, y.2.1 ≠ k) xs ∧
     upsert l k v xs = xs ++ [(l, (k, v))]).
Proof.
  induction xs as [|y xs IH]; [done|]. intros _. simpl.
  case_decide as Hy.
  - left. by exists [], y, xs.
  - destruct xs as [|z xs].
    + right. exists [], y. simpl. by repeat constructor.
    + destruct IH as [(pre & x & post & Hxs & Hpre & Hx & Hup)
                     |(pre & x & Hxs & Hall & Hup)]; [done| |].
      * left. exists (y :: pre), x, post. rewrite Hup.
        split; [by rewrite Hxs|]. by repeat constructor.
      * right. exists (y :: pre), x. rewrite Hup.
        split; [by rewrite Hxs|]. split; [by constructor | done].
Qed.

Lemma upsert_head l k v xs :
  xs ≠ [] → head_ptr (upsert l k v xs) = head_ptr xs.
Proof. destruct xs as [|x xs]; [done|]. intros _. simpl. by case_decide. Qed.

Lemma upsert_first_with l k v xs :
  ∃ l', first_with k (upsert l k v xs) = Some (l', (k, v)).
Proof.
  induction xs as [|x xs IH]; simpl.
  - exists l. by rewrite decide_True.
  - case_decide as Hx; simpl.
    + exists x.1. rewrite decide_True by done. by rewrite Hx.
    + by rewrite decide_False.
Qed.

Lemma upsert_first_with_ne l k v k' xs :
  k' ≠ k →
  (λ x, x.2) <$> first_with k' (upsert l k v xs)
  = (λ x, x.2) <$> first_with k' xs.
Proof.
  intros Hne. induction xs as [|x xs IH]; simpl.
  - by rewrite decide_False.
  - case_decide as Hx; simpl.
    + by rewrite !decide_False by congruence.
    + by case_decide.
Qed.

Lemma upsert_locs l k v xs :
  (upsert l k v xs).*1 = xs.*1 ∨ (upsert l k v xs).*1 = xs.*1 ++ [l].
Proof.
  induction xs as [|x xs IH]; csimpl; [by right|].
  case_decide; csimpl; [by left|]. destruct IH as [IH | IH]; rewrite IH; auto.
Qed.

Lemma find_last_eq fuel k tmp :
  find_last (V := V) fuel k tmp =
  (e ← deref (Some tmp);
   match next e with
   | None => mret tmp
   | Some n =>
       if decide (key e = k) then mret tmp
       else match fuel with
            | O => diverges
            | Datatypes.S fuel' => find_last fuel' k n
            end
   end).
Proof. by destruct fuel. Qed.

Lemma find_last_spec fuel k pre x post l0 s :
  linked (mem s) (pre ++ x :: post) →
  Forall (λ y, y.2.1 ≠ k) pre → x.2.1 = k ∨ post = [] →
  (length pre ≤ fuel)%nat →
  head_ptr (pre ++ x :: post) = Some l0 →
  find_last fuel k l0 s = Ok x.1 s.
Proof.
  revert fuel l0.
  induction pre as [|y pre IH]; intros fuel l0 Hl Hpre Hx Hfuel [= <-].
  - rewrite find_last_eq. erewrite bind_Ok by (eapply deref_lseg; exact Hl).
    simpl. destruct post as [|z post]; simpl; [done|].
    destruct Hx as [Hx|]; [|done]. by rewrite decide_True.
  - change (lseg (mem s) (y :: (pre ++ x :: post)) None) in Hl.
    rewrite find_last_eq. erewrite bind_Ok by (eapply deref_lseg; exact Hl).
    cbn [next key value]. apply Forall_cons in Hpre as [Hy Hpre].
    destruct (ptr_to (pre ++ x :: post) None) as [l1|] eqn:Hl1;
      [|by destruct pre].
    rewrite decide_False by done.
    destruct fuel as [|fuel]; simpl in Hfuel; [lia|].
    apply IH; [by destruct Hl|done|done|lia|done].
Qed.

Lemma NoDup_middle (pre post : list (loc * (K * V))) x :
  NoDup (pre ++ x :: post).*1 → (x.1 ∉ pre.*1) ∧ (x.1 ∉ post.*1).
Proof.
  rewrite fmap_app, fmap_cons. intros (_ & Hpre & Hpost)%NoDup_app.
  apply NoDup_cons in Hpost as [? _]. split; [|done].
  intros Hin. eapply Hpre; [done|]. by left.
Qed.

(** The statements of [insert] that follow the test of the bucket, run on a
    chain that is not empty: the scan, then the update in place or the new
    element linked to the last one. *)
Lemma chain_upsert_spec s xs l0 k v :
  linked (mem s) xs → NoDup xs.*1 → head_ptr xs = Some l0 →
  let l := fresh (dom (mem s)) in
  ∃ h',
    (tmp ← with_fuel (λ fuel, find_last fuel k l0);
     e ← deref (Some tmp);
     if decide (key e = k) then store tmp (mkElement (key e) v (next e))
     else
       l ← new_Element k v;
       store tmp (mkElement (key e) (value e) (Some l))) s
    = Ok tt (mkState (this s) h') ∧
    linked h' (upsert l k v xs) ∧
    (∀ l', l' ∉ xs.*1 → l' ≠ l → h' !! l' = mem s !! l') ∧
    dom (mem s) ⊆ dom h' ∧ dom h' ⊆ dom (mem s) ∪ {[l]}.
Proof.
  intros Hl Hnd Hhead l.
  assert (Hfresh : l ∉ dom (mem s)) by apply is_fresh.
  assert (xs ≠ []) as Hne by (by intros ->).
  destruct (upsert_split l k v xs Hne)
    as [(pre & x & post & -> & Hpre & Hx & ->)|(pre & x & -> & Hall & ->)].
  - (* a node with key [k]: its value is replaced *)
    pose proof (NoDup_middle _ _ _ Hnd) as [Hxpre Hxpost].
    pose proof Hl as [Hlpre Hlx]%lseg_app.
    exists (<[x.1 := mkElement x.2.1 v (ptr_to post None)]> (mem s)).
    split; [|split; [|split; [|split]]].
    + erewrite bind_Ok; cycle 1.
      { unfold with_fuel. eapply find_last_spec; eauto.
        pose proof (lseg_length _ _ _ Hl Hnd) as Hlen.
        rewrite length_app in Hlen. lia. }
      erewrite bind_Ok by (eapply deref_lseg; exact Hlx). simpl.
      rewrite decide_True by done.
      unfold store. by destruct Hlx as [-> _].
    + apply lseg_app. split.
      * eapply lseg_frame; [done|]. intros l' Hl'.
        rewrite lookup_insert_ne; [done|]. by intros <-.
      * split; simpl; [by rewrite lookup_insert_eq|].
        destruct Hlx as [_ Hlpost].
        eapply lseg_frame; [done|]. intros l' Hl'.
        rewrite lookup_insert_ne; [done|]. by intros <-.
    + intros l' Hl' _. rewrite lookup_insert_ne; [done|].
      intros <-. apply Hl'. rewrite fmap_app, fmap_cons. set_solver.
    + rewrite dom_insert_L. set_solver.
    + rewrite dom_insert_L. destruct Hlx as [Hx' _].
      apply (elem_of_dom_2 (D := gset loc)) in Hx'. set_solver.
  - (* no node with key [k]: a new element after the last one *)
    pose proof (NoDup_middle _ _ _ Hnd) as [Hxpre _].
    pose proof Hl as [Hlpre Hlx]%lseg_app.
    assert (x.1 ≠ l) as Hxl.
    { intros Heq. apply Hfresh. rewrite <- Heq.
      destruct Hlx as [Hx' _]. by apply elem_of_dom_2 in Hx'. }
    apply Forall_app in Hall as [Hpre [Hx _]%Forall_cons].
    exists (<[x.1 := mkElement x.2.1 x.2.2 (Some l)]>
              (<[l := mkElement k v None]> (mem s))).
    split; [|split; [|split; [|split]]].
    + erewrite bind_Ok; cycle 1.
      { unfold with_fuel. eapply find_last_spec; eauto.
        pose proof (lseg_length _ _ _ Hl Hnd) as Hlen.
        rewrite length_app in Hlen. lia. }
      erewrite bind_Ok by (eapply deref_lseg; exact Hlx). simpl.
      rewrite decide_False by done.
      erewrite bind_Ok by done. fold l.
      unfold store, set_mem. simpl. rewrite lookup_insert_ne by done.
      by destruct Hlx as [-> _].
    + rewrite <- app_assoc. apply lseg_app. split.
      * eapply lseg_frame; [done|]. intros l' Hl'.
        rewrite !lookup_insert_ne; [done| |].
        -- intros Heq. apply Hfresh. rewrite Heq.
           eapply lseg_dom; [exact Hlpre | done].
        -- by intros <-.
      * simpl. rewrite lookup_insert_eq, lookup_insert_ne, lookup_insert_eq by done.
        done.
    + intros l' Hl' Hl'l. rewrite !lookup_insert_ne; [done|done|].
      intros <-. apply Hl'. rewrite fmap_app. set_solver.
    + rewrite !dom_insert_L. set_solver.
    + rewrite !dom_insert_L. destruct Hlx as [Hx' _].
      apply (elem_of_dom_2 (D := gset loc)) in Hx'. set_solver.
Qed.

(** Replacing chain [i] by [ys], built from elements of the old chain and
    from new ones, in a store that agrees with the old one elsewhere. *)
Lemma repr_update h h' t t' cs i xs ys :
  table_repr h t cs → cs !! i = Some xs →
  _size t' = _size t → _mutexes t' = _mutexes t →
  _table t' = Array (<[i := Val (head_ptr ys)]> ((λ xs, Val (head_ptr xs)) <$> cs)) →
  linked h' ys → NoDup ys.*1 →
  (∀ l, l ∈ ys.*1 → l ∈ xs.*1 ∨ l ∉ dom h) →
  (∀ l, l ∈ dom h → l ∉ xs.*1 → h' !! l = h !! l) →
  table_repr h' t' (<[i := ys]> cs).
Proof.
  intros Hr Hxs Hsize Hmut Htab Hl Hnd Hnew Hframe.
  pose proof (repr_separate _ _ _ Hr) as [Hsep1 Hsep2].
  assert (Hold : ∀ j zs l, cs !! j = Some zs → l ∈ zs.*1 → l ∈ dom h).
  { intros j zs l Hzs. eapply lseg_dom. by eapply repr_chain_linked. }
  split.
  - rewrite Hsize. by eapply repr_size.
  - rewrite length_insert, Hsize. by eapply repr_length.
  - by rewrite Htab, list_fmap_insert.
  - rewrite length_insert, Hmut. by eapply repr_mutexes.
  - apply Forall_lookup. intros j zs [(-> & -> & _)|[Hne Hzs]]%list_lookup_insert_Some;
      [done|].
    eapply lseg_frame; [by eapply repr_chain_linked|].
    intros l Hlz. apply Hframe; [by eapply Hold|].
    intros Hlx. by destruct (Hsep2 _ _ _ _ _ Hxs Hzs Hlx Hlz).
  - split.
    + intros j zs [(-> & -> & _)|[Hne Hzs]]%list_lookup_insert_Some; eauto.
    + intros j1 j2 zs1 zs2 l
        [(-> & -> & _)|[Hne1 Hzs1]]%list_lookup_insert_Some
        [(-> & -> & _)|[Hne2 Hzs2]]%list_lookup_insert_Some Hl1 Hl2; [done| | |].
      * destruct (Hnew _ Hl1) as [Hlx|Hfr]; [by eauto|].
        destruct Hfr. by eapply Hold.
      * destruct (Hnew _ Hl2) as [Hlx|Hfr]; [symmetry; by eauto|].
        destruct Hfr. by eapply Hold.
      * by eauto.
Qed.

Lemma insert_spec s cs k v :
  repr s cs → 0 < _size (this s) →
  let n := _size (this s) in
  let l := fresh (dom (mem s)) in
  ∃ s',
    insert k v s = Ok tt s' ∧
    repr s' (<[N.to_nat (index n k) := upsert l k v (chain_of n cs k)]> cs) ∧
    _size (this s') = n ∧
    (∀ l', l' ∉ (chain_of n cs k).*1 → l' ≠ l → mem s' !! l' = mem s !! l') ∧
    dom (mem s) ⊆ dom (mem s') ∧ dom (mem s') ⊆ dom (mem s) ∪ {[l]}.
Proof.
  intros Hr Hpos n l.
  pose proof (chain_of_lookup s cs k Hr Hpos) as Hxs. fold n in Hxs.
  pose proof (repr_chain_linked _ _ _ _ _ Hr Hxs) as Hl.
  pose proof (repr_chain_NoDup _ _ _ _ _ Hr Hxs) as Hnd.
  assert (Hfresh : l ∉ dom (mem s)) by apply is_fresh.
  assert (Hnew : ∀ l', l' ∈ (upsert l k v (chain_of n cs k)).*1 →
                       l' ∈ (chain_of n cs k).*1 ∨ l' ∉ dom (mem s)).
  { intros l'. destruct (upsert_locs l k v (chain_of n cs k)) as [-> | ->];
      [by left|]. intros [?| ->%list_elem_of_singleton]%elem_of_app; auto. }
  assert (Hnd' : NoDup (upsert l k v (chain_of n cs k)).*1).
  { destruct (upsert_locs l k v (chain_of n cs k)) as [-> | ->]; [done|].
    apply NoDup_app. split; [done|]. split; [|apply NoDup_singleton].
    intros l' Hl' ->%list_elem_of_singleton. apply Hfresh.
    eapply lseg_dom; [exact Hl | done]. }
  unfold insert.
  erewrite bind_Ok by (by eapply hash_repr).
  erewrite bind_Ok by (eapply lock_guard_repr; [done | by apply index_lt]).
  erewrite bind_Ok by (by eapply read_bucket_repr). fold n.
  destruct (chain_of n cs k) as [|x xs] eqn:Hc.
  - (* empty bucket *)
    cbn [head_ptr ptr_to]. erewrite bind_Ok by done. fold l.
    unfold write_bucket, set_mem, set_this, assign. cbn [this mem].
    rewrite (repr_table _ _ _ Hr), decide_True; cycle 1.
    { rewrite length_fmap. by eapply lookup_lt_Some. }
    eexists. split; [done|]. cbn [this mem _size].
    split; [|split; [done|split; [|split]]].
    + unfold repr. cbn [this mem]. eapply repr_update; try done.
      * split; [|done]. cbn [fst snd ptr_to]. by rewrite lookup_insert_eq.
      * intros l' Hl' _. rewrite lookup_insert_ne; [done|]. by intros <-.
    + intros l' _ Hl'. by rewrite lookup_insert_ne.
    + rewrite dom_insert_L. set_solver.
    + rewrite dom_insert_L. set_solver.
  - (* a chain: scan it *)
    rewrite <- Hc in *.
    destruct (chain_upsert_spec s (chain_of n cs k) x.1 k v Hl Hnd)
      as (h' & Hrun & Hl' & Hframe & Hdom1 & Hdom2); [by rewrite Hc|].
    replace (head_ptr (chain_of n cs k)) with (Some x.1) by (by rewrite Hc).
    cbn beta iota. rewrite Hrun.
    eexists. split; [done|]. cbn [this mem].
    split; [|split; [done|split; [|split]]]; try done.
    eapply repr_update; try done.
    + rewrite upsert_head by (by rewrite Hc).
      rewrite list_insert_id; [by eapply repr_table|].
      by rewrite list_lookup_fmap, Hxs.
    + intros l' Hd Hl'c. apply Hframe; [done|]. by intros ->.
Qed.

(** ** remove *)

Lemma ptr_last_cons y pre q : ptr_last (y :: pre) q = ptr_last pre (Some y.1).
Proof. unfold ptr_last. rewrite last_cons. by destruct (last pre). Qed.

Lemma remove_first_app k pre x post :
  Forall (λ y, y.2.1 ≠ k) pre → x.2.1 = k →
  remove_first k (pre ++ x :: post) = pre ++ post.
Proof.
  intros Hpre Hx. induction Hpre as [|y pre Hy _ IH]; simpl.
  - by rewrite decide_True.
  - by rewrite decide_False, IH.
Qed.

Lemma remove_first_None k xs :
  first_with k xs = None → remove_first k xs = xs.
Proof.
  induction xs as [|y xs IH]; simpl; [done|].
  case_decide; [done|]. intros ?. by rewrite IH.
Qed.

Lemma find_prev_eq fuel k prev tmp :
  find_prev (V := V) fuel k prev tmp =
  match tmp with
  | None => mret (prev, None)
  | Some _ =>
      e ← deref tmp;
      if decide (key e = k) then mret (prev, tmp)
      else match fuel with
           | O => diverges
           | Datatypes.S fuel' => find_prev fuel' k tmp (next e)
           end
  end.
Proof. by destruct fuel. Qed.

Lemma find_prev_found fuel k pre x post prev s :
  linked (mem s) (pre ++ x :: post) →
  Forall (λ y, y.2.1 ≠ k) pre → x.2.1 = k → (length pre ≤ fuel)%nat →
  find_prev fuel k prev (head_ptr (pre ++ x :: post)) s
  = Ok (ptr_last pre prev, Some x.1) s.
Proof.
  revert fuel prev.
  induction pre as [|y pre IH]; intros fuel prev Hl Hpre Hx Hfuel.
  - rewrite find_prev_eq. cbn [app head_ptr ptr_to].
    erewrite bind_Ok by (eapply deref_lseg; exact Hl).
    cbn [next key value]. by rewrite decide_True.
  - change (lseg (mem s) (y :: (pre ++ x :: post)) None) in Hl.
    rewrite find_prev_eq. cbn [app head_ptr ptr_to].
    erewrite bind_Ok by (eapply deref_lseg; exact Hl).
    cbn [next key value]. apply Forall_cons in Hpre as [Hy Hpre].
    rewrite decide_False by done.
    destruct fuel as [|fuel]; simpl in Hfuel; [lia|].
    rewrite ptr_last_cons. apply IH; [by destruct Hl|done|done|lia].
Qed.

Lemma find_prev_absent fuel k xs prev s :
  linked (mem s) xs → Forall (λ y, y.2.1 ≠ k) xs → (length xs ≤ fuel)%nat →
  find_prev fuel k prev (head_ptr xs) s = Ok (ptr_last xs prev, None) s.
Proof.
  revert fuel prev.
  induction xs as [|y xs IH]; intros fuel prev Hl Hxs Hfuel.
  - by rewrite find_prev_eq.
  - rewrite find_prev_eq. cbn [head_ptr ptr_to].
    erewrite bind_Ok by (eapply deref_lseg; exact Hl).
    cbn [next key value]. apply Forall_cons in Hxs as [Hy Hxs].
    rewrite decide_False by done.
    destruct fuel as [|fuel]; simpl in Hfuel; [lia|].
    rewrite ptr_last_cons. apply IH; [by destruct Hl|done|lia].
Qed.

Lemma NoDup_remove_middle (pre post : list (loc * (K * V))) x :
  NoDup (pre ++ x :: post).*1 → NoDup (pre ++ post).*1.
Proof.
  rewrite !fmap_app, fmap_cons. intros (Hpre & Hdisj & Hpost)%NoDup_app.
  apply NoDup_cons in Hpost as [_ Hpost].
  apply NoDup_app. split; [done|]. split; [|done].
  intros l Hl1 Hl2. eapply Hdisj; [done|]. by right.
Qed.

Lemma remove_spec s cs k :
  repr s cs → 0 < _size (this s) →
  let n := _size (this s) in
  match first_with k (chain_of n cs k) with
  | None => remove k s = Throw "HashMap: key doesn't exists" s
  | Some x =>
      ∃ s',
        remove k s = Ok tt s' ∧
        repr s' (<[N.to_nat (index n k) := remove_first k (chain_of n cs k)]> cs) ∧
        _size (this s') = n ∧
        _mutexes (this s') = _mutexes (this s) ∧
        mem s' !! x.1 = None ∧
        (∀ l', l' ∉ (chain_of n cs k).*1 → mem s' !! l' = mem s !! l') ∧
        dom (mem s') ⊆ dom (mem s)
  end.
Proof.
  intros Hr Hpos n.
  pose proof (chain_of_lookup s cs k Hr Hpos) as Hxs. fold n in Hxs.
  pose proof (repr_chain_linked _ _ _ _ _ Hr Hxs) as Hl.
  pose proof (repr_chain_NoDup _ _ _ _ _ Hr Hxs) as Hnd.
  pose proof (repr_chain_fuel _ _ _ _ _ Hr Hxs) as Hfuel.
  unfold remove.
  erewrite bind_Ok by (by eapply hash_repr).
  erewrite bind_Ok by (eapply lock_guard_repr; [done | by apply index_lt]).
  erewrite bind_Ok by (by eapply read_bucket_repr). fold n.
  destruct (first_with k (chain_of n cs k)) as [x|] eqn:Hfw.
  - apply first_with_Some in Hfw as (pre & post & Hc & Hpre & Hx).
    rewrite Hc in *.
    erewrite bind_Ok; cycle 1.
    { unfold with_fuel. eapply find_prev_found; eauto.
      rewrite length_app in Hfuel. lia. }
    pose proof (NoDup_middle _ _ _ Hnd) as [Hxpre Hxpost].
    pose proof (NoDup_remove_middle _ _ _ Hnd) as Hnd'.
    pose proof Hl as [Hlpre Hlx]%lseg_app.
    cbn beta iota.
    erewrite bind_Ok by (eapply deref_lseg; exact Hlx). cbn [next key value].
    rewrite remove_first_app by done.
    assert (Hlpost : lseg (mem s) post None) by (by destruct Hlx).
    destruct pre as [|p pre _] using rev_ind.
    + (* the head of the chain: the bucket takes its successor *)
      cbn [ptr_last last app] in *.
      erewrite bind_Ok; cycle 1.
      { eapply write_bucket_repr; [done|]. by eapply lookup_lt_Some. }
      unfold delete_Element, set_this, set_mem. cbn [this mem].
      destruct Hlx as [-> _].
      eexists. split; [done|]. cbn [this mem _size _mutexes].
      split; [|split; [done|split; [done|split; [|split]]]].
      * unfold repr. cbn [this mem]. eapply repr_update; try done.
        -- eapply lseg_frame; [exact Hlpost|]. intros l' Hl'.
           rewrite lookup_delete_ne; [done|]. by intros <-.
        -- intros l' Hl'. left. rewrite fmap_cons. set_solver.
        -- intros l' _ Hl'. rewrite lookup_delete_ne; [done|].
           intros <-. apply Hl'. rewrite fmap_cons. set_solver.
      * by rewrite lookup_delete_eq.
      * intros l' Hl'. rewrite lookup_delete_ne; [done|].
        intros <-. apply Hl'. rewrite fmap_cons. set_solver.
      * rewrite dom_delete_L. set_solver.
    + (* inside the chain: the previous element takes its successor *)
      unfold ptr_last. rewrite last_snoc.
      apply lseg_app in Hlpre as [Hlpre Hlp].
      assert (p.1 ≠ x.1) as Hpx.
      { intros Heq. apply Hxpre. rewrite fmap_app, <- Heq. set_solver. }
      assert (NoDup ((pre ++ [p]) ++ x :: post).*1) as Hnd0 by done.
      rewrite <- app_assoc in Hnd0.
      pose proof (NoDup_middle _ _ _ Hnd0) as [Hppre Hppost].
      erewrite bind_Ok; cycle 1.
      { erewrite bind_Ok by (eapply deref_lseg; exact Hlp). cbn [next key value].
        unfold store. destruct Hlp as [-> _]. done. }
      unfold delete_Element, set_mem. cbn [this mem].
      rewrite lookup_insert_ne by done. destruct Hlx as [-> _].
      eexists. split; [done|]. cbn [this mem].
      split; [|split; [done|split; [done|split; [|split]]]].
      * unfold repr. cbn [this mem]. eapply repr_update; try done.
        -- rewrite list_insert_id; [by eapply repr_table|].
           rewrite list_lookup_fmap, Hxs. cbn. f_equal. f_equal.
           unfold head_ptr. rewrite <- !app_assoc. by rewrite !ptr_to_app.
        -- rewrite <- app_assoc. apply lseg_app. split.
           ++ eapply lseg_frame; [exact Hlpre|]. intros l' Hl'.
              rewrite lookup_delete_ne, lookup_insert_ne; [done| |].
              ** intros <-. apply Hppre. done.
              ** intros <-. apply Hxpre. rewrite fmap_app. set_solver.
           ++ split.
              ** rewrite lookup_delete_ne, lookup_insert_eq by done. done.
              ** eapply lseg_frame; [exact Hlpost|]. intros l' Hl'.
                 rewrite lookup_delete_ne, lookup_insert_ne; [done| |].
                 --- intros <-. apply Hppost. simpl. set_solver.
                 --- by intros <-.
        -- intros l' Hl'. left. rewrite !fmap_app in *. rewrite fmap_cons. set_solver.
        -- intros l' _ Hl'. rewrite lookup_delete_ne, lookup_insert_ne; [done| |].
           ++ intros <-. apply Hl'. rewrite !fmap_app. set_solver.
           ++ intros <-. apply Hl'. rewrite !fmap_app, fmap_cons. set_solver.
      * by rewrite lookup_delete_eq.
      * intros l' Hl'. rewrite lookup_delete_ne, lookup_insert_ne; [done| |].
        -- intros <-. apply Hl'. rewrite !fmap_app. set_solver.
        -- intros <-. apply Hl'. rewrite !fmap_app, fmap_cons. set_solver.
      * rewrite dom_delete_L, dom_insert_L. destruct Hlp as [Hp' _].
        apply (elem_of_dom_2 (D := gset loc)) in Hp'. set_solver.
  - apply first_with_None in Hfw.
    erewrite bind_Ok; cycle 1.
    { unfold with_fuel. by eapply find_prev_absent. }
    done.
Qed.

(** ** Sized construction *)

Lemma insert_replicate_next {A} (x y : A) (a k : nat) :
  <[a := x]> (replicate a x ++ replicate (S k) y)
  = replicate (S a) x ++ replicate k y.
Proof.
  rewrite insert_app_r_alt by (rewrite length_replicate; lia).
  rewrite length_replicate, Nat.sub_diag. cbn [replicate].
  change (<[0%nat:=x]> (y :: replicate k y)) with (x :: replicate k y).
  by rewrite (replicate_cons_app a), <- app_assoc.
Qed.

Lemma new_mutex_loop (k a : nat) n tab h :
  for_from k (N.of_nat a) (λ i _, new_mutex i) tt
    (mkState
       (mkHashMap n tab
          (Array (replicate a (Val unlocked) ++ replicate k Indeterminate))) h)
  = Ok tt (mkState (mkHashMap n tab (Array (replicate (a + k) (Val unlocked)))) h).
Proof.
  revert a. induction k as [|k IH]; intros a.
  - cbn [for_from]. by rewrite app_nil_r, Nat.add_0_r.
  - cbn [for_from]. erewrite bind_Ok; cycle 1.
    { unfold new_mutex, assign, set_this. cbn [this mem _mutexes _size _table].
      rewrite Nat2N.id, decide_True; cycle 1.
      { rewrite length_app, !length_replicate. lia. }
      by rewrite insert_replicate_next. }
    rewrite <- Nat2N.inj_succ.
    replace (a + S k)%nat with (S a + k)%nat by lia. apply IH.
Qed.

Lemma null_bucket_loop (k a : nat) n h :
  for_from k (N.of_nat a) (λ i _, lock_guard i ;; write_bucket i None) tt
    (mkState
       (mkHashMap n
          (Array (replicate a (Val None) ++ replicate k Indeterminate))
          (Array (replicate (a + k) (Val unlocked)))) h)
  = Ok tt (mkState
             (mkHashMap n (Array (replicate (a + k) (Val None)))
                (Array (replicate (a + k) (Val unlocked)))) h).
Proof.
  revert a. induction k as [|k IH]; intros a.
  - cbn [for_from]. by rewrite app_nil_r, Nat.add_0_r.
  - cbn [for_from]. erewrite bind_Ok; cycle 1.
    { erewrite bind_Ok; cycle 1.
      { unfold lock_guard, lock_of, load. cbn [this _mutexes].
        rewrite Nat2N.id, lookup_replicate_2 by lia. done. }
      unfold write_bucket, assign, set_this. cbn [this mem _mutexes _size _table].
      rewrite Nat2N.id, decide_True; cycle 1.
      { rewrite length_app, !length_replicate. lia. }
      by rewrite insert_replicate_next. }
    rewrite <- Nat2N.inj_succ.
    replace (a + S k)%nat with (S a + k)%nat by lia. apply IH.
Qed.

Lemma allocate_spec n t0 h :
  n < 2 ^ 32 →
  allocateTableAndMutexes n (mkState t0 h) = Ok tt (mkState (empty_table n) h).
Proof.
  intros Hn. unfold allocateTableAndMutexes.
  erewrite bind_Ok by done. erewrite bind_Ok by done.
  unfold set_this. cbn [this mem _size].
  erewrite bind_Ok; cycle 1.
  { unfold for_unsigned. rewrite decide_True by done.
    apply (new_mutex_loop (N.to_nat n) 0). }
  erewrite bind_Ok by done. cbn [this mem _size].
  unfold for_unsigned. rewrite decide_True by done.
  apply (null_bucket_loop (N.to_nat n) 0).
Qed.

Lemma allocate_too_large n s :
  2 ^ 32 ≤ n → allocateTableAndMutexes n s = Diverges.
Proof.
  intros Hn. unfold allocateTableAndMutexes.
  erewrite bind_Ok by done. erewrite bind_Ok by done.
  unfold for_unsigned. cbn [this set_this _size]. by rewrite decide_False by lia.
Qed.

Lemma empty_table_repr n h :
  n < 2 ^ 32 → table_repr h (empty_table n) (replicate (N.to_nat n) []).
Proof.
  intros Hn. split; cbn [empty_table _size _table _mutexes].
  - done.
  - rewrite length_replicate. lia.
  - by rewrite fmap_replicate.
  - by rewrite length_replicate.
  - by apply Forall_replicate.
  - split.
    + intros i xs [-> _]%lookup_replicate. constructor.
    + intros i j xs zs l [-> _]%lookup_replicate _ Hl. by apply elem_of_nil in Hl.
Qed.

Lemma HashMap_sized_spec n h :
  n < 2 ^ 32 →
  HashMap_sized n h = Ok tt (mkState (empty_table n) h) ∧
  repr (mkState (empty_table n) h) (replicate (N.to_nat n) []).
Proof.
  intros Hn. split; [by apply allocate_spec | by apply empty_table_repr].
Qed.

(** ** The table as a finite map *)

Lemma lookup_content s cs k :
  repr s cs → 0 < _size (this s) →
  lookup k s
  = match content (_size (this s)) cs k with
    | Some v => Ok v s
    | None => Throw "HashMap: key doesn't exists" s
    end.
Proof.
  intros Hr Hpos. rewrite (lookup_spec s cs) by done. unfold content.
  by destruct (first_with _ _).
Qed.

Lemma exists_content s cs k :
  repr s cs → 0 < _size (this s) →
  exists_ k s = Ok (bool_decide (is_Some (content (_size (this s)) cs k))) s.
Proof.
  intros Hr Hpos. rewrite (exists_spec s cs) by done. f_equal.
  apply bool_decide_ext. unfold content. by rewrite fmap_is_Some.
Qed.

Lemma chain_of_insert n cs k ys k' :
  (N.to_nat (index n k) < length cs)%nat →
  chain_of n (<[N.to_nat (index n k) := ys]> cs) k'
  = if decide (index n k' = index n k) then ys else chain_of n cs k'.
Proof.
  intros Hlt. unfold chain_of. case_decide as Hi.
  - rewrite Hi. by apply list_lookup_total_insert_eq.
  - apply list_lookup_total_insert_ne. intros Heq. apply Hi. lia.
Qed.

Lemma first_with_remove_first_ne k k' xs :
  k' ≠ k → first_with k' (remove_first k xs) = first_with k' xs.
Proof.
  intros Hne. induction xs as [|x xs IH]; simpl; [done|].
  case_decide as Hx; simpl.
  - by rewrite decide_False by congruence.
  - by rewrite IH.
Qed.

Lemma first_with_remove_first_eq k xs :
  NoDup xs.*2.*1 → first_with k (remove_first k xs) = None.
Proof.
  induction xs as [|x xs IH]; csimpl; [done|].
  intros [Hx Hxs]%NoDup_cons. case_decide as Hk; simpl.
  - apply first_with_None, Forall_forall. intros y Hy Hyk. apply Hx.
    rewrite Hk, <- Hyk. apply list_elem_of_fmap. exists y.2. split; [done|].
    apply list_elem_of_fmap. by exists y.
  - rewrite decide_False by done. by apply IH.
Qed.

Lemma content_insert n cs l k v k' :
  (N.to_nat (index n k) < length cs)%nat →
  content n (<[N.to_nat (index n k) := upsert l k v (chain_of n cs k)]> cs) k'
  = if decide (k' = k) then Some v else content n cs k'.
Proof.
  intros Hlt. unfold content. rewrite chain_of_insert by done.
  destruct (decide (k' = k)) as [->|Hk].
  - rewrite decide_True by done.
    by destruct (upsert_first_with l k v (chain_of n cs k)) as [l' ->].
  - case_decide as Hi; [|done].
    pose proof (upsert_first_with_ne l k v k' (chain_of n cs k) Hk) as Hfw.
    assert (chain_of n cs k' = chain_of n cs k) as -> by (unfold chain_of; by rewrite Hi).
    destruct (first_with k' (upsert _ _ _ _)), (first_with k' (chain_of n cs k));
      simplify_eq/=; congruence.
Qed.

Lemma content_remove_ne n cs k k' :
  (N.to_nat (index n k) < length cs)%nat → k' ≠ k →
  content n (<[N.to_nat (index n k) := remove_first k (chain_of n cs k)]> cs) k'
  = content n cs k'.
Proof.
  intros Hlt Hk. unfold content. rewrite chain_of_insert by done.
  case_decide as Hi; [|done].
  rewrite first_with_remove_first_ne by done.
  unfold chain_of. by rewrite Hi.
Qed.

Lemma content_remove_eq n cs k :
  (N.to_nat (index n k) < length cs)%nat → unique_keys cs →
  content n (<[N.to_nat (index n k) := remove_first k (chain_of n cs k)]> cs) k
  = None.
Proof.
  intros Hlt Hu. unfold content. rewrite chain_of_insert, decide_True by done.
  rewrite first_with_remove_first_eq; [done|].
  destruct (lookup_lt_is_Some_2 _ _ Hlt) as [xs Hxs].
  unfold chain_of. rewrite (list_lookup_total_correct _ _ _ Hxs).
  by eapply (Forall_lookup_1 _ _ _ _ Hu).
Qed.

Lemma index_in_range s cs k :
  repr s cs → 0 < _size (this s) →
  (N.to_nat (index (_size (this s)) k) < length cs)%nat.
Proof.
  intros Hr Hpos. eapply lookup_lt_Some. by eapply chain_of_lookup.
Qed.

(** ** The invariants of the data model under insert and remove *)

Lemma upsert_elem l k v xs y :
  y ∈ upsert l k v xs → y.2.1 = k ∨ y ∈ xs.
Proof.
  induction xs as [|x xs IH]; simpl.
  - intros ->%list_elem_of_singleton. by left.
  - case_decide as Hx.
    + intros [->|Hy]%elem_of_cons; [by left|]. right. by right.
    + intros [->|Hy]%elem_of_cons; [right; by left|].
      destruct (IH Hy); [by left|]. right. by right.
Qed.

Lemma upsert_keys l k v xs :
  (upsert l k v xs).*2.*1
  = match first_with k xs with
    | Some _ => xs.*2.*1
    | None => xs.*2.*1 ++ [k]
    end.
Proof.
  induction xs as [|x xs IH]; csimpl; [done|].
  case_decide as Hx; csimpl; [done|]. rewrite IH. by destruct (first_with k xs).
Qed.

Lemma upsert_unique l k v xs :
  NoDup xs.*2.*1 → NoDup (upsert l k v xs).*2.*1.
Proof.
  intros Hnd. rewrite upsert_keys.
  destruct (first_with k xs) eqn:Hfw; [done|].
  apply NoDup_app. split; [done|]. split; [|apply NoDup_singleton].
  intros k' Hk' ->%list_elem_of_singleton.
  apply first_with_elem in Hk'. rewrite Hfw in Hk'. by destruct Hk'.
Qed.

Lemma remove_first_elem k xs y : y ∈ remove_first k xs → y ∈ xs.
Proof.
  induction xs as [|x xs IH]; simpl; [done|].
  case_decide.
  - by right.
  - intros [->|Hy]%elem_of_cons; [by left|]. right. by apply IH.
Qed.

Lemma remove_first_sublist k xs : remove_first k xs `sublist_of` xs.
Proof.
  induction xs as [|x xs IH]; simpl; [done|].
  case_decide; [by apply sublist_cons | by apply sublist_skip].
Qed.

Lemma remove_first_unique k xs :
  NoDup xs.*2.*1 → NoDup (remove_first k xs).*2.*1.
Proof.
  intros Hnd. eapply sublist_NoDup; [exact Hnd|].
  do 2 apply fmap_sublist. apply remove_first_sublist.
Qed.

Lemma placed_insert n cs i ys :
  placed n cs → (∀ y, y ∈ ys → index n y.2.1 = N.of_nat i) →
  placed n (<[i := ys]> cs).
Proof.
  intros Hp Hys j zs y [(-> & -> & _)|[Hne Hzs]]%list_lookup_insert_Some Hy.
  - by apply Hys.
  - by eapply Hp.
Qed.

Lemma unique_keys_insert cs i ys :
  unique_keys cs → NoDup ys.*2.*1 → unique_keys (<[i := ys]> cs).
Proof. intros Hu Hys. by apply Forall_insert. Qed.

Lemma placed_chain_of n cs k y :
  placed n cs → (N.to_nat (index n k) < length cs)%nat →
  y ∈ chain_of n cs k → index n y.2.1 = index n k.
Proof.
  intros Hp Hlt Hy. destruct (lookup_lt_is_Some_2 _ _ Hlt) as [xs Hxs].
  unfold chain_of in Hy. rewrite (list_lookup_total_correct _ _ _ Hxs) in Hy.
  rewrite (Hp _ _ _ Hxs Hy). lia.
Qed.

Lemma placed_upsert n cs l k v :
  placed n cs → (N.to_nat (index n k) < length cs)%nat →
  placed n (<[N.to_nat (index n k) := upsert l k v (chain_of n cs k)]> cs).
Proof.
  intros Hp Hlt. apply placed_insert; [done|].
  intros y [->|Hy]%upsert_elem; [lia|].
  rewrite (placed_chain_of n cs k y) by done. lia.
Qed.

Lemma placed_remove_first n cs k :
  placed n cs → (N.to_nat (index n k) < length cs)%nat →
  placed n (<[N.to_nat (index n k) := remove_first k (chain_of n cs k)]> cs).
Proof.
  intros Hp Hlt. apply placed_insert; [done|].
  intros y Hy%remove_first_elem.
  rewrite (placed_chain_of n cs k y) by done. lia.
Qed.

Lemma unique_keys_chain_of n cs k :
  unique_keys cs → NoDup (chain_of n cs k).*2.*1.
Proof.
  intros Hu. unfold chain_of.
  destruct (cs !! N.to_nat (index n k)) as [xs|] eqn:Hxs.
  - rewrite (list_lookup_total_correct _ _ _ Hxs).
    by eapply (Forall_lookup_1 _ _ _ _ Hu).
  - rewrite list_lookup_total_alt, Hxs. constructor.
Qed.

Lemma unique_keys_upsert n cs l k v :
  unique_keys cs →
  unique_keys (<[N.to_nat (index n k) := upsert l k v (chain_of n cs k)]> cs).
Proof.
  intros Hu. apply unique_keys_insert; [done|].
  by apply upsert_unique, unique_keys_chain_of.
Qed.

Lemma unique_keys_remove_first n cs k :
  unique_keys cs →
  unique_keys (<[N.to_nat (index n k) := remove_first k (chain_of n cs k)]> cs).
Proof.
  intros Hu. apply unique_keys_insert; [done|].
  by apply remove_first_unique, unique_keys_chain_of.
Qed.

Lemma chain_of_entries n cs k y :
  y ∈ chain_of n cs k → y.2 ∈ entries cs.
Proof.
  unfold chain_of, entries. intros Hy.
  destruct (cs !! N.to_nat (index n k)) as [xs|] eqn:Hxs.
  - rewrite (list_lookup_total_correct _ _ _ Hxs) in Hy.
    apply list_elem_of_fmap. exists y. split; [done|].
    apply list_elem_of_join. exists xs. split; [done|].
    by eapply list_elem_of_lookup_2.
  - rewrite list_lookup_total_alt, Hxs in Hy. by apply elem_of_nil in Hy.
Qed.

Lemma content_absent n cs k :
  k ∉ (entries cs).*1 → content n cs k = None.
Proof.
  intros Hk. unfold content.
  destruct (first_with k (chain_of n cs k)) as [x|] eqn:Hfw; [|done].
  destruct Hk. apply first_with_Some in Hfw as (pre & post & Hc & _ & <-).
  apply list_elem_of_fmap. exists x.2. split; [done|].
  apply (chain_of_entries n cs x.2.1). rewrite Hc. set_solver.
Qed.

Lemma content_present s cs k :
  repr s cs → 0 < _size (this s) → placed (_size (this s)) cs →
  k ∈ (entries cs).*1 → is_Some (content (_size (this s)) cs k).
Proof.
  intros Hr Hpos Hp Hk. unfold content. rewrite fmap_is_Some.
  apply first_with_elem.
  apply list_elem_of_fmap in Hk as (kv & -> & Hkv).
  apply list_elem_of_fmap in Hkv as (x & -> & Hx).
  apply list_elem_of_join in Hx as (xs & Hx & Hxs).
  apply list_elem_of_lookup in Hxs as [i Hi].
  pose proof (Hp _ _ _ Hi Hx) as Hidx.
  unfold chain_of. rewrite Hidx, Nat2N.id.
  rewrite (list_lookup_total_correct _ _ _ Hi).
  apply list_elem_of_fmap. exists x.2. split; [done|].
  apply list_elem_of_fmap. by exists x.
Qed.

(** ** Specification claims about insert, lookup, exists and remove *)

Lemma run_keeps s cs k v ops :
  repr s cs → 0 < _size (this s) →
  content (_size (this s)) cs k = Some v → Forall (keeps k) ops →
  ∃ s2 cs2, run ops s = Ok tt s2 ∧ repr s2 cs2 ∧
            _size (this s2) = _size (this s) ∧
            content (_size (this s)) cs2 k = Some v.
Proof.
  intros Hr Hpos Hc Hops. revert s cs Hr Hpos Hc.
  induction Hops as [|o ops Ho _ IH]; intros s cs Hr Hpos Hc.
  - by exists s, cs.
  - pose proof (index_in_range s cs) as Hlt.
    destruct o as [k' v'|k'|m]; [| |done]; cbn [run apply_op]; simpl in Ho.
    + destruct (insert_spec s cs k' v' Hr Hpos) as (s1 & -> & Hr1 & Hsz & _).
      destruct (IH s1 _ Hr1) as (s2 & cs2 & ? & ? & ? & ?).
      * by rewrite Hsz.
      * rewrite Hsz, content_insert by eauto. by rewrite decide_False.
      * exists s2, cs2. rewrite <- Hsz. split_and!; (done || congruence).
    + pose proof (remove_spec s cs k' Hr Hpos) as Hrm. cbn zeta in Hrm.
      destruct (first_with k' _).
      * destruct Hrm as (s1 & -> & Hr1 & Hsz & _).
        destruct (IH s1 _ Hr1) as (s2 & cs2 & ? & ? & ? & ?).
        -- by rewrite Hsz.
        -- rewrite Hsz, content_remove_ne by eauto. done.
        -- exists s2, cs2. rewrite <- Hsz. split_and!; (done || congruence).
      * rewrite Hrm. by apply (IH s cs).
Qed.

(** C1: on a table with capacity > 0, after [insert(k, v)] and any further
    calls that neither remove nor overwrite [k], [lookup(k)] returns [v] and
    [exists(k)] returns true. *)
Theorem insert_then_lookup s cs k v ops :
  repr s cs → 0 < _size (this s) → Forall (keeps k) ops →
  ∃ s1 s2, insert k v s = Ok tt s1 ∧ run ops s1 = Ok tt s2 ∧
           lookup k s2 = Ok v s2 ∧ exists_ k s2 = Ok true s2.
Proof.
  intros Hr Hpos Hops.
  destruct (insert_spec s cs k v Hr Hpos) as (s1 & Hins & Hr1 & Hsz & _).
  destruct (run_keeps s1 _ k v ops Hr1) as (s2 & cs2 & Hrun & Hr2 & Hsz2 & Hc).
  - by rewrite Hsz.
  - rewrite Hsz, content_insert by (by eapply index_in_range).
    by rewrite decide_True.
  - done.
  - exists s1, s2. rewrite Hsz in Hsz2. rewrite Hsz, <- Hsz2 in Hc.
    split_and!; [done|done| |].
    + rewrite (lookup_content s2 cs2), Hc by (done || lia). done.
    + rewrite (exists_content s2 cs2), Hc by (done || lia).
      by rewrite bool_decide_eq_true_2.
Qed.

Lemma upsert_cases l k v xs :
  (∃ pre x post, xs = pre ++ x :: post ∧ Forall (λ y, y.2.1 ≠ k) pre ∧
     x.2.1 = k ∧ upsert l k v xs = pre ++ (x.1, (k, v)) :: post) ∨
  (Forall (λ y, y.2.1 ≠ k) xs ∧ upsert l k v xs = xs ++ [(l, (k, v))]).
Proof.
  destruct xs as [|x0 xs0]; [by right|].
  destruct (upsert_split l k v (x0 :: xs0))
    as [(pre & x & post & ? & ? & Hx & ?)|(pre & x & ? & ? & ?)]; [done| |].
  - left. exists pre, x, post. by rewrite <- Hx at 3.
  - by right.
Qed.

Lemma upsert_length_present l k v xs :
  is_Some (first_with k xs) → length (upsert l k v xs) = length xs.
Proof.
  intros [x Hx]. induction xs as [|y xs IH]; simpl in *; [done|].
  case_decide; simpl; [done|]. by rewrite IH.
Qed.

(** C2: on a table with capacity > 0, [insert(k, v1)] followed by
    [insert(k, v2)] makes [lookup(k)] return [v2] and leaves the chain of
    [k]'s bucket as long as the first call made it.  A call of [insert]
    changes that chain only: a node with an equal key keeps its place and
    its location and takes the new value; when there is none, one new
    element follows the last node. *)
Theorem insert_upsert s cs k v1 v2 :
  repr s cs → 0 < _size (this s) →
  let n := _size (this s) in
  let i := N.to_nat (index n k) in
  ∃ s1 s2 cs1 cs2,
    insert k v1 s = Ok tt s1 ∧ repr s1 cs1 ∧
    insert k v2 s1 = Ok tt s2 ∧ repr s2 cs2 ∧
    lookup k s2 = Ok v2 s2 ∧
    length (cs2 !!! i) = length (cs1 !!! i) ∧
    cs1 = <[i := cs1 !!! i]> cs ∧
    ((∃ pre x post,
        cs !!! i = pre ++ x :: post ∧ Forall (λ y, y.2.1 ≠ k) pre ∧ x.2.1 = k ∧
        cs1 !!! i = pre ++ (x.1, (k, v1)) :: post) ∨
     (Forall (λ y, y.2.1 ≠ k) (cs !!! i) ∧
      ∃ l, (l ∉ dom (mem s)) ∧ cs1 !!! i = (cs !!! i) ++ [(l, (k, v1))])).
Proof.
  intros Hr Hpos. cbn zeta.
  pose proof (index_in_range s cs k Hr Hpos) as Hlt.
  destruct (insert_spec s cs k v1 Hr Hpos) as (s1 & Hins1 & Hr1 & Hsz1 & _).
  assert (0 < _size (this s1)) as Hpos1 by (by rewrite Hsz1).
  destruct (insert_spec s1 _ k v2 Hr1 Hpos1) as (s2 & Hins2 & Hr2 & Hsz2 & _).
  rewrite Hsz1 in Hr2, Hsz2.
  set (l1 := fresh (dom (mem s))) in *. set (l2 := fresh (dom (mem s1))) in *.
  pose proof (upsert_first_with l1 k v1 (chain_of (_size (this s)) cs k)) as [l' Hfw].
  eexists s1, s2, _, _. split_and!; [done|exact Hr1|done|exact Hr2|..].
  - rewrite (lookup_content s2 _ k Hr2), Hsz2 by lia.
    rewrite content_insert, decide_True; [done..|]. by rewrite length_insert.
  - rewrite (list_lookup_total_insert_eq (<[_ := _]> cs))
      by (by rewrite length_insert).
    rewrite upsert_length_present; [done|]. unfold chain_of at 1.
    rewrite list_lookup_total_insert_eq by done. by rewrite Hfw.
  - by rewrite list_lookup_total_insert_eq.
  - rewrite list_lookup_total_insert_eq by done. unfold chain_of.
    destruct (upsert_cases l1 k v1 (cs !!! N.to_nat (index (_size (this s)) k)))
      as [(pre & x & post & ? & ? & ? & ?)|[? ?]].
    + left. by exists pre, x, post.
    + right. split; [done|]. exists l1. split; [apply is_fresh | done].
Qed.

(** C4: on a table with capacity > 0 that holds no entry with key [k], both
    [lookup(k)] and [remove(k)] throw [std::out_of_range], and the state at
    the throw is the state before the call. *)
Theorem absent_key_throws s cs k :
  repr s cs → 0 < _size (this s) → k ∉ (entries cs).*1 →
  lookup k s = Throw "HashMap: key doesn't exists" s ∧
  remove k s = Throw "HashMap: key doesn't exists" s.
Proof.
  intros Hr Hpos Hk.
  pose proof (content_absent (_size (this s)) cs k Hk) as Hc. split.
  - by rewrite (lookup_content s cs), Hc.
  - pose proof (remove_spec s cs k Hr Hpos) as Hrm. cbn zeta in Hrm.
    unfold content in Hc. by destruct (first_with k _).
Qed.

Lemma lookup_result s cs k :
  repr s cs → 0 < _size (this s) →
  result (lookup k s)
  = match content (_size (this s)) cs k with
    | Some v => Ok v tt
    | None => Throw "HashMap: key doesn't exists" tt
    end.
Proof.
  intros Hr Hpos. rewrite (lookup_content s cs) by done.
  by destruct (content _ _ _).
Qed.

(** C5: on a table with capacity > 0 that holds an entry with key [k],
    [remove(k)] returns after unlinking and releasing exactly that element:
    the chain of [k]'s bucket loses it and nothing else, every other chain is
    unchanged; when it was the head the bucket points to its successor, and
    otherwise the element before it does.  Afterwards [exists(k)] is false,
    [lookup(k)] throws, and [lookup] of any other key gives what it gave
    before. *)
Theorem remove_present s cs k :
  repr s cs → 0 < _size (this s) →
  placed (_size (this s)) cs → unique_keys cs →
  k ∈ (entries cs).*1 →
  ∃ pre x post s',
    cs !!! N.to_nat (index (_size (this s)) k) = pre ++ x :: post ∧
    x.2.1 = k ∧
    mem s !! x.1 = Some (mkElement k x.2.2 (head_ptr post)) ∧
    remove k s = Ok tt s' ∧
    repr s' (<[N.to_nat (index (_size (this s)) k) := pre ++ post]> cs) ∧
    mem s' !! x.1 = None ∧
    (pre = [] →
       bucket_of (this s') (index (_size (this s)) k) s' = Ok (head_ptr post) s') ∧
    (∀ pre' p, pre = pre' ++ [p] →
       mem s' !! p.1 = Some (mkElement p.2.1 p.2.2 (head_ptr post))) ∧
    exists_ k s' = Ok false s' ∧
    lookup k s' = Throw "HashMap: key doesn't exists" s' ∧
    (∀ k', k' ≠ k → result (lookup k' s') = result (lookup k' s)).
Proof.
  intros Hr Hpos Hp Hu Hk.
  pose proof (index_in_range s cs k Hr Hpos) as Hlt.
  pose proof (chain_of_lookup s cs k Hr Hpos) as Hxs.
  pose proof (repr_chain_linked _ _ _ _ _ Hr Hxs) as Hl.
  destruct (content_present s cs k Hr Hpos Hp Hk) as [v Hc].
  unfold content in Hc.
  destruct (first_with k (chain_of _ cs k)) as [x|] eqn:Hfw; [|done].
  pose proof (remove_spec s cs k Hr Hpos) as Hrm. cbn zeta in Hrm.
  rewrite Hfw in Hrm. destruct Hrm as (s' & Hrm & Hr' & Hsz & _ & Hgone & _).
  apply first_with_Some in Hfw as (pre & post & Hch & Hpre & Hx).
  assert (0 < _size (this s')) as Hpos' by (by rewrite Hsz).
  exists pre, x, post, s'.
  rewrite Hch, remove_first_app in Hr' by done.
  split_and!; try done.
  - rewrite Hch in Hl. apply lseg_app in Hl as [_ [Hl _]]. by rewrite <- Hx.
  - intros ->. rewrite <- Hsz.
    change (read_bucket (index (_size (this s')) k) s' = Ok (head_ptr post) s').
    pose proof (chain_of_lookup s' _ k Hr' Hpos') as Hxs'.
    erewrite (read_bucket_repr s' _ _ _ Hr' Hxs').
    unfold chain_of at 1. rewrite Hsz.
    by rewrite list_lookup_total_insert_eq by done.
  - intros pre' p ->.
    pose proof (chain_of_lookup s' _ k Hr' Hpos') as Hxs'.
    pose proof (repr_chain_linked _ _ _ _ _ Hr' Hxs') as Hl'.
    rewrite Hsz in Hl'. unfold chain_of at 1 in Hl'.
    rewrite list_lookup_total_insert_eq in Hl' by done.
    rewrite <- app_assoc in Hl'.
    by apply lseg_app in Hl' as [_ [Hl' _]].
  - rewrite (exists_content s' _ k Hr' Hpos'), Hsz.
    rewrite <- (remove_first_app k pre x post), <- Hch by done.
    rewrite content_remove_eq by done.
    by rewrite bool_decide_eq_false_2 by (by intros []).
  - rewrite (lookup_content s' _ k Hr' Hpos'), Hsz.
    rewrite <- (remove_first_app k pre x post), <- Hch by done.
    by rewrite content_remove_eq by done.
  - intros k' Hk'.
    rewrite (lookup_result s' _ k' Hr' Hpos'), (lookup_result s cs k' Hr Hpos), Hsz.
    rewrite <- (remove_first_app k pre x post), <- Hch by done.
    by rewrite content_remove_ne by done.
Qed.

(** ** resize *)

Lemma load_new_array {A} (m i : N) : load (new_array (A := A) m) i = None.
Proof.
  unfold load, new_array.
  destruct (replicate _ _ !! _) as [c|] eqn:Hc; [|done].
  by apply lookup_replicate in Hc as [-> _].
Qed.

Lemma rehash_one_new_array newSize m (x : loc) s e :
  mem s !! x = Some e →
  rehash_one newSize (new_array m) (Some x) s = Undefined.
Proof.
  intros Hx. unfold rehash_one.
  erewrite bind_Ok by (unfold deref; by rewrite Hx).
  destruct (new_index newSize (key e)); [|done].
  by rewrite load_new_array.
Qed.

Lemma rehash_chain_eq fuel newSize newTable tmp :
  rehash_chain (K := K) (V := V) fuel newSize newTable tmp =
  match tmp with
  | None => mret newTable
  | Some old =>
      newTable' ← rehash_one newSize newTable tmp;
      e ← deref tmp;
      delete_Element old ;;
      match fuel with
      | O => diverges
      | Datatypes.S fuel' => rehash_chain fuel' newSize newTable' (next e)
      end
  end.
Proof. by destruct fuel. Qed.

Lemma resize_body_spec s cs newSize m i xs :
  repr s cs → cs !! i = Some xs →
  resize_body newSize (N.of_nat i) (new_array m) s
  = if decide (xs = []) then Ok (new_array m) s else Undefined.
Proof.
  intros Hr Hxs. unfold resize_body.
  pose proof (lookup_lt_Some _ _ _ Hxs) as Hlt.
  pose proof (repr_length _ _ _ Hr) as Hlen.
  erewrite bind_Ok by (eapply lock_guard_repr; [done | lia]).
  erewrite bind_Ok by (eapply read_bucket_repr; [done | by rewrite Nat2N.id]).
  pose proof (repr_chain_linked _ _ _ _ _ Hr Hxs) as Hl.
  destruct xs as [|x xs]; [done|]. rewrite decide_False by done.
  cbn [head_ptr ptr_to]. apply bind_Undefined.
  unfold with_fuel. rewrite rehash_chain_eq. apply bind_Undefined.
  destruct Hl as [Hx _]. by eapply rehash_one_new_array.
Qed.

Lemma resize_loop s cs newSize m (k a : nat) :
  repr s cs → (a + k ≤ length cs)%nat →
  for_from k (N.of_nat a) (resize_body newSize) (new_array m) s
  = if decide (Forall (.= []) (take k (drop a cs)))
    then Ok (new_array m) s else Undefined.
Proof.
  intros Hr. revert a. induction k as [|k IH]; intros a Hak.
  - cbn [for_from]. by rewrite decide_True by constructor.
  - destruct (lookup_lt_is_Some_2 cs a) as [xs Hxs]; [lia|].
    cbn [for_from]. rewrite (drop_S _ _ _ Hxs). cbn [take].
    destruct (decide (xs = [])) as [->|Hne].
    + erewrite bind_Ok; cycle 1.
      { by rewrite (resize_body_spec s cs _ _ _ _ Hr Hxs). }
      rewrite <- Nat2N.inj_succ, IH by lia.
      destruct (decide (Forall _ (take k _))) as [Hf|Hf].
      * rewrite decide_True; [done | by constructor].
      * rewrite decide_False; [done|]. by intros [_ ?]%Forall_cons.
    + rewrite bind_Undefined; cycle 1.
      { rewrite (resize_body_spec s cs _ _ _ _ Hr Hxs). by rewrite decide_False. }
      rewrite decide_False; [done|]. by intros [? _]%Forall_cons.
Qed.

(** On a table as built by the constructors and kept by [insert] and
    [remove], [resize] has a defined result only when no chain holds an
    element, and that result is the uninitialised table. *)
Lemma resize_spec s cs newSize :
  repr s cs →
  resize newSize s
  = if decide (Forall (.= []) cs) then Ok tt (resized newSize (mem s))
    else Undefined.
Proof.
  intros Hr. unfold resize.
  erewrite bind_Ok by done.
  pose proof (repr_length _ _ _ Hr) as Hlen.
  pose proof (resize_loop s cs newSize newSize (length cs) 0 Hr) as Hloop.
  rewrite drop_0, firstn_all in Hloop.
  assert (for_unsigned (_size (this s)) (resize_body newSize) (new_array newSize) s
          = for_from (length cs) 0 (resize_body newSize) (new_array newSize) s)
    as Hfor.
  { unfold for_unsigned. rewrite decide_True by (by eapply repr_size).
    by rewrite <- Hlen, Nat2N.id. }
  specialize (Hloop ltac:(lia)).
  case_decide as Hall.
  - erewrite bind_Ok by (rewrite Hfor; exact Hloop).
    erewrite bind_Ok; cycle 1.
    { unfold delete_arrays.
      by rewrite (repr_table _ _ _ Hr), (repr_mutexes _ _ _ Hr). }
    done.
  - apply bind_Undefined. rewrite Hfor. exact Hloop.
Qed.

Lemma lock_guard_resized m h i : lock_guard i (resized m h) = Undefined.
Proof.
  unfold lock_guard, lock_of, resized. cbn [this _mutexes].
  by rewrite load_new_array.
Qed.

Lemma after_hash_resized {A} m h k (f : N → M state A) :
  (∀ i, f i (resized m h) = Undefined) →
  (i ← hash k; f i) (resized m h) = Undefined.
Proof.
  intros Hf. unfold hash at 1, mbind, M_bind. by case_decide.
Qed.

Lemma insert_resized m h k v : insert k v (resized m h) = Undefined.
Proof.
  apply after_hash_resized. intros i. apply bind_Undefined, lock_guard_resized.
Qed.

Lemma remove_resized m h k : remove k (resized m h) = Undefined.
Proof.
  apply after_hash_resized. intros i. apply bind_Undefined, lock_guard_resized.
Qed.

Lemma lookup_resized m h k : lookup k (resized m h) = Undefined.
Proof.
  apply after_hash_resized. intros i. apply bind_Undefined, lock_guard_resized.
Qed.

Lemma exists_resized m h k : exists_ k (resized m h) = Undefined.
Proof.
  apply after_hash_resized. intros i. apply bind_Undefined, lock_guard_resized.
Qed.

Lemma resize_resized m h newSize s' :
  resize newSize (resized m h) = Ok tt s' → s' = resized newSize h.
Proof.
  unfold resize. erewrite bind_Ok by done. cbn [resized this _size].
  unfold for_unsigned. case_decide as Hm; [|done].
  destruct (N.to_nat m) as [|k] eqn:Hk.
  - cbn [for_from]. erewrite bind_Ok by done. erewrite bind_Ok by done.
    by intros [= <-].
  - cbn [for_from]. rewrite bind_Undefined; [done|].
    apply bind_Undefined, bind_Undefined, lock_guard_resized.
Qed.

(** ** States reached from a sized construction *)

Lemma HashMap_sized_Ok n h s :
  HashMap_sized n h = Ok tt s → n < 2 ^ 32 ∧ s = mkState (empty_table n) h.
Proof.
  unfold HashMap_sized. destruct (decide (n < 2 ^ 32)) as [Hn|Hn].
  - rewrite allocate_spec by done. by intros [= <-].
  - by rewrite allocate_too_large by lia.
Qed.

Lemma sound_sized n h s : HashMap_sized n h = Ok tt s → sound s.
Proof.
  intros [Hn ->]%HashMap_sized_Ok. left. exists (replicate (N.to_nat n) []).
  split; [by apply empty_table_repr|]. split.
  - intros i xs x [-> _]%lookup_replicate Hx. by apply elem_of_nil in Hx.
  - apply Forall_replicate. constructor.
Qed.

Lemma hash_zero k s : _size (this s) = 0 → hash k s = Undefined.
Proof. intros Hz. unfold hash. by rewrite decide_True. Qed.

Lemma sound_step o s s' :
  sound s →
  apply_op o s = Ok tt s' ∨ (∃ w, apply_op o s = Throw w s') →
  sound s'.
Proof.
  intros [(cs & Hr & Hp & Hu)|(m & h & ->)] Hstep.
  - destruct (decide (_size (this s) = 0)) as [Hz|Hnz].
    + destruct o as [k v|k|m]; cbn [apply_op] in Hstep.
      * unfold insert in Hstep. rewrite bind_Undefined in Hstep by (by apply hash_zero).
        by destruct Hstep as [|[]].
      * unfold remove in Hstep. rewrite bind_Undefined in Hstep by (by apply hash_zero).
        by destruct Hstep as [|[]].
      * rewrite (resize_spec s cs m Hr) in Hstep. right.
        case_decide; destruct Hstep as [Hs|[w Hs]]; simplify_eq. eauto.
    + assert (0 < _size (this s)) as Hpos by lia.
      pose proof (index_in_range s cs) as Hlt.
      destruct o as [k v|k|m]; cbn [apply_op] in Hstep.
      * destruct (insert_spec s cs k v Hr Hpos) as (s1 & Hins & Hr1 & Hsz & _).
        rewrite Hins in Hstep. destruct Hstep as [Hs|[w Hs]]; simplify_eq.
        left. eexists. split; [exact Hr1|]. rewrite Hsz. split.
        -- apply placed_upsert; eauto.
        -- by apply unique_keys_upsert.
      * pose proof (remove_spec s cs k Hr Hpos) as Hrm. cbn zeta in Hrm.
        destruct (first_with k _).
        -- destruct Hrm as (s1 & Hrm & Hr1 & Hsz & _).
           rewrite Hrm in Hstep. destruct Hstep as [Hs|[w Hs]]; simplify_eq.
           left. eexists. split; [exact Hr1|]. rewrite Hsz. split.
           ++ apply placed_remove_first; eauto.
           ++ by apply unique_keys_remove_first.
        -- rewrite Hrm in Hstep. destruct Hstep as [Hs|[w Hs]]; simplify_eq.
           left. eauto.
      * rewrite (resize_spec s cs m Hr) in Hstep. right.
        case_decide; destruct Hstep as [Hs|[w Hs]]; simplify_eq. eauto.
  - destruct o as [k v|k|m']; cbn [apply_op] in Hstep.
    + rewrite insert_resized in Hstep. by destruct Hstep as [|[]].
    + rewrite remove_resized in Hstep. by destruct Hstep as [|[]].
    + destruct Hstep as [Hs|[w Hs]].
      * apply resize_resized in Hs as ->. right. eauto.
      * exfalso. revert Hs. unfold resize. erewrite bind_Ok by done.
        cbn [resized this _size]. unfold for_unsigned.
        case_decide; [|done]. destruct (N.to_nat m) as [|j].
        -- cbn [for_from]. erewrite bind_Ok by done. by erewrite bind_Ok by done.
        -- cbn [for_from]. rewrite bind_Undefined; [done|].
           apply bind_Undefined, bind_Undefined, lock_guard_resized.
Qed.

Lemma sound_run ops s s' : sound s → run ops s = Ok tt s' → sound s'.
Proof.
  revert s. induction ops as [|o ops IH]; intros s Hs; cbn [run].
  - by intros [= <-].
  - destruct (apply_op o s) as [[] s1|w s1| |] eqn:Ho; try done.
    + apply IH. eapply sound_step; eauto.
    + apply IH. eapply sound_step; eauto.
Qed.

Lemma reaches_linked h xs e :
  linked h xs → reaches h (head_ptr xs) e →
  ∃ x, x ∈ xs ∧ e = mkElement x.2.1 x.2.2 (next e).
Proof.
  induction xs as [|x xs IH]; intros Hl Hre.
  - inversion Hre.
  - destruct Hl as [Hx Hl]. inversion Hre as [l e0 He|l e0 e1 He Hnext]; subst.
    + exists x. split; [by left|]. rewrite Hx in He. by simplify_eq.
    + rewrite Hx in He. simplify_eq. cbn [next] in Hnext.
      destruct (IH Hl Hnext) as (y & Hy & He). exists y. split; [by right | done].
Qed.

(** [insert] and [remove] keep every element in the bucket of its key: in
    every state reached from a sized construction by calls that return or
    throw, every element in the chain of bucket [i] has a key whose hash,
    modulo the current capacity, is [i].  A run with a [resize] gets here
    only through tables without entries ([resize_spec]); what [resize] does
    to the entries is the subject of [rehash_one_places] and of the
    evaluation on the table of test1.cpp below. *)
Theorem hash_placement n h ops s0 s :
  HashMap_sized n h = Ok tt s0 → run ops s0 = Ok tt s →
  ∀ i e, bucket_entry s i e → hashFunctor (key e) mod _size (this s) = i.
Proof.
  intros Hs0%sound_sized Hrun i e (p & Hp & Hre).
  destruct (sound_run ops s0 s Hs0 Hrun) as [(cs & Hr & Hpl & _)|(m & h' & ->)].
  - unfold load in Hp. rewrite (repr_table _ _ _ Hr), list_lookup_fmap in Hp.
    destruct (cs !! N.to_nat i) as [xs|] eqn:Hxs; [|done].
    cbn in Hp. simplify_eq.
    pose proof (repr_chain_linked _ _ _ _ _ Hr Hxs) as Hl.
    destruct (reaches_linked _ _ _ Hl Hre) as (x & Hx & He).
    pose proof (Hpl _ _ _ Hxs Hx) as Hidx. unfold index in Hidx.
    rewrite He. cbn [key]. lia.
  - cbn [resized this _table] in Hp. by rewrite load_new_array in Hp.
Qed.

(** ** Two tables in one store *)

Lemma elem_of_footprint cs l :
  l ∈ footprint cs ↔ ∃ i xs, cs !! i = Some xs ∧ l ∈ xs.*1.
Proof.
  unfold footprint. rewrite elem_of_list_to_set, list_elem_of_fmap. split.
  - intros (x & -> & (xs & Hx & [i Hi]%list_elem_of_lookup)%list_elem_of_join).
    exists i, xs. split; [done|]. apply list_elem_of_fmap. by exists x.
  - intros (i & xs & Hi & (x & -> & Hx)%list_elem_of_fmap).
    exists x. split; [done|]. apply list_elem_of_join. exists xs.
    split; [done|]. by eapply list_elem_of_lookup_2.
Qed.

Lemma footprint_dom h t cs : table_repr h t cs → footprint cs ⊆ dom h.
Proof.
  intros Hr l (i & xs & Hi & Hl)%elem_of_footprint.
  eapply lseg_dom; [|done]. by eapply repr_chain_linked.
Qed.

Lemma footprint_insert cs i ys :
  footprint (<[i := ys]> cs) ⊆ footprint cs ∪ list_to_set ys.*1.
Proof.
  intros l (j & zs & [(-> & -> & _)|[_ Hj]]%list_lookup_insert_Some & Hl)%elem_of_footprint.
  - apply elem_of_union_r. by apply elem_of_list_to_set.
  - apply elem_of_union_l, elem_of_footprint. eauto.
Qed.

Lemma footprint_replicate (n : nat) :
  footprint (K := K) (V := V) (replicate n []) = ∅.
Proof.
  apply set_eq. intros l. rewrite elem_of_footprint. split; [|set_solver].
  intros (i & xs & [-> _]%lookup_replicate & Hl). by apply elem_of_nil in Hl.
Qed.

Lemma table_repr_frame h h' t cs :
  table_repr h t cs → (∀ l, l ∈ footprint cs → h' !! l = h !! l) →
  table_repr h' t cs.
Proof.
  intros Hr Hsame. split; try by destruct Hr.
  apply Forall_lookup. intros i xs Hi.
  eapply lseg_frame; [by eapply repr_chain_linked|].
  intros l Hl. apply Hsame, elem_of_footprint. eauto.
Qed.

Lemma chain_of_footprint n cs k l :
  l ∈ (chain_of n cs k).*1 → l ∈ footprint cs.
Proof.
  unfold chain_of. intros Hl. apply elem_of_footprint.
  destruct (cs !! N.to_nat (index n k)) as [xs|] eqn:Hxs.
  - rewrite (list_lookup_total_correct _ _ _ Hxs) in Hl. eauto.
  - rewrite list_lookup_total_alt, Hxs in Hl. by apply elem_of_nil in Hl.
Qed.

(** [insert] leaves alone every live element that is not in the table, and
    takes the new element from outside the live ones. *)
Lemma insert_frame s cs k v :
  repr s cs → 0 < _size (this s) →
  ∃ s' cs',
    insert k v s = Ok tt s' ∧ repr s' cs' ∧
    cs' = <[N.to_nat (index (_size (this s)) k) :=
             upsert (fresh (dom (mem s))) k v (chain_of (_size (this s)) cs k)]> cs ∧
    _size (this s') = _size (this s) ∧
    (∀ l, l ∈ dom (mem s) → l ∉ footprint cs → mem s' !! l = mem s !! l) ∧
    footprint cs' ⊆ footprint cs ∪ (dom (mem s') ∖ dom (mem s)) ∧
    dom (mem s) ⊆ dom (mem s').
Proof.
  intros Hr Hpos.
  destruct (insert_spec s cs k v Hr Hpos)
    as (s' & Hins & Hr' & Hsz & Hframe & Hdom1 & Hdom2).
  assert (Hfresh : fresh (dom (mem s)) ∉ dom (mem s)) by apply is_fresh.
  eexists s', _. split_and!; [done|exact Hr'|done|done| | |done].
  - intros l Hl Hlf. apply Hframe.
    + intros Hlc. by apply Hlf, (chain_of_footprint (_size (this s)) cs k).
    + by intros ->.
  - pose proof (footprint_dom _ _ _ Hr') as Hfd.
    intros l Hl. pose proof (Hfd l Hl) as Hld.
    apply footprint_insert in Hl. apply elem_of_union in Hl as [Hl|Hl]; [set_solver|].
    apply elem_of_list_to_set in Hl.
    destruct (upsert_locs (fresh (dom (mem s))) k v (chain_of (_size (this s)) cs k))
      as [Heq|Heq]; rewrite Heq in Hl.
    + apply elem_of_union_l. by eapply chain_of_footprint.
    + apply elem_of_app in Hl as [Hl| ->%list_elem_of_singleton].
      * apply elem_of_union_l. by eapply chain_of_footprint.
      * set_solver.
Qed.

(** [remove] leaves alone every element that is not in the table. *)
Lemma remove_frame s cs k :
  repr s cs → 0 < _size (this s) →
  (remove k s = Throw "HashMap: key doesn't exists" s) ∨
  (∃ s' cs',
     remove k s = Ok tt s' ∧ repr s' cs' ∧
     cs' = <[N.to_nat (index (_size (this s)) k) :=
              remove_first k (chain_of (_size (this s)) cs k)]> cs ∧
     _size (this s') = _size (this s) ∧
     (∀ l, l ∉ footprint cs → mem s' !! l = mem s !! l) ∧
     footprint cs' ⊆ footprint cs ∧
     dom (mem s') ⊆ dom (mem s)).
Proof.
  intros Hr Hpos. pose proof (remove_spec s cs k Hr Hpos) as Hrm. cbn zeta in Hrm.
  destruct (first_with k _); [|by left]. right.
  destruct Hrm as (s' & Hrm & Hr' & Hsz & _ & _ & Hframe & Hdom).
  eexists s', _. split_and!; [done|exact Hr'|done|done| | |done].
  - intros l Hl. apply Hframe. intros Hlc.
    by apply Hl, (chain_of_footprint (_size (this s)) cs k).
  - intros l Hl. apply footprint_insert in Hl.
    apply elem_of_union in Hl as [Hl|Hl]; [done|].
    apply elem_of_list_to_set in Hl.
    apply (chain_of_footprint (_size (this s)) cs k).
    eapply elem_of_sublist; [exact Hl|].
    apply fmap_sublist, remove_first_sublist.
Qed.

(** ** The logical contents of a table *)

Lemma upsert_kvs l k v xs : (upsert l k v xs).*2 = upsert_kv k v xs.*2.
Proof.
  induction xs as [|x xs IH]; csimpl; [done|].
  case_decide; csimpl; [done|]. by rewrite IH.
Qed.

Lemma kvs_insert n cs l k v :
  (N.to_nat (index n k) < length cs)%nat →
  kvs (<[N.to_nat (index n k) := upsert l k v (chain_of n cs k)]> cs)
  = insert_kv n (kvs cs) (k, v).
Proof.
  intros Hlt. unfold kvs, insert_kv, chain_of. cbn [fst snd].
  rewrite list_fmap_insert, upsert_kvs. f_equal.
  by rewrite (list_lookup_total_fmap (λ xs : list (loc * (K * V)), xs.*2)).
Qed.

Lemma upsert_kv_absent k v c :
  k ∉ c.*1 → upsert_kv k v c = c ++ [(k, v)].
Proof.
  induction c as [|y c IH]; csimpl; [done|].
  intros [Hk1 Hk2]%not_elem_of_cons.
  rewrite decide_False by done. by rewrite IH.
Qed.

Lemma insert_middle {A} (l1 l2 : list A) (x y : A) :
  <[length l1 := y]> (l1 ++ x :: l2) = l1 ++ y :: l2.
Proof. by rewrite insert_app_r_alt, Nat.sub_diag by lia. Qed.

Lemma first_with_kvs k xs ys :
  xs.*2 = ys.*2 →
  (λ x, x.2.2) <$> first_with k xs = (λ x, x.2.2) <$> first_with k ys.
Proof.
  revert ys. induction xs as [|x xs IH]; intros [|y ys]; csimpl; try done.
  intros [= Hxy Hrest]. rewrite Hxy.
  case_decide; csimpl; [by rewrite Hxy|]. by apply IH.
Qed.

Lemma content_kvs n cs cs' k :
  kvs cs = kvs cs' → content n cs k = content n cs' k.
Proof.
  intros Heq. unfold content. apply first_with_kvs.
  unfold chain_of, kvs in *.
  assert (length cs = length cs') as Hlen.
  { by rewrite <- (length_fmap (λ xs, xs.*2) cs), Heq, length_fmap. }
  destruct (decide (N.to_nat (index n k) < length cs)%nat) as [Hlt|Hge].
  - rewrite <- !(list_lookup_total_fmap (λ xs : list (loc * (K * V)), xs.*2))
      by lia.
    by rewrite Heq.
  - rewrite !list_lookup_total_alt, !lookup_ge_None_2 by lia. done.
Qed.

(** Re-inserting the pairs of a table bucket by bucket, each chain in
    order, into an empty table of the same capacity rebuilds the chains. *)
Lemma refill_chain n (done rest : list (list (K * V))) (pre post : list (K * V)) :
  (∀ y : K * V, y ∈ post → index n y.1 = N.of_nat (length done)) →
  NoDup (pre ++ post).*1 →
  foldl (insert_kv n) (done ++ pre :: rest) post = done ++ (pre ++ post) :: rest.
Proof.
  revert pre. induction post as [|y post IH]; intros pre Hidx Hnd.
  - by rewrite app_nil_r.
  - cbn [foldl]. unfold insert_kv at 2.
    rewrite (Hidx y) by (by left). rewrite Nat2N.id.
    rewrite list_lookup_total_middle by done.
    rewrite upsert_kv_absent; cycle 1.
    { rewrite fmap_app, fmap_cons in Hnd.
      apply NoDup_app in Hnd as (_ & Hnd & _). intros Hy. eapply Hnd; [done|]. by left. }
    rewrite insert_middle. replace (y.1, y.2) with y by (by destruct y).
    rewrite IH.
    + by rewrite <- app_assoc.
    + intros z Hz. apply Hidx. by right.
    + by rewrite <- app_assoc.
Qed.

Lemma refill n (done rest : list (list (K * V))) :
  (∀ i c (y : K * V),
     (done ++ rest) !! i = Some c → y ∈ c → index n y.1 = N.of_nat i) →
  Forall (λ c, NoDup c.*1) rest →
  foldl (insert_kv n) (done ++ replicate (length rest) []) (mjoin rest)
  = done ++ rest.
Proof.
  revert done. induction rest as [|c rest IH]; intros done Hpl Hu.
  - done.
  - apply Forall_cons in Hu as [Hc Hu]. cbn [length replicate].
    change (mjoin (c :: rest)) with (c ++ mjoin rest).
    rewrite foldl_app.
    rewrite (refill_chain n done (replicate (length rest) []) [] c); cycle 1.
    { intros y Hy. eapply Hpl; [|done]. by apply list_lookup_middle. }
    { done. }
    cbn [app]. rewrite (cons_middle c done rest), app_assoc.
    rewrite cons_middle, app_assoc in Hpl.
    rewrite (cons_middle c done (replicate _ _)), app_assoc. by apply IH.
Qed.

Lemma placed_kvs n cs i c (y : K * V) :
  placed n cs → kvs cs !! i = Some c → y ∈ c → index n y.1 = N.of_nat i.
Proof.
  intros Hp Hc Hy. unfold kvs in Hc.
  apply list_lookup_fmap_Some in Hc as (xs & -> & Hxs).
  apply list_elem_of_fmap in Hy as (x & -> & Hx). by eapply Hp.
Qed.

Lemma entries_kvs cs : entries cs = mjoin (kvs cs).
Proof.
  unfold entries, kvs. induction cs as [|xs cs IH]; csimpl; [done|].
  rewrite fmap_app. by f_equal.
Qed.

Lemma refill_table n cs :
  placed n cs → unique_keys cs →
  foldl (insert_kv n) (replicate (length cs) []) (entries cs) = kvs cs.
Proof.
  intros Hp Hu. rewrite entries_kvs.
  rewrite <- (length_fmap (λ xs : list (loc * (K * V)), xs.*2) cs).
  apply (refill n [] (kvs cs)).
  - intros i c y. by apply placed_kvs.
  - unfold kvs. apply Forall_fmap. eapply Forall_impl; [exact Hu|]. done.
Qed.

(** ** Calls that leave the other table alone *)

Lemma grows_refl s cs : grows s cs s cs.
Proof. unfold grows. split_and!; [done|set_solver|done]. Qed.

Lemma grows_trans s1 cs1 s2 cs2 s3 cs3 :
  footprint cs3 ⊆ dom (mem s3) →
  grows s1 cs1 s2 cs2 → grows s2 cs2 s3 cs3 → grows s1 cs1 s3 cs3.
Proof.
  intros Hfd (Hsz1 & Hf1 & Hk1) (Hsz2 & Hf2 & Hk2).
  assert (∀ l, l ∈ dom (mem s1) → l ∉ footprint cs1 →
               l ∈ dom (mem s2) ∧ l ∉ footprint cs2) as Hstay.
  { intros l Hl Hlf. split.
    - apply elem_of_dom. rewrite Hk1 by done. by apply elem_of_dom.
    - intros Hl2. apply Hf1 in Hl2. set_solver. }
  unfold grows. split_and!; [congruence| |].
  - intros l Hl3. destruct (decide (l ∈ footprint cs1)) as [|Hn1]; [set_solver|].
    apply elem_of_union_r, elem_of_difference. split; [by apply Hfd|].
    intros Hl1. destruct (Hstay l Hl1 Hn1) as [Hd2 Hn2].
    apply Hf2 in Hl3. set_solver.
  - intros l Hl Hlf. destruct (Hstay l Hl Hlf) as [Hd2 Hn2].
    by rewrite Hk2, Hk1.
Qed.

Lemma grows_other s cs s' cs' t1 cs1 :
  grows s cs s' cs' → table_repr (mem s) t1 cs1 →
  footprint cs ## footprint cs1 →
  table_repr (mem s') t1 cs1 ∧ footprint cs' ## footprint cs1 ∧
  (∀ l, l ∈ footprint cs1 → mem s' !! l = mem s !! l).
Proof.
  intros (Hsz & Hf & Hk) Hr1 Hdisj.
  pose proof (footprint_dom _ _ _ Hr1) as Hfd.
  assert (∀ l, l ∈ footprint cs1 → mem s' !! l = mem s !! l) as Hsame.
  { intros l Hl. apply Hk; set_solver. }
  split_and!; [by eapply table_repr_frame|set_solver|done].
Qed.

Lemma insert_grows s cs k v :
  repr s cs → 0 < _size (this s) →
  ∃ s' cs',
    insert k v s = Ok tt s' ∧ repr s' cs' ∧ grows s cs s' cs' ∧
    kvs cs' = insert_kv (_size (this s)) (kvs cs) (k, v).
Proof.
  intros Hr Hpos.
  destruct (insert_frame s cs k v Hr Hpos)
    as (s' & cs' & Hins & Hr' & -> & Hsz & Hk & Hf & Hd).
  eexists s', _. split_and!; [done|exact Hr'|by split_and!|].
  by rewrite kvs_insert by (by eapply index_in_range).
Qed.

(** ** The loops of the copy constructor *)

Lemma insert_chain_eq fuel tmp :
  insert_chain (K := K) (V := V) fuel tmp =
  match tmp with
  | None => mret tt
  | Some _ =>
      e ← deref tmp;
      insert (key e) (value e) ;;
      e' ← deref tmp;
      match fuel with
      | O => diverges
      | Datatypes.S fuel' => insert_chain fuel' (next e')
      end
  end.
Proof. by destruct fuel. Qed.

Lemma insert_chain_spec fuel ys s cs t1 cs1 :
  repr s cs → 0 < _size (this s) →
  table_repr (mem s) t1 cs1 → footprint cs ## footprint cs1 →
  linked (mem s) ys → (∀ l, l ∈ ys.*1 → l ∈ footprint cs1) →
  (length ys ≤ fuel)%nat →
  ∃ s' cs',
    insert_chain fuel (head_ptr ys) s = Ok tt s' ∧ repr s' cs' ∧
    grows s cs s' cs' ∧
    kvs cs' = foldl (insert_kv (_size (this s))) (kvs cs) ys.*2.
Proof.
  revert fuel s cs.
  induction ys as [|y ys IH]; intros fuel s cs Hr Hpos Hr1 Hdisj Hl Hin Hfuel.
  - exists s, cs. rewrite insert_chain_eq. split_and!; [done|done|apply grows_refl|done].
  - rewrite insert_chain_eq. cbn [head_ptr ptr_to].
    erewrite bind_Ok by (eapply deref_lseg; exact Hl). cbn [key value next].
    destruct (insert_grows s cs y.2.1 y.2.2 Hr Hpos) as (s1 & cs1' & Hins & Hr' & Hg & Hkv).
    erewrite bind_Ok by exact Hins.
    destruct (grows_other _ _ _ _ _ _ Hg Hr1 Hdisj) as (Hr1' & Hdisj' & Hsame).
    assert (lseg (mem s1) (y :: ys) None) as Hl'.
    { eapply lseg_frame; [exact Hl|]. intros l Hlin. by apply Hsame, Hin. }
    erewrite bind_Ok by (eapply deref_lseg; exact Hl'). cbn [key value next].
    destruct fuel as [|fuel]; simpl in Hfuel; [lia|].
    pose proof Hg as (Hsz & _).
    destruct (IH fuel s1 cs1') as (s2 & cs2 & Hrun & Hr2 & Hg2 & Hkv2);
      [done|by rewrite Hsz|done|done|by destruct Hl'| |lia|].
    { intros l Hlin. apply Hin. rewrite fmap_cons. by right. }
    exists s2, cs2. split_and!; [done|done| |].
    { eapply grows_trans; [by eapply footprint_dom|done..]. }
    rewrite Hkv2, Hkv, Hsz. csimpl. by destruct y as [? [? ?]].
Qed.

Lemma insert_from_loop (k a : nat) s cs t1 cs1 :
  repr s cs → _size (this s) = _size t1 →
  table_repr (mem s) t1 cs1 → footprint cs ## footprint cs1 →
  (a + k ≤ length cs1)%nat →
  ∃ s' cs',
    for_from k (N.of_nat a) (insert_from_body t1) tt s = Ok tt s' ∧
    repr s' cs' ∧ grows s cs s' cs' ∧
    kvs cs' = foldl (insert_kv (_size t1)) (kvs cs) (entries (take k (drop a cs1))).
Proof.
  revert a s cs. induction k as [|k IH]; intros a s cs Hr Hsz Hr1 Hdisj Hak.
  - exists s, cs. split_and!; [done|done|apply grows_refl|done].
  - destruct (lookup_lt_is_Some_2 cs1 a) as [xs Hxs]; [lia|].
    pose proof (repr_length _ _ _ Hr1) as Hlen1.
    cbn [for_from]. rewrite (drop_S _ _ _ Hxs). cbn [take].
    assert (∃ s1 cs', insert_from_body t1 (N.of_nat a) tt s = Ok tt s1 ∧
                      repr s1 cs' ∧ grows s cs s1 cs' ∧
                      kvs cs' = foldl (insert_kv (_size t1)) (kvs cs) xs.*2)
      as (s1 & cs' & Hbody & Hr' & Hg & Hkv).
    { unfold insert_from_body.
      erewrite bind_Ok; cycle 1.
      { unfold lock_of. erewrite repr_mutex; [done..|lia]. }
      erewrite bind_Ok; cycle 1.
      { unfold bucket_of. erewrite repr_bucket; [done..|by rewrite Nat2N.id]. }
      destruct xs as [|x xs]; cbn [head_ptr ptr_to].
      { exists s, cs. split_and!; [done|done|apply grows_refl|done]. }
      change (Some x.1) with (head_ptr (x :: xs)). rewrite <- Hsz.
      unfold with_fuel. eapply insert_chain_spec; try done.
      - lia.
      - by eapply repr_chain_linked.
      - intros l Hl. apply elem_of_footprint. eauto.
      - by eapply repr_chain_fuel. }
    erewrite bind_Ok by exact Hbody.
    destruct (grows_other _ _ _ _ _ _ Hg Hr1 Hdisj) as (Hr1' & Hdisj' & _).
    pose proof Hg as (Hsz' & _).
    rewrite <- Nat2N.inj_succ.
    destruct (IH (S a) s1 cs') as (s2 & cs2 & Hrun & Hr2 & Hg2 & Hkv2);
      [done|congruence|done|done|lia|].
    exists s2, cs2. split_and!; [done|done| |].
    { eapply grows_trans; [by eapply footprint_dom|done..]. }
    rewrite Hkv2, Hkv. unfold entries. cbn [mjoin list_join].
    by rewrite fmap_app, foldl_app.
Qed.

(** ** Destruction *)

Lemma free_chain_eq fuel tmp :
  free_chain (K := K) (V := V) fuel tmp =
  match tmp with
  | None => mret tt
  | Some old =>
      e ← deref tmp;
      delete_Element old ;;
      match fuel with
      | O => diverges
      | Datatypes.S fuel' => free_chain fuel' (next e)
      end
  end.
Proof. by destruct fuel. Qed.

Lemma free_chain_spec fuel ys s :
  linked (mem s) ys → NoDup ys.*1 → (length ys ≤ fuel)%nat →
  ∃ h',
    free_chain fuel (head_ptr ys) s = Ok tt (mkState (this s) h') ∧
    (∀ l, h' !! l = if decide (l ∈ ys.*1) then None else mem s !! l).
Proof.
  revert fuel s. induction ys as [|y ys IH]; intros fuel s Hl Hnd Hfuel.
  - exists (mem s). rewrite free_chain_eq. split; [by destruct s|].
    intros l. rewrite decide_False; [done|]. apply not_elem_of_nil.
  - rewrite free_chain_eq. cbn [head_ptr ptr_to].
    erewrite bind_Ok by (eapply deref_lseg; exact Hl). cbn [key value next].
    rewrite fmap_cons in Hnd. apply NoDup_cons in Hnd as [Hy Hnd].
    erewrite bind_Ok; cycle 1.
    { unfold delete_Element. destruct Hl as [-> _]. done. }
    destruct fuel as [|fuel]; simpl in Hfuel; [lia|].
    destruct (IH fuel (set_mem (delete y.1) s)) as (h' & Hrun & Hh'); [|done|lia|].
    { eapply lseg_frame; [by destruct Hl|]. intros l Hlin. cbn [set_mem mem].
      rewrite lookup_delete_ne; [done|]. by intros <-. }
    exists h'. split; [exact Hrun|]. intros l. rewrite Hh'. cbn [set_mem mem].
    rewrite fmap_cons.
    destruct (decide (l = y.1)) as [->|Hne].
    + rewrite lookup_delete_eq. rewrite (decide_True (P := y.1 ∈ y.1 :: _)) by (by left).
      by case_decide.
    + rewrite lookup_delete_ne by done.
      destruct (decide (l ∈ ys.*1)) as [Hin|Hnin].
      * rewrite decide_True; [done | by right].
      * rewrite decide_False; [done|]. by intros [?|?]%elem_of_cons.
Qed.

Lemma footprint_take_S cs a xs :
  cs !! a = Some xs →
  footprint (take (S a) cs) = footprint (take a cs) ∪ list_to_set xs.*1.
Proof.
  intros Hxs. rewrite (take_S_r _ _ _ Hxs). unfold footprint.
  rewrite join_app, fmap_app, list_to_set_app_L. cbn [mjoin list_join].
  by rewrite app_nil_r.
Qed.

Lemma destroy_loop (k a : nat) n ms h0 h cs t0 :
  table_repr h0 t0 cs → (a + k = length cs)%nat →
  length ms = length cs →
  (∀ j, (a ≤ j < length cs)%nat → ms !! j = Some (Val unlocked)) →
  (∀ l, h !! l = if decide (l ∈ footprint (take a cs)) then None else h0 !! l) →
  ∃ ms' h',
    for_from k (N.of_nat a) destroy_body tt
      (mkState (mkHashMap n (_table t0) (Array ms)) h)
    = Ok tt (mkState (mkHashMap n (_table t0) (Array ms')) h') ∧
    (∀ l, h' !! l = if decide (l ∈ footprint cs) then None else h0 !! l).
Proof.
  intros Hr0. revert a ms h.
  induction k as [|k IH]; intros a ms h Hak Hlen Hms Hh.
  - exists ms, h. split; [done|]. intros l. rewrite Hh.
    by rewrite firstn_all2 by lia.
  - destruct (lookup_lt_is_Some_2 cs a) as [xs Hxs]; [lia|].
    pose proof (repr_chain_linked _ _ _ _ _ Hr0 Hxs) as Hl0.
    pose proof (repr_chain_NoDup _ _ _ _ _ Hr0 Hxs) as Hnd.
    assert (∀ l, l ∈ xs.*1 → l ∉ footprint (take a cs)) as Hout.
    { intros l Hl (j & zs & Hj & Hlz)%elem_of_footprint.
      apply lookup_take_Some in Hj as [Hj Hja].
      pose proof (proj2 (repr_separate _ _ _ Hr0) _ _ _ _ _ Hxs Hj Hl Hlz). lia. }
    assert (linked h xs) as Hl.
    { eapply lseg_frame; [exact Hl0|]. intros l Hlin. rewrite Hh.
      rewrite decide_False; [done | by apply Hout]. }
    cbn [for_from].
    assert (∃ ms1 h1,
      destroy_body (N.of_nat a) tt (mkState (mkHashMap n (_table t0) (Array ms)) h)
      = Ok tt (mkState (mkHashMap n (_table t0) (Array ms1)) h1) ∧
      length ms1 = length cs ∧
      (∀ j, (S a ≤ j < length cs)%nat → ms1 !! j = Some (Val unlocked)) ∧
      (∀ l, h1 !! l = if decide (l ∈ footprint (take (S a) cs)) then None else h0 !! l))
      as (ms1 & h1 & Hbody & Hlen1 & Hms1 & Hh1).
    { unfold destroy_body.
      erewrite bind_Ok; cycle 1.
      { unfold lock_guard, lock_of, load. cbn [this _mutexes].
        rewrite Nat2N.id, Hms by lia. done. }
      assert (load (_table t0) (N.of_nat a) = Some (head_ptr xs)) as Hload.
      { eapply repr_bucket; [done | by rewrite Nat2N.id]. }
      erewrite bind_Ok; cycle 1.
      { unfold read_bucket, bucket_of. cbn [this _table]. by rewrite Hload. }
      rewrite (footprint_take_S _ _ _ Hxs).
      destruct xs as [|x xs].
      { cbn [head_ptr ptr_to]. exists ms, h. split_and!; [done|done| |].
        - intros j Hj. apply Hms. lia.
        - intros l. rewrite Hh. apply decide_ext. set_solver. }
      cbn [head_ptr ptr_to]. change (Some x.1) with (head_ptr (x :: xs)).
      destruct (free_chain_spec (size h) (x :: xs)
                  (mkState (mkHashMap n (_table t0) (Array ms)) h))
        as (h1 & Hfree & Hh1); [done|done|by eapply lseg_length|].
      erewrite bind_Ok; cycle 1.
      { unfold with_fuel. cbn [mem]. exact Hfree. }
      exists (<[a := Indeterminate]> ms), h1. split_and!.
      - unfold delete_mutex, load, assign. cbn [this _mutexes].
        rewrite Nat2N.id, Hms by lia. rewrite decide_True by lia. done.
      - by rewrite length_insert.
      - intros j Hj. rewrite list_lookup_insert_ne by lia. apply Hms. lia.
      - intros l. rewrite Hh1. cbn [mem]. rewrite Hh.
        destruct (decide (l ∈ (x :: xs).*1)) as [Hin|Hnin].
        + rewrite decide_True; [done|]. apply elem_of_union_r.
          by apply elem_of_list_to_set.
        + apply decide_ext. rewrite elem_of_union, elem_of_list_to_set. naive_solver. }
    erewrite bind_Ok by exact Hbody.
    rewrite <- Nat2N.inj_succ. apply IH; [lia|done|done|done].
Qed.

(** [destroyTableAndMutexes] releases the elements of the table and nothing
    else, and leaves the object without arrays. *)
Lemma destroy_spec s cs :
  repr s cs →
  ∃ h',
    destroyTableAndMutexes s = Ok tt (mkState (mkHashMap 0 Dangling Dangling) h') ∧
    (∀ l, h' !! l = if decide (l ∈ footprint cs) then None else mem s !! l).
Proof.
  intros Hr. destruct s as [[n tab mu] h]. unfold repr in Hr. cbn [this mem] in *.
  pose proof (repr_length _ _ _ Hr) as Hlen.
  pose proof (repr_size _ _ _ Hr) as Hn.
  pose proof (repr_table _ _ _ Hr) as Htab.
  pose proof (repr_mutexes _ _ _ Hr) as Hmu.
  cbn [_size _table _mutexes] in Hlen, Hn, Htab, Hmu.
  destruct (destroy_loop (length cs) 0 n
              (replicate (length cs) (Val unlocked)) h h cs (mkHashMap n tab mu))
    as (ms' & h' & Hloop & Hh'); [done|done|by rewrite length_replicate| | |].
  { intros j Hj. apply lookup_replicate_2. lia. }
  { intros l. rewrite take_0. rewrite decide_False; [done|].
    unfold footprint. cbn. set_solver. }
  exists h'. split; [|done].
  cbn [_table] in Hloop. rewrite <- Hmu in Hloop.
  unfold destroyTableAndMutexes. cbn [this _table]. rewrite Htab at 1.
  erewrite bind_Ok by done.
  erewrite bind_Ok; cycle 1.
  { unfold for_unsigned. cbn [this _size]. rewrite decide_True by done.
    replace (N.to_nat n) with (length cs) by lia. exact Hloop. }
  erewrite bind_Ok; cycle 1.
  { unfold delete_arrays. cbn [this _table _mutexes]. rewrite Htab. done. }
  done.
Qed.

Lemma destroy_default h :
  destroyTableAndMutexes (mkState HashMap_default h) = Ok tt (mkState HashMap_default h).
Proof. done. Qed.

(** ** Independence of two tables *)

Lemma is_table_footprint_dom h t cs : is_table h t cs → footprint cs ⊆ dom h.
Proof.
  intros [Hr|[_ ->]]; [by eapply footprint_dom|].
  unfold footprint. cbn. set_solver.
Qed.

Lemma grows_is_table s cs s' cs' t1 cs1 :
  grows s cs s' cs' → is_table (mem s) t1 cs1 →
  footprint cs ## footprint cs1 →
  is_table (mem s') t1 cs1 ∧ footprint cs' ## footprint cs1 ∧
  (∀ l, l ∈ footprint cs1 → mem s' !! l = mem s !! l).
Proof.
  intros Hg [Hr1|[-> ->]] Hdisj.
  - destruct (grows_other _ _ _ _ _ _ Hg Hr1 Hdisj) as (? & ? & ?).
    split_and!; [by left|done|done].
  - split_and!; [by right| |]; unfold footprint; cbn; set_solver.
Qed.

Lemma remove_grows s cs k :
  repr s cs → 0 < _size (this s) →
  (remove k s = Throw "HashMap: key doesn't exists" s) ∨
  (∃ s' cs', remove k s = Ok tt s' ∧ repr s' cs' ∧ grows s cs s' cs').
Proof.
  intros Hr Hpos.
  destruct (remove_frame s cs k Hr Hpos)
    as [?|(s' & cs' & Hrm & Hr' & _ & Hsz & Hk & Hf & Hd)]; [by left|].
  right. exists s', cs'. split_and!; [done|done|]. split_and!; [done|set_solver|].
  intros l _ Hl. by apply Hk.
Qed.

(** A table in the store gives the same answers after the store changed
    outside its elements. *)
Lemma lookup_is_table h h' t cs k :
  is_table h t cs → (∀ l, l ∈ footprint cs → h' !! l = h !! l) →
  result (lookup k (mkState t h')) = result (lookup k (mkState t h)).
Proof.
  intros [Hr|[-> _]] Hsame.
  - destruct (decide (_size t = 0)) as [Hz|Hnz].
    + unfold lookup. by rewrite !bind_Undefined by (by apply hash_zero).
    + assert (repr (mkState t h') cs) as Hr' by (by eapply table_repr_frame).
      rewrite (lookup_result (mkState t h') cs), (lookup_result (mkState t h) cs);
        [done|done|cbn; lia|done|cbn; lia].
  - unfold lookup. by rewrite !bind_Undefined by (by apply hash_zero).
Qed.

(** Calls of [insert] and [remove] on one table leave a table that shares
    no element with it as it is. *)
Lemma run_disjoint ops s cs t' cs' s1 :
  repr s cs → is_table (mem s) t' cs' → footprint cs ## footprint cs' →
  Forall mutation ops → run ops s = Ok tt s1 →
  ∃ cs1, repr s1 cs1 ∧ grows s cs s1 cs1.
Proof.
  intros Hr Ht Hdisj Hops. revert s cs Hr Ht Hdisj.
  induction Hops as [|o ops Ho _ IH]; intros s cs Hr Ht Hdisj; cbn [run].
  - intros [= <-]. exists cs. split; [done | apply grows_refl].
  - destruct (decide (_size (this s) = 0)) as [Hz|Hnz].
    { destruct o as [k v|k|m]; [| |done]; cbn [apply_op].
      - unfold insert. by rewrite bind_Undefined by (by apply hash_zero).
      - unfold remove. by rewrite bind_Undefined by (by apply hash_zero). }
    assert (0 < _size (this s)) as Hpos by lia.
    destruct o as [k v|k|m]; [| |done]; cbn [apply_op].
    + destruct (insert_grows s cs k v Hr Hpos) as (s2 & cs2 & -> & Hr2 & Hg & _).
      destruct (grows_is_table _ _ _ _ _ _ Hg Ht Hdisj) as (Ht2 & Hdisj2 & _).
      intros Hrun. destruct (IH s2 cs2 Hr2 Ht2 Hdisj2 Hrun) as (cs1 & Hr1 & Hg1).
      exists cs1. split; [done|].
      eapply grows_trans; [by eapply footprint_dom|done..].
    + destruct (remove_grows s cs k Hr Hpos) as [->|(s2 & cs2 & -> & Hr2 & Hg)].
      * by apply IH.
      * destruct (grows_is_table _ _ _ _ _ _ Hg Ht Hdisj) as (Ht2 & Hdisj2 & _).
        intros Hrun. destruct (IH s2 cs2 Hr2 Ht2 Hdisj2 Hrun) as (cs1 & Hr1 & Hg1).
        exists cs1. split; [done|].
        eapply grows_trans; [by eapply footprint_dom|done..].
Qed.

Lemma run_default ops h s1 :
  Forall mutation ops → run ops (mkState HashMap_default h) = Ok tt s1 →
  s1 = mkState HashMap_default h.
Proof.
  intros [|o ops' Ho _]; cbn [run]; [by intros [= <-]|].
  destruct o as [k v|k|m]; [| |done]; cbn [apply_op].
  - unfold insert. by rewrite bind_Undefined by (by apply hash_zero).
  - unfold remove. by rewrite bind_Undefined by (by apply hash_zero).
Qed.

(** Two tables that share no element: calls of [insert] and [remove] on
    one do not change what [lookup] gives on the other. *)
Lemma independence h t cs t' cs' ops s1 k :
  is_table h t cs → is_table h t' cs' → footprint cs ## footprint cs' →
  Forall mutation ops → run ops (mkState t h) = Ok tt s1 →
  result (lookup k (mkState t' (mem s1))) = result (lookup k (mkState t' h)).
Proof.
  intros [Hr|[-> ->]] Ht' Hdisj Hops Hrun.
  - destruct (run_disjoint ops (mkState t h) cs t' cs' s1) as (cs1 & Hr1 & Hg);
      try done.
    destruct (grows_is_table _ _ _ _ _ _ Hg Ht' Hdisj) as (_ & _ & Hsame).
    by eapply lookup_is_table.
  - by apply run_default in Hrun as ->.
Qed.

(** ** Copy construction and copy assignment *)

Lemma fill_from_spec t0 h t1 cs1 :
  is_table h t1 cs1 →
  ∃ s2 cs2,
    (allocateTableAndMutexes (_size t1) ;; insert_from t1) (mkState t0 h) = Ok tt s2 ∧
    repr s2 cs2 ∧ _size (this s2) = _size t1 ∧
    footprint cs2 ## dom h ∧
    (∀ l, l ∈ dom h → mem s2 !! l = h !! l) ∧
    kvs cs2 = foldl (insert_kv (_size t1)) (replicate (length cs1) []) (entries cs1).
Proof.
  intros [Hr1|[-> ->]].
  - pose proof (repr_size _ _ _ Hr1) as Hn.
    pose proof (repr_length _ _ _ Hr1) as Hlen.
    erewrite bind_Ok by (by apply allocate_spec).
    destruct (insert_from_loop (length cs1) 0 (mkState (empty_table (_size t1)) h)
                (replicate (N.to_nat (_size t1)) []) t1 cs1)
      as (s2 & cs2 & Hrun & Hr2 & (Hsz & Hf & Hk) & Hkv);
      [by apply empty_table_repr|done|done| |done|].
    { rewrite footprint_replicate. set_solver. }
    exists s2, cs2. rewrite footprint_replicate in Hf, Hk. cbn [mem] in Hf, Hk.
    split_and!; [|done|done|set_solver| |].
    + unfold insert_from, for_unsigned. rewrite decide_True by done.
      by replace (N.to_nat (_size t1)) with (length cs1) by lia.
    + intros l Hl. apply Hk; [done | set_solver].
    + rewrite Hkv, drop_0, firstn_all. unfold kvs. rewrite fmap_replicate.
      by replace (N.to_nat (_size t1)) with (length cs1) by lia.
  - exists (mkState (empty_table 0) h), []. cbn [HashMap_default _size].
    erewrite bind_Ok by (by apply allocate_spec).
    split_and!; [done|by apply (empty_table_repr 0)|done| |done|done].
    unfold footprint. cbn. set_solver.
Qed.

Lemma fill_independent t0 h t1 cs1 :
  is_table h t1 cs1 → placed (_size t1) cs1 → unique_keys cs1 →
  ∃ s2,
    (allocateTableAndMutexes (_size t1) ;; insert_from t1) (mkState t0 h) = Ok tt s2 ∧
    independent_copy t1 cs1 h s2.
Proof.
  intros Ht1 Hp Hu.
  destruct (fill_from_spec t0 h t1 cs1 Ht1)
    as (s2 & cs2 & Hrun & Hr2 & Hsz & Hnew & Hold & Hkv).
  rewrite refill_table in Hkv by done.
  pose proof (is_table_footprint_dom _ _ _ Ht1) as Hfd1.
  assert (∀ l, l ∈ footprint cs1 → mem s2 !! l = h !! l) as Hsame.
  { intros l Hl. apply Hold. set_solver. }
  assert (is_table (mem s2) t1 cs1) as Ht1'.
  { destruct Ht1 as [Hr1|?]; [left|by right]. by eapply table_repr_frame. }
  assert (footprint cs2 ## footprint cs1) as Hdisj by set_solver.
  assert (∀ k, result (lookup k (mkState t1 (mem s2)))
               = result (lookup k (mkState t1 h))) as Hlk1.
  { intros k. by eapply lookup_is_table. }
  exists s2. split; [done|]. split_and!; [done|by exists cs2| | |].
  - intros k. destruct (decide (_size t1 = 0)) as [Hz|Hnz].
    + unfold lookup. rewrite !bind_Undefined; [done|by apply hash_zero|].
      apply hash_zero. by rewrite Hsz.
    + destruct Ht1 as [Hr1|[-> _]]; [|done].
      rewrite (lookup_result s2 cs2), (lookup_result (mkState t1 h) cs1);
        [|done|cbn; lia|done|lia].
      cbn [this _size]. by rewrite Hsz, (content_kvs _ _ _ _ Hkv).
  - intros ops s1' k Hops Hrun1.
    rewrite (independence (mem s2) t1 cs1 (this s2) cs2 ops s1' k);
      [by destruct s2|done|by left|done|done|done].
  - intros ops s2' k Hops Hrun2. rewrite <- Hlk1.
    apply (independence (mem s2) (this s2) cs2 t1 cs1 ops s2' k);
      [by left|done|done|done|by destruct s2].
Qed.

Lemma independent_copy_store t1 cs1 h h' s2 :
  (∀ k, result (lookup k (mkState t1 h')) = result (lookup k (mkState t1 h))) →
  independent_copy t1 cs1 h' s2 → independent_copy t1 cs1 h s2.
Proof.
  intros Hlk (Hsz & Hcs & Hsame & Hto & Hfrom).
  split_and!; [done|done| |done|].
  - intros k. by rewrite Hsame.
  - intros ops s2' k Hops Hrun. rewrite <- Hlk. by eapply Hfrom.
Qed.

(** C8: a table [t1] that satisfies the invariants of the data model is
    copied by the copy constructor, and by the copy assignment operator into
    another table object, to a table with the same capacity and the same
    entries, so that [lookup] gives on the copy what it gives on [t1];
    afterwards no sequence of [insert] and [remove] calls on one of the two
    tables changes what [lookup] gives on the other, for any key. *)
Theorem copy_independence h t1 cs1 t0 cs0 :
  is_table h t1 cs1 → placed (_size t1) cs1 → unique_keys cs1 →
  is_table h t0 cs0 → footprint cs0 ## footprint cs1 →
  ∃ s2 s2',
    HashMap_copy t1 h = Ok tt s2 ∧ independent_copy t1 cs1 h s2 ∧
    copy_assign false t1 (mkState t0 h) = Ok tt s2' ∧ independent_copy t1 cs1 h s2'.
Proof.
  intros Ht1 Hp Hu Ht0 Hdisj.
  destruct (fill_independent raw h t1 cs1 Ht1 Hp Hu) as (s2 & Hcopy & Hind).
  exists s2.
  assert (∃ t0' h', destroyTableAndMutexes (mkState t0 h) = Ok tt (mkState t0' h') ∧
                    ∀ l, l ∈ footprint cs1 → h' !! l = h !! l)
    as (t0' & h' & Hdestroy & Hsame).
  { destruct Ht0 as [Hr0|[-> ->]].
    - destruct (destroy_spec (mkState t0 h) cs0 Hr0) as (h' & Hd & Hh').
      eexists _, h'. split; [exact Hd|]. intros l Hl. rewrite Hh'.
      rewrite decide_False; [done | set_solver].
    - exists HashMap_default, h. split; [apply destroy_default | done]. }
  assert (is_table h' t1 cs1) as Ht1'.
  { destruct Ht1 as [Hr1|?]; [left|by right]. by eapply table_repr_frame. }
  destruct (fill_independent t0' h' t1 cs1 Ht1' Hp Hu) as (s2' & Hassign & Hind').
  exists s2'. split_and!; [done|done| |].
  - cbn [copy_assign]. erewrite bind_Ok by exact Hdestroy. exact Hassign.
  - eapply independent_copy_store; [|exact Hind'].
    intros k. by eapply lookup_is_table.
Qed.

(** ** Move construction and move assignment *)

Lemma HashMap_move_spec other :
  HashMap_move other = (other, HashMap_default).
Proof. by destruct other. Qed.

(** The statements of the move assignment operator release the elements
    the object held and move the fields of [other] into it. *)
Lemma move_assign_body_spec h t0 cs0 other :
  is_table h t0 cs0 →
  ∃ h',
    move_assign_body false other (mkState t0 h)
    = Ok HashMap_default (mkState other h') ∧
    (∀ l, l ∉ footprint cs0 → h' !! l = h !! l).
Proof.
  intros [Hr0|[-> ->]]; cbn [move_assign_body].
  - destruct (destroy_spec (mkState t0 h) cs0 Hr0) as (h' & Hd & Hh').
    exists h'. erewrite bind_Ok by exact Hd. split; [by destruct other|].
    intros l Hl. rewrite Hh'. by rewrite decide_False.
  - exists h. erewrite bind_Ok by apply destroy_default.
    split; [by destruct other | done].
Qed.

(** The operator itself never returns: after its statements, control
    flows off the end of a function that has to return a reference. *)
Lemma move_assign_no_return same other s a s' :
  move_assign same other s ≠ Ok a s'.
Proof.
  unfold move_assign, mbind, M_bind. by destruct (move_assign_body same other s).
Qed.

(** ** Advancing an iterator that is at the end *)

(** C10: for every table and every index, one call of [next] on an iterator
    whose current element is [nullptr] returns and leaves the iterator as it
    was, equal to [end()]; this holds for both iterator classes. *)
Theorem next_at_end (m : @state K V) (i : N) :
  Iterator_next m (mkIterator None i) = Ok tt (mkIterator None i) ∧
  Iterator_eq (mkIterator None i) end_ = true ∧
  HashMapIter_next m (mkHashMapIter None i) = Ok tt (mkHashMapIter None i) ∧
  HashMapIter_isEnd (mkHashMapIter None i) = true.
Proof. done. Qed.

(** ** Checking the predicates on a concrete state *)

Lemma NoDup_join_separate cs : NoDup (mjoin cs).*1 → separate cs.
Proof.
  induction cs as [|c cs IH]; intros Hnd.
  - split; [by intros ? ? ?|by intros ? ? ? ? ? ?].
  - cbn [mjoin list_join] in Hnd. rewrite fmap_app in Hnd.
    apply NoDup_app in Hnd as (Hc & Hdisj & Hcs).
    destruct (IH Hcs) as [IH1 IH2].
    assert (∀ j zs l, cs !! j = Some zs → l ∈ zs.*1 → l ∈ (mjoin cs).*1) as Hin.
    { intros j zs l Hj (z & -> & Hz)%list_elem_of_fmap.
      apply list_elem_of_fmap. exists z. split; [done|].
      apply list_elem_of_join. exists zs. split; [done|].
      by eapply list_elem_of_lookup_2. }
    split.
    + intros [|i] xs; cbn; [by intros [= <-] | by apply IH1].
    + intros [|i] [|j] xs zs l; cbn; intros Hi Hj Hl1 Hl2; simplify_eq.
      * done.
      * destruct (Hdisj l); eauto.
      * destruct (Hdisj l); eauto.
      * f_equal. by eapply IH2.
Qed.

Lemma check_placed_from n a cs i xs x :
  check_placed n a cs = true → cs !! i = Some xs → x ∈ xs →
  index n x.2.1 = N.of_nat (a + i).
Proof.
  revert a i. induction cs as [|c cs IH]; intros a i Hc Hi Hx; [done|].
  cbn [check_placed] in Hc. apply andb_true_iff in Hc as [Hc1 Hc2].
  destruct i as [|i]; cbn in Hi.
  - simplify_eq. rewrite forallb_forall in Hc1.
    apply list_elem_of_In in Hx. apply Hc1 in Hx.
    apply bool_decide_eq_true in Hx. by rewrite Nat.add_0_r.
  - rewrite (IH (S a) i) by done. f_equal. lia.
Qed.

Lemma check_placed_sound n cs : check_placed n 0 cs = true → placed n cs.
Proof. intros Hc i xs x Hi Hx. by apply (check_placed_from n 0 cs i xs x). Qed.

Section DecideProofs.

Context `{EqDecision V}.

Lemma check_repr_sound h t cs : check_repr h t cs = true → table_repr h t cs.
Proof.
  unfold check_repr. rewrite !andb_true_iff, !bool_decide_eq_true.
  intros [[[[[? ?] ?] ?] ?] ?]. split; try done. by apply NoDup_join_separate.
Qed.

Lemma check_unique_sound cs : check_unique cs = true → unique_keys cs.
Proof. apply bool_decide_eq_true. Qed.

End DecideProofs.

(** * Further properties of the member functions *)

(** ** Sized construction, and tables without capacity *)

Lemma entries_replicate (n : nat) : entries (K := K) (V := V) (replicate n []) = [].
Proof. unfold entries. induction n as [|n IH]; [done|]. by cbn. Qed.

Lemma content_None_first_with n cs k :
  content n cs k = None → first_with k (chain_of n cs k) = None.
Proof. unfold content. by intros ?%fmap_None. Qed.

(** X1: [HashMap(n)] with [0 < n < 2^32] returns without allocating an
    element, and gives a table of capacity [n] that holds no key: for every
    [k], [exists(k)] is false and [lookup(k)] and [remove(k)] throw
    [std::out_of_range], leaving the table as it is. *)
Theorem sized_is_empty n h k :
  0 < n → n < 2 ^ 32 →
  ∃ s, HashMap_sized n h = Ok tt s ∧ mem s = h ∧
       getSize s = Ok n s ∧
       exists_ k s = Ok false s ∧
       lookup k s = Throw "HashMap: key doesn't exists" s ∧
       remove k s = Throw "HashMap: key doesn't exists" s.
Proof.
  intros Hpos Hlt. destruct (HashMap_sized_spec n h Hlt) as [Hs Hr].
  eexists. split; [exact Hs|]. split; [done|]. split; [done|].
  assert (0 < _size (this (mkState (empty_table n) h))) as Hn by done.
  pose proof (content_absent n (replicate (N.to_nat n) []) k) as Hc.
  rewrite entries_replicate in Hc. specialize (Hc ltac:(set_solver)).
  split_and!.
  - rewrite (exists_content _ _ _ Hr Hn). cbn [this _size empty_table].
    rewrite Hc. done.
  - rewrite (lookup_content _ _ _ Hr Hn). cbn [this _size empty_table].
    by rewrite Hc.
  - pose proof (remove_spec _ _ k Hr Hn) as Hrm. cbn zeta in Hrm.
    cbn [this _size empty_table] in Hrm.
    by rewrite (content_None_first_with _ _ _ Hc) in Hrm.
Qed.

(** X2: on a table of capacity 0, which is what the default constructor,
    [HashMap(0)] and a move leave, [insert], [lookup], [exists] and
    [remove] all compute [hashFunctor(key) % 0]: none of them has a defined
    result, whatever the key. *)
Theorem zero_capacity s k v :
  _size (this s) = 0 →
  insert k v s = Undefined ∧ lookup k s = Undefined ∧
  exists_ k s = Undefined ∧ remove k s = Undefined.
Proof.
  intros Hz. unfold insert, lookup, exists_, remove.
  by rewrite !(bind_Undefined _ _ _ (hash_zero k s Hz)).
Qed.

(** ** Reading the table *)

(** X3: on a table with capacity > 0, [exists(k)] returns and leaves the
    table as it is; it returns true exactly when [lookup(k)] returns a
    value, and false exactly when [lookup(k)] throws; [lookup] leaves the
    table as it is in both cases. *)
Theorem exists_iff_lookup s cs k :
  repr s cs → 0 < _size (this s) →
  ∃ b, exists_ k s = Ok b s ∧
       match b with
       | true => ∃ v, lookup k s = Ok v s
       | false => lookup k s = Throw "HashMap: key doesn't exists" s
       end.
Proof.
  intros Hr Hn. rewrite (exists_spec s cs k Hr Hn), (lookup_spec s cs k Hr Hn).
  destruct (first_with k (chain_of (_size (this s)) cs k)) as [x|].
  - exists true. split; [by rewrite bool_decide_eq_true_2|]. by exists x.2.2.
  - exists false. split; [|done].
    rewrite bool_decide_eq_false_2; [done|]. by intros [? ?].
Qed.

(** ** insert followed by remove *)

Lemma lseg_agree h h' xs q l :
  lseg h xs q → lseg h' xs q → l ∈ xs.*1 → h !! l = h' !! l.
Proof.
  induction xs as [|x xs IH]; csimpl; [by intros _ _ ?%elem_of_nil|].
  intros [Hx Hl] [Hx' Hl'] Hin.
  destruct (decide (l = x.1)) as [->|Hne]; [by rewrite Hx, Hx'|].
  apply IH; [done..|]. apply elem_of_cons in Hin as [?|?]; done.
Qed.

Lemma upsert_absent l k v xs :
  first_with k xs = None → upsert l k v xs = xs ++ [(l, (k, v))].
Proof.
  induction xs as [|x xs IH]; csimpl; [done|].
  case_decide; [done|]. intros ?. by rewrite IH.
Qed.

Lemma table_repr_this h h' t t' cs :
  table_repr h t cs → table_repr h' t' cs → t = t'.
Proof.
  intros [_ Hl Ht Hm _ _] [_ Hl' Ht' Hm' _ _]. destruct t, t'; cbn in *.
  congruence.
Qed.

(** X4: when [exists(k)] is false on a table with capacity > 0,
    [insert(k, v)] followed by [remove(k)] returns and gives back exactly
    the state before the two calls: the same table object and the same
    element store, with the element that [insert] allocated released. *)
Theorem insert_remove_restores s cs k v :
  repr s cs → 0 < _size (this s) → exists_ k s = Ok false s →
  ∃ s1, insert k v s = Ok tt s1 ∧ remove k s1 = Ok tt s.
Proof.
  intros Hr Hn Hex. rewrite (exists_spec s cs k Hr Hn) in Hex.
  assert (first_with k (chain_of (_size (this s)) cs k) = None) as Habs.
  { destruct (first_with _ _) eqn:E; [|done].
    rewrite bool_decide_eq_true_2 in Hex by eauto. done. }
  destruct (insert_spec s cs k v Hr Hn) as (s1 & Hi & Hr1 & Hsz1 & Hfr1 & _ & _).
  cbn zeta in *. exists s1. split; [done|].
  set (n := _size (this s)) in *. set (l := fresh (dom (mem s))) in *.
  set (xs := chain_of n cs k) in *.
  pose proof (index_in_range s cs k Hr Hn) as Hi_lt. fold n in Hi_lt.
  pose proof (chain_of_lookup s cs k Hr Hn) as Hxs. fold n xs in Hxs.
  rewrite (upsert_absent l k v xs Habs) in Hr1.
  assert (0 < _size (this s1)) as Hn1 by (by rewrite Hsz1).
  pose proof (remove_spec s1 _ k Hr1 Hn1) as Hrm. cbn zeta in Hrm.
  rewrite Hsz1 in Hrm. rewrite chain_of_insert in Hrm by done.
  rewrite decide_True in Hrm by done.
  apply first_with_None in Habs.
  rewrite (first_with_app k xs (l, (k, v)) []) in Hrm by done.
  rewrite (remove_first_app k xs (l, (k, v)) []) in Hrm by done.
  rewrite app_nil_r, list_insert_insert_eq, (list_insert_id cs _ xs) in Hrm by done.
  destruct Hrm as (s2 & Hrm & Hr2 & _ & _ & Hl & Hfr2 & _). cbn [fst] in Hl.
  rewrite Hrm. f_equal. destruct s2 as [t2 h2], s as [t h]. cbn [this mem] in *.
  f_equal; [by eapply table_repr_this|].
  apply map_eq. intros l'.
  destruct (decide (l' = l)) as [->|Hne].
  { rewrite Hl. symmetry. apply (not_elem_of_dom (D := gset loc)).
    apply is_fresh. }
  destruct (decide (l' ∈ xs.*1)) as [Hin|Hnin].
  { eapply lseg_agree; [| |exact Hin].
    - by eapply (repr_chain_linked h2 t2 cs).
    - by eapply (repr_chain_linked h t cs). }
  rewrite Hfr2; [by apply Hfr1|].
  rewrite fmap_app. cbn. rewrite elem_of_app, list_elem_of_singleton. tauto.
Qed.

(** ** The destructor *)

Lemma destroy_is_table h t cs :
  is_table h t cs →
  ∃ s', destroyTableAndMutexes (mkState t h) = Ok tt s' ∧
        _size (this s') = 0 ∧
        (∀ l, mem s' !! l = if decide (l ∈ footprint cs) then None else h !! l).
Proof.
  intros [Hr| [-> ->]].
  - destruct (destroy_spec (mkState t h) cs Hr) as (h' & Hd & Hh').
    eexists. split; [exact Hd|]. by split.
  - eexists. split; [apply destroy_default|]. split; [done|].
    intros l. rewrite decide_False; [done|]. apply not_elem_of_empty.
Qed.

(** X5: [destroyTableAndMutexes], which is all the destructor runs,
    returns on every table object; it releases every element of the table
    and no other element, and leaves the capacity 0.  On a
    default-constructed or moved-from object the store stays as it is. *)
Theorem destroy_frees h t cs :
  is_table h t cs →
  ∃ s', destroyTableAndMutexes (mkState t h) = Ok tt s' ∧
        getSize s' = Ok 0 s' ∧
        dom (mem s') = dom h ∖ footprint cs ∧
        (∀ l, l ∉ footprint cs → mem s' !! l = h !! l).
Proof.
  intros Ht. destruct (destroy_is_table h t cs Ht) as (s' & Hd & Hsz & Hh').
  exists s'. split; [exact Hd|]. split; [unfold getSize; by rewrite Hsz|]. split.
  - apply set_eq. intros l. rewrite elem_of_difference, !elem_of_dom, Hh'.
    case_decide; [|tauto]. split; [by intros [? ?]|tauto].
  - intros l Hl. by rewrite Hh', decide_False.
Qed.

(** X6: after copy construction, the destructor of either table leaves
    the other one whole: destroying the copy keeps every element of the
    original, and destroying the original keeps every element of the copy,
    so that [lookup] gives on the surviving table what it gave before. *)
Theorem destroy_after_copy h t1 cs1 :
  is_table h t1 cs1 →
  ∃ s2 s3 s3',
    HashMap_copy t1 h = Ok tt s2 ∧
    destroyTableAndMutexes s2 = Ok tt s3 ∧
    is_table (mem s3) t1 cs1 ∧
    (∀ k, result (lookup k (mkState t1 (mem s3)))
          = result (lookup k (mkState t1 h))) ∧
    destroyTableAndMutexes (mkState t1 (mem s2)) = Ok tt s3' ∧
    (∀ k, result (lookup k (mkState (this s2) (mem s3')))
          = result (lookup k s2)).
Proof.
  intros Ht1.
  destruct (fill_from_spec raw h t1 cs1 Ht1)
    as (s2 & cs2 & Hc & Hr2 & _ & Hdisj & Hsame & _).
  pose proof (is_table_footprint_dom h t1 cs1 Ht1) as Hfp1.
  assert (∀ l, l ∈ footprint cs1 → mem s2 !! l = h !! l) as Hsame1.
  { intros l Hl. apply Hsame. set_solver. }
  assert (is_table (mem s2) t1 cs1) as Ht1'.
  { destruct Ht1 as [Hr1|?]; [left|by right].
    by eapply table_repr_frame. }
  destruct (destroy_is_table (mem s2) (this s2) cs2) as (s3 & Hd & _ & Hk).
  { left. exact Hr2. }
  destruct (destroy_is_table (mem s2) t1 cs1 Ht1') as (s3' & Hd' & _ & Hk').
  exists s2, s3, s3'.
  assert (∀ l, l ∈ footprint cs1 → mem s3 !! l = h !! l) as Hsame3.
  { intros l Hl. rewrite Hk, decide_False; [by apply Hsame1|]. set_solver. }
  split; [exact Hc|]. split; [by destruct s2|]. split_and!.
  - destruct Ht1 as [Hr1|?]; [left|by right].
    by eapply table_repr_frame.
  - intros k. by apply (lookup_is_table h (mem s3) t1 cs1).
  - exact Hd'.
  - intros k. destruct s2 as [t2 h2]. cbn [this mem] in *.
    apply (lookup_is_table h2 (mem s3') t2 cs2); [by left|].
    intros l Hl. rewrite Hk', decide_False; [done|]. set_solver.
Qed.

(** ** The table as a finite map, over any sequence of calls *)

Lemma map_after_cons o ops (f : K → option V) :
  map_after (o :: ops) f = map_after ops (map_step o f).
Proof. done. Qed.

Lemma map_after_ext ops (f g : K → option V) k :
  (∀ k', f k' = g k') → map_after ops f k = map_after ops g k.
Proof.
  revert f g. induction ops as [|o ops IH]; intros f g Hfg; [apply Hfg|].
  rewrite !map_after_cons. apply IH. intros k'.
  destruct o; cbn; [| |done]; by rewrite Hfg.
Qed.

Lemma run_map_after ops s cs :
  repr s cs → 0 < _size (this s) → unique_keys cs → Forall mutation ops →
  ∃ s' cs', run ops s = Ok tt s' ∧ repr s' cs' ∧ unique_keys cs' ∧
            _size (this s') = _size (this s) ∧
            ∀ k, content (_size (this s)) cs' k
                 = map_after ops (content (_size (this s)) cs) k.
Proof.
  intros Hr Hn Hu Hops. revert s cs Hr Hn Hu.
  induction Hops as [|o ops Ho _ IH]; intros s cs Hr Hn Hu.
  { exists s, cs. by split_and!. }
  pose proof (index_in_range s cs) as Hlt.
  destruct o as [k v|k|m]; [| |done]; cbn [run apply_op].
  - destruct (insert_spec s cs k v Hr Hn) as (s1 & -> & Hr1 & Hsz1 & _).
    cbn zeta in *.
    destruct (IH s1 _ Hr1) as (s' & cs' & Hrun & Hr' & Hu' & Hsz' & Hc).
    { by rewrite Hsz1. }
    { by apply unique_keys_upsert. }
    exists s', cs'. rewrite Hsz1 in *. split_and!; [done..|].
    intros k'. rewrite Hc, map_after_cons. apply map_after_ext. intros k''.
    by apply content_insert, Hlt.
  - pose proof (remove_spec s cs k Hr Hn) as Hrm. cbn zeta in Hrm.
    destruct (first_with k (chain_of (_size (this s)) cs k)) as [x|] eqn:Hfw.
    + destruct Hrm as (s1 & -> & Hr1 & Hsz1 & _).
      destruct (IH s1 _ Hr1) as (s' & cs' & Hrun & Hr' & Hu' & Hsz' & Hc).
      { by rewrite Hsz1. }
      { by apply unique_keys_remove_first. }
      exists s', cs'. rewrite Hsz1 in *. split_and!; [done..|].
      intros k'. rewrite Hc, map_after_cons. apply map_after_ext.
      intros k''. cbn. case_decide as Hk; [subst k''|].
      * apply content_remove_eq; [by apply Hlt|done].
      * apply content_remove_ne; [by apply Hlt|done].
    + rewrite Hrm.
      destruct (IH s cs Hr Hn Hu) as (s' & cs' & Hrun & Hr' & Hu' & Hsz' & Hc).
      exists s', cs'. split_and!; [done..|].
      intros k'. rewrite Hc, map_after_cons. apply map_after_ext.
      intros k''. cbn. case_decide as Hk; [subst k''|done].
      unfold content. by rewrite Hfw.
Qed.

(** X7: starting from [HashMap(n)] with [0 < n < 2^32], every sequence of
    [insert] and [remove] calls (a thrown [std::out_of_range] caught)
    returns, keeps the capacity [n] however many entries there are, and
    leaves a table that behaves as the finite map built by the same calls:
    [lookup(k)] returns the value the map gives to [k] and throws when the
    map has no [k]; [exists(k)] tells whether the map has [k]. *)
Theorem run_refines_map n h ops :
  0 < n → n < 2 ^ 32 → Forall mutation ops →
  ∃ s0 s,
    HashMap_sized n h = Ok tt s0 ∧ run ops s0 = Ok tt s ∧
    getSize s = Ok n s ∧
    ∀ k, lookup k s
         = match map_after ops (λ _, None) k with
           | Some v => Ok v s
           | None => Throw "HashMap: key doesn't exists" s
           end ∧
         exists_ k s = Ok (bool_decide (is_Some (map_after ops (λ _, None) k))) s.
Proof.
  intros Hpos Hlt Hops. destruct (HashMap_sized_spec n h Hlt) as [Hs Hr].
  destruct (run_map_after ops _ _ Hr) as (s & cs & Hrun & Hr' & _ & Hsz & Hc);
    [done| |done|].
  { apply Forall_forall. intros xs [-> _]%elem_of_replicate. constructor. }
  cbn [this _size empty_table] in Hsz, Hc.
  eexists _, s. split; [exact Hs|]. split; [exact Hrun|].
  split; [unfold getSize; by rewrite Hsz|].
  assert (0 < _size (this s)) as Hn by (by rewrite Hsz).
  intros k. rewrite (lookup_content s cs k Hr' Hn), (exists_content s cs k Hr' Hn).
  rewrite Hsz, Hc.
  rewrite (map_after_ext ops _ (λ _, None)); [done|].
  intros k'. apply content_absent. rewrite entries_replicate.
  apply not_elem_of_nil.
Qed.

(** ** The chains of a state *)

Lemma walk_spec fuel h xs :
  linked h xs → (length xs ≤ fuel)%nat → walk fuel h (head_ptr xs) = xs.
Proof.
  unfold linked. revert fuel. induction xs as [|x xs IH]; intros fuel Hl Hf.
  { by destruct fuel. }
  destruct Hl as [Hx Hl]. cbn in Hf. destruct fuel as [|fuel]; [lia|].
  cbn [head_ptr ptr_to walk]. rewrite Hx. cbn [key value next].
  change (ptr_to xs None) with (head_ptr xs). rewrite IH by (done || lia).
  by destruct x as [? [? ?]].
Qed.

(** The chains of a represented table are those that [chains] reads off
    the state. *)
Lemma chains_repr s cs : repr s cs → chains s = cs.
Proof.
  intros Hr. unfold chains. rewrite (repr_table _ _ _ Hr), <- list_fmap_compose.
  apply list_eq. intros i. rewrite list_lookup_fmap.
  destruct (cs !! i) as [xs|] eqn:Hi; [|done]. cbn. f_equal.
  apply walk_spec; [by eapply repr_chain_linked|by eapply repr_chain_fuel].
Qed.

(** X8: a call of [insert] or [remove] for key [k] on a table with
    capacity > 0 works on the chain of bucket [hash(k)] only: the capacity
    and the chain of every other bucket, element by element, are after the
    call what they were before. *)
Theorem mutation_is_local s cs k v :
  repr s cs → 0 < _size (this s) →
  let i := N.to_nat (index (_size (this s)) k) in
  (∃ s', insert k v s = Ok tt s' ∧ _size (this s') = _size (this s) ∧
         ∀ j, j ≠ i → chains s' !! j = chains s !! j) ∧
  (∀ s', remove k s = Ok tt s' →
         _size (this s') = _size (this s) ∧
         ∀ j, j ≠ i → chains s' !! j = chains s !! j).
Proof.
  intros Hr Hn i. rewrite (chains_repr s cs Hr). split.
  - destruct (insert_spec s cs k v Hr Hn) as (s' & Hi & Hr' & Hsz & _).
    cbn zeta in *. exists s'. split; [done|]. split; [done|].
    intros j Hj. rewrite (chains_repr s' _ Hr').
    by rewrite list_lookup_insert_ne.
  - intros s' Hrm. pose proof (remove_spec s cs k Hr Hn) as Hsp.
    cbn zeta in Hsp.
    destruct (first_with k (chain_of (_size (this s)) cs k)); [|congruence].
    destruct Hsp as (s1 & Hrm1 & Hr' & Hsz & _).
    rewrite Hrm in Hrm1. injection Hrm1 as <-. split; [done|].
    intros j Hj. rewrite (chains_repr s' _ Hr').
    by rewrite list_lookup_insert_ne.
Qed.

(** ** insert of a key that the table holds *)

(** Only the value field of the element of [k] is assigned. *)
Lemma insert_present s cs k v pre x post :
  repr s cs → 0 < _size (this s) →
  chain_of (_size (this s)) cs k = pre ++ x :: post →
  Forall (λ y, y.2.1 ≠ k) pre → x.2.1 = k →
  insert k v s = Ok tt (set_mem <[x.1 := mkElement x.2.1 v (head_ptr post)]> s).
Proof.
  intros Hr Hpos Hc Hpre Hx.
  pose proof (chain_of_lookup s cs k Hr Hpos) as Hxs.
  pose proof (repr_chain_linked _ _ _ _ _ Hr Hxs) as Hl.
  pose proof (repr_chain_NoDup _ _ _ _ _ Hr Hxs) as Hnd.
  unfold insert.
  erewrite bind_Ok by (by eapply hash_repr).
  erewrite bind_Ok by (eapply lock_guard_repr; [done | by apply index_lt]).
  erewrite bind_Ok by (by eapply read_bucket_repr).
  rewrite Hc in *.
  destruct (head_ptr (pre ++ x :: post)) as [l0|] eqn:Hh; [|by destruct pre].
  pose proof Hl as [Hlpre Hlx]%lseg_app.
  erewrite bind_Ok; cycle 1.
  { unfold with_fuel. eapply find_last_spec; eauto.
    pose proof (lseg_length _ _ _ Hl Hnd) as Hlen.
    rewrite length_app in Hlen. lia. }
  erewrite bind_Ok by (eapply deref_lseg; exact Hlx). simpl.
  rewrite decide_True by done.
  unfold store. by destruct Hlx as [-> _].
Qed.

(** X9: on a table with capacity > 0, [insert(k, v)] returns, and a second
    [insert(k, v)] right after it returns leaving table and store exactly as
    the first call left them: no element is allocated and no link changes. *)
Theorem insert_twice s cs k v :
  repr s cs → 0 < _size (this s) →
  ∃ s1, insert k v s = Ok tt s1 ∧ insert k v s1 = Ok tt s1.
Proof.
  intros Hr Hn.
  destruct (insert_spec s cs k v Hr Hn) as (s1 & Hi & Hr1 & Hsz1 & _).
  cbn zeta in *. exists s1. split; [done|].
  assert (0 < _size (this s1)) as Hn1 by (by rewrite Hsz1).
  pose proof (index_in_range s cs k Hr Hn) as Hlt.
  destruct (upsert_first_with (fresh (dom (mem s))) k v
              (chain_of (_size (this s)) cs k)) as [l' Hfw].
  apply first_with_Some in Hfw as (pre & post & Hsplit & Hpre & Hx).
  set (cs1 := <[_ := _]> cs) in Hr1.
  assert (chain_of (_size (this s1)) cs1 k = pre ++ (l', (k, v)) :: post) as Hc.
  { unfold cs1. rewrite Hsz1, chain_of_insert, decide_True by done.
    exact Hsplit. }
  rewrite (insert_present s1 _ k v pre (l', (k, v)) post Hr1 Hn1 Hc Hpre Hx).
  pose proof (chain_of_lookup s1 _ k Hr1 Hn1) as Hxs. rewrite Hc in Hxs.
  pose proof (repr_chain_linked _ _ _ _ _ Hr1 Hxs) as [_ [Hl _]]%lseg_app.
  destruct s1 as [t1 h1]. unfold set_mem. cbn [this mem fst snd] in *.
  by rewrite insert_id.
Qed.

(** ** The elements a table holds *)

Lemma separate_NoDup cs : separate cs → NoDup (mjoin cs).*1.
Proof.
  induction cs as [|c cs IH]; intros [Hnd Hsep]; [constructor|].
  cbn [mjoin list_join]. rewrite fmap_app. apply NoDup_app. split_and!.
  - by apply (Hnd 0%nat c).
  - intros l Hl (z & -> & Hz)%list_elem_of_fmap.
    apply list_elem_of_join in Hz as (zs & Hz & Hzs).
    apply list_elem_of_lookup in Hzs as [j Hj].
    assert (0%nat = S j) as Hbad; [|done].
    apply (Hsep 0%nat (S j) c zs z.1); [done|done|done|].
    apply list_elem_of_fmap. by exists z.
  - apply IH. split.
    + intros i xs Hi. by apply (Hnd (S i) xs).
    + intros i j xs zs l Hi Hj Hl1 Hl2.
      assert (S i = S j) as [= ->]; [|done].
      by apply (Hsep (S i) (S j) xs zs l).
Qed.

Lemma elem_of_footprint_insert cs i ys l :
  (i < length cs)%nat →
  l ∈ footprint (<[i := ys]> cs)
  ↔ l ∈ ys.*1 ∨ ∃ j zs, j ≠ i ∧ cs !! j = Some zs ∧ l ∈ zs.*1.
Proof.
  intros Hi. rewrite elem_of_footprint. split.
  - intros (j & zs & Hj & Hl). destruct (decide (j = i)) as [->|Hne].
    + rewrite list_lookup_insert_eq in Hj by done. left. by simplify_eq.
    + rewrite list_lookup_insert_ne in Hj by done. right. eauto.
  - intros [Hl|(j & zs & Hne & Hj & Hl)].
    + exists i, ys. by rewrite list_lookup_insert_eq.
    + exists j, zs. by rewrite list_lookup_insert_ne.
Qed.

Lemma elem_of_footprint_at cs i xs l :
  cs !! i = Some xs →
  l ∈ footprint cs
  ↔ l ∈ xs.*1 ∨ ∃ j zs, j ≠ i ∧ cs !! j = Some zs ∧ l ∈ zs.*1.
Proof.
  intros Hi. rewrite <- (list_insert_id cs i xs Hi) at 1.
  apply elem_of_footprint_insert. by eapply lookup_lt_Some.
Qed.

Lemma footprint_same_locs cs i xs ys :
  cs !! i = Some xs → ys.*1 = xs.*1 → footprint (<[i := ys]> cs) = footprint cs.
Proof.
  intros Hi Heq. apply set_eq. intros l.
  rewrite elem_of_footprint_insert by (by eapply lookup_lt_Some).
  by rewrite (elem_of_footprint_at cs i xs l Hi), Heq.
Qed.

Lemma footprint_snoc cs i xs y :
  cs !! i = Some xs →
  footprint (<[i := xs ++ [y]]> cs) = footprint cs ∪ {[y.1]}.
Proof.
  intros Hi. apply set_eq. intros l.
  rewrite elem_of_footprint_insert by (by eapply lookup_lt_Some).
  rewrite elem_of_union, (elem_of_footprint_at cs i xs l Hi).
  rewrite fmap_app, elem_of_app. cbn. rewrite list_elem_of_singleton.
  rewrite elem_of_singleton. tauto.
Qed.

Lemma footprint_unlink cs i pre x post :
  separate cs → cs !! i = Some (pre ++ x :: post) →
  footprint (<[i := pre ++ post]> cs) = footprint cs ∖ {[x.1]}.
Proof.
  intros Hsep Hi. apply set_eq. intros l.
  rewrite elem_of_footprint_insert by (by eapply lookup_lt_Some).
  rewrite elem_of_difference, (elem_of_footprint_at cs i _ l Hi).
  rewrite !fmap_app, fmap_cons, !elem_of_app, elem_of_cons, elem_of_singleton.
  pose proof (NoDup_middle pre post x) as Hmid.
  destruct Hsep as [Hnd Hother]. specialize (Hmid (Hnd _ _ Hi)) as [Hp1 Hp2].
  split.
  - intros [[?|?]|(j & zs & Hne & Hj & Hl)].
    + split; [tauto|]. by intros ->.
    + split; [tauto|]. by intros ->.
    + split; [eauto 10|]. intros ->. apply Hne.
      apply (Hother j i zs (pre ++ x :: post) x.1); [done..|].
      rewrite fmap_app, fmap_cons. set_solver.
  - intros [[[?|[?|?]]|?] Hne]; tauto.
Qed.

(** One call keeps the account: the live elements are those of the store
    [h], as they were, and those of the chains. *)
Lemma step_accounts h o s s' cs :
  repr s cs → 0 < _size (this s) →
  dom (mem s) = dom h ∪ footprint cs → footprint cs ## dom h →
  (∀ l, l ∈ dom h → mem s !! l = h !! l) →
  mutation o →
  apply_op o s = Ok tt s' ∨ (∃ w, apply_op o s = Throw w s') →
  ∃ cs', repr s' cs' ∧ _size (this s') = _size (this s) ∧
         dom (mem s') = dom h ∪ footprint cs' ∧ footprint cs' ## dom h ∧
         (∀ l, l ∈ dom h → mem s' !! l = h !! l).
Proof.
  intros Hr Hn Hdom Hdisj Hsame Ho Hstep.
  pose proof (chain_of_lookup s cs) as Hxs.
  destruct o as [k v|k|m]; [| |done]; cbn [apply_op] in Hstep.
  - destruct (insert_spec s cs k v Hr Hn) as (s1 & Hi & Hr1 & Hsz1 & Hfr & Hd1 & Hd2).
    cbn zeta in *. rewrite Hi in Hstep.
    destruct Hstep as [[= <-]|[w [=]]].
    specialize (Hxs k Hr Hn).
    set (n := _size (this s)) in *. set (l := fresh (dom (mem s))) in *.
    set (xs := chain_of n cs k) in *.
    assert (l ∉ dom (mem s)) as Hfresh by apply is_fresh.
    assert (∀ l', l' ∈ xs.*1 → l' ∈ footprint cs) as Hxs_fp.
    { intros l' Hl'. apply elem_of_footprint. eauto. }
    eexists. split; [exact Hr1|]. split; [done|].
    assert (∀ l', l' ∈ dom h → mem s1 !! l' = h !! l') as Hsame1.
    { intros l' Hl'. rewrite Hfr; [by apply Hsame| |]; set_solver. }
    destruct (upsert_cases l k v xs)
      as [(pre & x & post & Hsplit & Hpre & Hxk & Hup)|(Hall & Hup)].
    + rewrite (insert_present s cs k v pre x post Hr Hn Hsplit Hpre Hxk) in Hi.
      injection Hi as <-.
      rewrite (footprint_same_locs cs _ xs) by
        (done || (rewrite Hup, Hsplit, !fmap_app, !fmap_cons; done)).
      split_and!; [|done|done].
      cbn [mem set_mem]. rewrite dom_insert_L.
      assert (x.1 ∈ dom (mem s)); [|set_solver].
      rewrite Hdom. apply elem_of_union_r, Hxs_fp.
      rewrite Hsplit, fmap_app, fmap_cons. set_solver.
    + rewrite Hup in *. rewrite (footprint_snoc cs _ xs) by done.
      cbn [fst].
      assert (l ∈ dom (mem s1)).
      { apply (footprint_dom _ _ _ Hr1). rewrite (footprint_snoc cs _ xs) by done.
        set_solver. }
      split_and!; [set_solver|set_solver|done].
  - pose proof (remove_spec s cs k Hr Hn) as Hrm. cbn zeta in Hrm.
    specialize (Hxs k Hr Hn).
    set (n := _size (this s)) in *. set (xs := chain_of n cs k) in *.
    destruct (first_with k xs) as [x|] eqn:Hfw.
    + destruct Hrm as (s1 & Hrm & Hr1 & Hsz1 & _ & Hx & Hfr & Hd).
      rewrite Hrm in Hstep. destruct Hstep as [[= <-]|[w [=]]].
      apply first_with_Some in Hfw as (pre & post & Hsplit & Hpre & Hxk).
      rewrite Hsplit in *. rewrite remove_first_app in * by done.
      eexists. split; [exact Hr1|]. split; [done|].
      rewrite (footprint_unlink cs _ pre x post) by (done || apply Hr).
      assert (x.1 ∈ footprint cs) as Hxfp.
      { apply elem_of_footprint. eexists _, _. split; [exact Hxs|].
        rewrite fmap_app, fmap_cons. set_solver. }
      assert (∀ l', l' ∈ dom h → mem s1 !! l' = h !! l') as Hsame1.
      { intros l' Hl'. rewrite Hfr; [by apply Hsame|].
        intros Hin. apply (Hdisj l'); [|done].
        apply elem_of_footprint. eauto. }
      split_and!; [|set_solver|done].
      apply set_eq. intros l'. split.
      * intros Hl'. assert (l' ≠ x.1).
        { intros ->. apply elem_of_dom in Hl' as [? ?]. congruence. }
        set_solver.
      * intros [Hl'|Hl']%elem_of_union.
        -- apply elem_of_dom. rewrite Hsame1 by done. by apply elem_of_dom.
        -- apply (footprint_dom _ _ _ Hr1).
           by rewrite (footprint_unlink cs _ pre x post) by (done || apply Hr).
    + rewrite Hrm in Hstep. destruct Hstep as [[=]|[w [= _ <-]]].
      exists cs. by split_and!.
Qed.

Lemma run_accounts h ops s s' cs :
  repr s cs → 0 < _size (this s) →
  dom (mem s) = dom h ∪ footprint cs → footprint cs ## dom h →
  (∀ l, l ∈ dom h → mem s !! l = h !! l) →
  Forall mutation ops → run ops s = Ok tt s' →
  ∃ cs', repr s' cs' ∧
         dom (mem s') = dom h ∪ footprint cs' ∧ footprint cs' ## dom h ∧
         (∀ l, l ∈ dom h → mem s' !! l = h !! l).
Proof.
  intros Hr Hn Hdom Hdisj Hsame Hops. revert s cs Hr Hn Hdom Hdisj Hsame.
  induction Hops as [|o ops Ho _ IH]; intros s cs Hr Hn Hdom Hdisj Hsame Hrun.
  { injection Hrun as <-. exists cs. by split_and!. }
  cbn [run] in Hrun.
  assert (∃ s1, (apply_op o s = Ok tt s1 ∨ (∃ w, apply_op o s = Throw w s1))
                ∧ run ops s1 = Ok tt s') as (s1 & Hstep & Hrest).
  { destruct (apply_op o s) as [[] s1|w s1| |]; [| |done..].
    - exists s1. split; [by left|done].
    - exists s1. split; [right; by exists w|done]. }
  destruct (step_accounts h o s s1 cs Hr Hn Hdom Hdisj Hsame Ho Hstep)
    as (cs1 & Hr1 & Hsz1 & Hdom1 & Hdisj1 & Hsame1).
  apply (IH s1 cs1); [done| by rewrite Hsz1 |done..].
Qed.

(** X10: from [HashMap(n)] with [0 < n < 2^32], built in a store [h], any
    returning sequence of [insert] and [remove] calls (a thrown
    [std::out_of_range] caught) leaves as live elements exactly the
    elements of [h], untouched, and the elements of the chains, one for each
    entry of the table: what [remove] unlinks is released, and an [insert]
    of a key that is present allocates nothing. *)
Theorem no_leak n h ops s0 s :
  0 < n → Forall mutation ops →
  HashMap_sized n h = Ok tt s0 → run ops s0 = Ok tt s →
  dom (mem s) = dom h ∪ footprint (chains s) ∧
  footprint (chains s) ## dom h ∧
  size (footprint (chains s)) = length (entries (chains s)) ∧
  (∀ l, l ∈ dom h → mem s !! l = h !! l).
Proof.
  intros Hpos Hops [Hlt ->]%HashMap_sized_Ok Hrun.
  destruct (HashMap_sized_spec n h Hlt) as [_ Hr].
  destruct (run_accounts h ops _ s _ Hr) as (cs & Hr' & Hdom & Hdisj & Hsame);
    try done.
  { rewrite footprint_replicate. cbn [mem]. set_solver. }
  { rewrite footprint_replicate. set_solver. }
  rewrite (chains_repr s cs Hr'). split_and!; [done..| |done].
  unfold footprint, entries.
  rewrite size_list_to_set by (apply separate_NoDup, Hr').
  by rewrite !length_fmap.
Qed.

(** ** Iteration *)

Lemma peek_Ok {S A} (m m' : @state K V) (r : M (@state K V) A) a (it : S) :
  r m = Ok a m' → peek m r it = Ok a it.
Proof. unfold peek. by intros ->. Qed.

Lemma entries_cons (c : list (loc * (K * V))) cs :
  entries (c :: cs) = c.*2 ++ entries cs.
Proof. unfold entries. cbn [mjoin list_join]. by rewrite fmap_app. Qed.

Lemma entries_drop_S cs i xs :
  cs !! i = Some xs → entries (drop i cs) = xs.*2 ++ entries (drop (S i) cs).
Proof. intros Hi. by rewrite (drop_S cs xs i Hi), entries_cons. Qed.

Lemma entries_drop_all cs (i : nat) :
  (length cs ≤ i)%nat → entries (drop i cs) = [].
Proof. intros Hi. by rewrite drop_ge. Qed.

Lemma entries_drop_empty cs (a b : nat) :
  (a ≤ b)%nat → (∀ i, (a ≤ i < b)%nat → cs !! i = Some []) →
  entries (drop a cs) = entries (drop b cs).
Proof.
  intros Hab. induction Hab as [|b Hab IH]; [done|]. intros Hempty.
  rewrite IH by (intros i Hi; apply Hempty; lia).
  rewrite (entries_drop_S cs b []); [done|]. apply Hempty. lia.
Qed.

Lemma first_chain_drop cs (j : nat) :
  (∀ i, (i < j)%nat → cs !! i = Some []) → first_chain cs = first_chain (drop j cs).
Proof.
  revert cs. induction j as [|j IH]; intros cs Hempty; [done|].
  destruct cs as [|c cs]; [done|].
  assert (c = []) as ->.
  { specialize (Hempty 0%nat ltac:(lia)). cbn in Hempty. congruence. }
  cbn. apply IH. intros i Hi. apply (Hempty (S i)). lia.
Qed.

(** The scan for the next non-empty bucket stops at the first one from
    [idx] on, or at [size]. *)
Lemma skip_empty_spec {S} fuel m cs idx (it : S) :
  repr m cs → idx ≤ _size (this m) →
  (N.to_nat (_size (this m)) - N.to_nat idx ≤ fuel)%nat →
  ∃ j, skip_empty fuel m (_size (this m)) idx it = Ok j it ∧
       idx ≤ j ≤ _size (this m) ∧
       (∀ i, (N.to_nat idx ≤ i < N.to_nat j)%nat → cs !! i = Some []) ∧
       (j < _size (this m) → ∃ x xs, cs !! N.to_nat j = Some (x :: xs)).
Proof.
  intros Hr. pose proof (repr_size _ _ _ Hr) as Hsz.
  revert idx. induction fuel as [|fuel IH]; intros idx Hle Hfuel.
  - assert (idx = _size (this m)) as -> by lia.
    exists (_size (this m)). cbn [skip_empty]. rewrite decide_False by lia.
    split; [done|]. split; [lia|]. split; intros; lia.
  - cbn [skip_empty]. case_decide as Hlt; cycle 1.
    { assert (idx = _size (this m)) as -> by lia.
      exists (_size (this m)). split; [done|]. split; [lia|].
      split; intros; lia. }
    destruct (repr_chain _ _ _ idx Hr Hlt) as [xs Hxs].
    erewrite bind_Ok by (eapply peek_Ok, read_bucket_repr; done).
    destruct xs as [|x xs]; cbn [head_ptr ptr_to].
    + replace ((idx + 1) mod 2 ^ 32) with (idx + 1)
        by (symmetry; apply N.mod_small; lia).
      destruct (IH (idx + 1)) as (j & Hj & Hrange & Hempty & Hstop); [lia..|].
      exists j. split; [done|]. split; [lia|]. split; [|done].
      intros i Hi. destruct (decide (i = N.to_nat idx)) as [->|]; [done|].
      apply Hempty. lia.
    + exists idx. split; [done|]. split; [lia|]. split; [intros; lia|].
      intros _. eauto.
Qed.

Lemma land_on_spec {S} m cs j (it : S) :
  repr m cs → j ≤ _size (this m) →
  (j < _size (this m) → ∃ x xs, cs !! N.to_nat j = Some (x :: xs)) →
  land_on m (_size (this m)) j it
  = Ok (head_ptr (default [] (cs !! N.to_nat j))) it.
Proof.
  intros Hr Hle Hstop. unfold land_on. case_decide as Hlt.
  - destruct (Hstop Hlt) as (x & xs & Hj). rewrite Hj.
    eapply peek_Ok, read_bucket_repr; done.
  - rewrite lookup_ge_None_2; [done|].
    pose proof (repr_length _ _ _ Hr). lia.
Qed.

(** The loop of the older iterator, from an element [y] on: what is left of
    the chain of [y], then the chains of the buckets after [_idx]. *)
Lemma HashMapIter_visit_from fuel m cs (i : nat) y ys :
  repr m cs → lseg (mem m) (y :: ys) None → (i < length cs)%nat →
  (length (y :: ys) + length (entries (drop (S i) cs)) ≤ fuel)%nat →
  HashMapIter_visit fuel m (mkHashMapIter (Some y.1) (N.of_nat i))
  = Ok ((y :: ys).*2 ++ entries (drop (S i) cs))
       (mkHashMapIter None (_size (this m))).
Proof.
  intros Hr. pose proof (repr_size _ _ _ Hr) as Hsz.
  pose proof (repr_length _ _ _ Hr) as Hlen.
  revert i y ys. induction fuel as [|fuel IH]; intros i y ys Hl Hi Hfuel.
  { cbn in Hfuel. lia. }
  cbn [HashMapIter_visit]. unfold HashMapIter_isEnd, HashMapIter_getCurrent.
  cbn [_curr]. rewrite bool_decide_eq_false_2 by done.
  erewrite bind_Ok by (eapply peek_Ok, deref_lseg; exact Hl).
  cbn [key value]. destruct Hl as [Hy Hl].
  destruct ys as [|y' ys]; cbn [ptr_to] in Hy.
  - destruct (skip_empty_spec (N.to_nat (_size (this m))) m cs (N.of_nat (S i))
                (mkHashMapIter (Some y.1) (N.of_nat i)) Hr)
      as (j & Hj & Hrange & Hempty & Hstop); [lia..|].
    rewrite Nat2N.id in Hempty.
    erewrite bind_Ok; cycle 1.
    { unfold HashMapIter_next. cbn [_curr _idx].
      erewrite bind_Ok by (eapply peek_Ok; unfold deref; by rewrite Hy).
      cbn [next]. erewrite bind_Ok by done.
      replace ((N.of_nat i + 1) mod 2 ^ 32) with (N.of_nat (S i))
        by (rewrite N.mod_small; lia).
      erewrite bind_Ok by exact Hj.
      erewrite bind_Ok by (by eapply land_on_spec; [|lia|]).
      done. }
    rewrite (entries_drop_empty cs (S i) (N.to_nat j)) by (lia || done).
    destruct (decide (j < _size (this m))) as [Hlt|Hge].
    + destruct (Hstop Hlt) as (x & xs & Hjx). rewrite Hjx.
      cbn [default head_ptr ptr_to].
      rewrite (entries_drop_S cs _ _ Hjx).
      rewrite (entries_drop_empty cs (S i) (N.to_nat j)) in Hfuel by (lia || done).
      rewrite (entries_drop_S cs _ _ Hjx), length_app in Hfuel.
      rewrite length_fmap in Hfuel. cbn [length] in Hfuel.
      pose proof (repr_chain_linked _ _ _ _ _ Hr Hjx) as Hlx.
      erewrite bind_Ok; cycle 1.
      { rewrite <- (N2Nat.id j) at 1. apply (IH _ x xs); [done|lia|].
        cbn [length]. lia. }
      by destruct y as [? [? ?]].
    + assert (j = _size (this m)) as -> by lia.
      rewrite lookup_ge_None_2 by lia. rewrite entries_drop_all by lia.
      cbn [default head_ptr ptr_to]. destruct y as [? [? ?]]. by destruct fuel.
  - erewrite bind_Ok; cycle 1.
    { unfold HashMapIter_next. cbn [_curr _idx].
      erewrite bind_Ok by (eapply peek_Ok; unfold deref; by rewrite Hy).
      done. }
    cbn [next]. erewrite bind_Ok; cycle 1.
    { apply (IH i y' ys); [done|done|]. cbn [length] in *. lia. }
    by destruct y as [? [? ?]].
Qed.


(** The loop of the newer iterator, from an element [y] on: what is left of
    the chain of [y], then the chains of the buckets after [_index]. *)
Lemma Iterator_visit_from fuel m cs (i : nat) y ys :
  repr m cs → lseg (mem m) (y :: ys) None → (i < length cs)%nat →
  (length (y :: ys) + length (entries (drop (S i) cs)) ≤ fuel)%nat →
  Iterator_visit fuel m (mkIterator (Some y.1) (N.of_nat i))
  = Ok ((y :: ys).*2 ++ entries (drop (S i) cs))
       (mkIterator None (_size (this m))).
Proof.
  intros Hr. pose proof (repr_size _ _ _ Hr) as Hsz.
  pose proof (repr_length _ _ _ Hr) as Hlen.
  revert i y ys. induction fuel as [|fuel IH]; intros i y ys Hl Hi Hfuel.
  { cbn in Hfuel. lia. }
  cbn [Iterator_visit]. unfold Iterator_eq, end_, Iterator_at.
  cbn [_current]. rewrite bool_decide_eq_false_2 by done.
  erewrite bind_Ok by (eapply peek_Ok, deref_lseg; exact Hl).
  cbn [key value]. destruct Hl as [Hy Hl].
  destruct ys as [|y' ys]; cbn [ptr_to] in Hy.
  - destruct (skip_empty_spec (N.to_nat (_size (this m))) m cs (N.of_nat (S i))
                (mkIterator (Some y.1) (N.of_nat i)) Hr)
      as (j & Hj & Hrange & Hempty & Hstop); [lia..|].
    rewrite Nat2N.id in Hempty.
    erewrite bind_Ok; cycle 1.
    { unfold Iterator_next. cbn [_current _index].
      erewrite bind_Ok by (eapply peek_Ok; unfold deref; by rewrite Hy).
      cbn [next]. erewrite bind_Ok by done.
      replace ((N.of_nat i + 1) mod 2 ^ 32) with (N.of_nat (S i))
        by (rewrite N.mod_small; lia).
      erewrite bind_Ok by exact Hj.
      erewrite bind_Ok by (by eapply land_on_spec; [|lia|]).
      done. }
    rewrite (entries_drop_empty cs (S i) (N.to_nat j)) by (lia || done).
    destruct (decide (j < _size (this m))) as [Hlt|Hge].
    + destruct (Hstop Hlt) as (x & xs & Hjx). rewrite Hjx.
      cbn [default head_ptr ptr_to].
      rewrite (entries_drop_S cs _ _ Hjx).
      rewrite (entries_drop_empty cs (S i) (N.to_nat j)) in Hfuel by (lia || done).
      rewrite (entries_drop_S cs _ _ Hjx), length_app in Hfuel.
      rewrite length_fmap in Hfuel. cbn [length] in Hfuel.
      pose proof (repr_chain_linked _ _ _ _ _ Hr Hjx) as Hlx.
      erewrite bind_Ok; cycle 1.
      { rewrite <- (N2Nat.id j) at 1. apply (IH _ x xs); [done|lia|].
        cbn [length]. lia. }
      by destruct y as [? [? ?]].
    + assert (j = _size (this m)) as -> by lia.
      rewrite lookup_ge_None_2 by lia. rewrite entries_drop_all by lia.
      cbn [default head_ptr ptr_to]. destruct y as [? [? ?]]. by destruct fuel.
  - erewrite bind_Ok; cycle 1.
    { unfold Iterator_next. cbn [_current _index].
      erewrite bind_Ok by (eapply peek_Ok; unfold deref; by rewrite Hy).
      done. }
    cbn [next]. erewrite bind_Ok; cycle 1.
    { apply (IH i y' ys); [done|done|]. cbn [length] in *. lia. }
    by destruct y as [? [? ?]].
Qed.

Lemma first_chain_stop cs (j : nat) :
  (∀ i, (i < j)%nat → cs !! i = Some []) →
  (j < length cs → ∃ x xs, cs !! j = Some (x :: xs))%nat →
  (j ≤ length cs)%nat →
  first_chain cs = default [] (cs !! j).
Proof.
  intros Hempty Hstop Hle. rewrite (first_chain_drop cs j Hempty).
  destruct (decide (j < length cs)%nat) as [Hlt|Hge].
  - destruct (Hstop Hlt) as (x & xs & Hj). by rewrite (drop_S cs _ j Hj), Hj.
  - by rewrite drop_ge, lookup_ge_None_2 by lia.
Qed.

Lemma first_chain_nil cs : first_chain cs = [] ↔ entries cs = [].
Proof.
  induction cs as [|c cs IH]; [done|]. rewrite entries_cons.
  destruct c as [|x xs]; [done|]. cbn. split; intros; discriminate.
Qed.

Lemma first_chain_elem cs : first_chain cs ≠ [] → first_chain cs ∈ cs.
Proof.
  induction cs as [|c cs IH]; [done|]. destruct c as [|x xs]; cbn.
  - intros ?. right. by apply IH.
  - intros _. left.
Qed.

Lemma first_chain_head cs x xs :
  cs !! 0%nat = Some (x :: xs) → first_chain cs = x :: xs.
Proof. destruct cs as [|c cs]; [done|]. by intros [= ->]. Qed.

Lemma scan_from_0 {T} m cs (it : T) :
  repr m cs →
  ∃ j, skip_empty (N.to_nat (_size (this m))) m (_size (this m)) 0 it = Ok j it ∧
       land_on m (_size (this m)) j it = Ok (head_ptr (first_chain cs)) it ∧
       (first_chain cs ≠ [] →
          cs !! N.to_nat j = Some (first_chain cs) ∧
          entries cs = (first_chain cs).*2 ++ entries (drop (S (N.to_nat j)) cs)) ∧
       (first_chain cs = [] → j = _size (this m)).
Proof.
  intros Hr. pose proof (repr_length _ _ _ Hr) as Hlen.
  destruct (skip_empty_spec (N.to_nat (_size (this m))) m cs 0 it Hr)
    as (j & Hj & Hrange & Hempty & Hstop); [lia..|].
  assert (first_chain cs = default [] (cs !! N.to_nat j)) as Hfc.
  { apply first_chain_stop; [|intros; apply Hstop|]; try lia.
    intros i Hi. apply Hempty. lia. }
  exists j. split; [done|]. split.
  { rewrite Hfc. apply land_on_spec; [done|lia|done]. }
  split.
  - intros Hne. destruct (cs !! N.to_nat j) as [c|] eqn:Hc; [|done].
    cbn in Hfc. subst c. split; [done|].
    rewrite <- (entries_drop_S cs _ _ Hc).
    apply (entries_drop_empty cs 0 (N.to_nat j)); [lia|].
    intros i Hi. apply Hempty. lia.
  - intros Hnil. destruct (decide (j < _size (this m))) as [Hlt|]; [|lia].
    destruct (Hstop Hlt) as (x & xs & Hjx). by rewrite Hfc, Hjx in Hnil.
Qed.

Lemma HashMapIter_visit_repr m cs fuel it :
  repr m cs → (length (entries cs) ≤ fuel)%nat →
  (HashMapIter_first m ;; HashMapIter_visit fuel m) it
  = Ok (entries cs) (mkHashMapIter None (_size (this m))).
Proof.
  intros Hr Hfuel.
  destruct (scan_from_0 m cs createIterator Hr) as (j & Hj & Hland & Hne & Hnil).
  erewrite bind_Ok; cycle 1.
  { unfold HashMapIter_first. erewrite bind_Ok by done.
    erewrite bind_Ok by exact Hj. erewrite bind_Ok by exact Hland. done. }
  destruct (first_chain cs) as [|x xs] eqn:Hfc.
  - rewrite Hnil by done. apply first_chain_nil in Hfc. rewrite Hfc.
    by destruct fuel.
  - destruct (Hne ltac:(done)) as [Hjx Hent]. rewrite Hent in *.
    rewrite length_app, length_fmap in Hfuel.
    rewrite <- (N2Nat.id j) at 1.
    apply HashMapIter_visit_from; [done| |by eapply lookup_lt_Some|done].
    by eapply (repr_chain_linked _ _ _ _ _ Hr Hjx).
Qed.

(** X11: the loop [for (it->first(); !it->isEnd(); it->next())] of the
    older iterator over a table returns (the fuel is at least the number of
    entries) and visits every entry exactly once: it yields the pairs of
    bucket 0 in chain order, then those of bucket 1, and so on, and ends with
    the iterator at [nullptr] and [_idx] at the capacity.  On a table
    without entries it visits nothing. *)
Theorem HashMapIter_visits_all m cs fuel it :
  repr m cs → (length (entries cs) ≤ fuel)%nat →
  (HashMapIter_first m ;; HashMapIter_visit fuel m) it
  = Ok (entries cs) (mkHashMapIter None (_size (this m))).
Proof. apply HashMapIter_visit_repr. Qed.

Lemma begin_repr m cs :
  repr m cs → begin m = Ok (Iterator_at (head_ptr (first_chain cs))) m.
Proof.
  intros Hr. destruct (scan_from_0 m cs m Hr) as (j & Hj & Hland & _).
  unfold begin. erewrite bind_Ok by done. erewrite bind_Ok by exact Hj.
  erewrite bind_Ok by exact Hland. done.
Qed.

(** X12: [begin()] returns without changing the table, with an iterator
    at the head of the first non-empty bucket; it is equal to [end()]
    exactly when the table has no entry. *)
Theorem begin_first_entry m cs :
  repr m cs →
  ∃ it, begin m = Ok it m ∧
        _current it = head_ptr (first_chain cs) ∧
        (Iterator_eq it end_ = true ↔ entries cs = []).
Proof.
  intros Hr. eexists. split; [by apply begin_repr|]. split; [done|].
  unfold Iterator_eq, end_, Iterator_at. cbn [_current].
  rewrite bool_decide_eq_true, <- first_chain_nil.
  by destruct (first_chain cs).
Qed.

Lemma begin_visit m cs fuel :
  repr m cs →
  (length (first_chain cs) + length (entries (drop 1 cs)) ≤ fuel)%nat →
  ∃ it', Iterator_visit fuel m (Iterator_at (head_ptr (first_chain cs)))
         = Ok ((first_chain cs).*2 ++ entries (drop 1 cs)) it' ∧
         _current it' = None.
Proof.
  intros Hr Hfuel. destruct (first_chain cs) as [|x xs] eqn:Hfc.
  - exists end_. split; [|done].
    assert (entries (drop 1 cs) = []) as ->.
    { apply first_chain_nil in Hfc. destruct cs as [|c cs]; [done|].
      rewrite entries_cons in Hfc. by apply app_eq_nil in Hfc as [_ ?]. }
    by destruct fuel.
  - pose proof (first_chain_elem cs) as Hin. rewrite Hfc in Hin.
    specialize (Hin ltac:(done)).
    assert (linked (mem m) (x :: xs)) as Hl.
    { pose proof (repr_linked _ _ _ Hr) as Hall.
      by apply (proj1 (Forall_forall _ _) Hall). }
    eexists. split.
    { apply (Iterator_visit_from fuel m cs 0 x xs Hr Hl); [|done].
      destruct cs; [by apply elem_of_nil in Hin|cbn; lia]. }
    done.
Qed.

(** X13: the loop [for (it = begin(); it != end(); ++it)] over a table
    returns (the fuel is at least the number of visits) and yields the
    pairs of the first non-empty bucket in chain order, followed by the
    pairs of bucket 1, bucket 2 and so on in chain order: every entry is
    visited, in bucket order, and the entries of the first non-empty bucket
    are visited once more when that bucket is not bucket 0. *)
Theorem begin_to_end m cs fuel :
  repr m cs →
  (length (first_chain cs) + length (entries (drop 1 cs)) ≤ fuel)%nat →
  ∃ it it',
    begin m = Ok it m ∧
    Iterator_visit fuel m it
    = Ok ((first_chain cs).*2 ++ entries (drop 1 cs)) it' ∧
    Iterator_eq it' end_ = true.
Proof.
  intros Hr Hfuel. destruct (begin_visit m cs fuel Hr Hfuel) as (it' & Hv & Hend).
  eexists _, it'. split; [by apply begin_repr|]. split; [exact Hv|].
  unfold Iterator_eq. by rewrite Hend, bool_decide_eq_true_2.
Qed.

(** X14: when bucket 0 of the table is not empty, the loop
    [for (it = begin(); it != end(); ++it)] visits every entry exactly once,
    bucket by bucket and in chain order within a bucket. *)
Theorem begin_to_end_exact m cs fuel l :
  repr m cs → read_bucket 0 m = Ok (Some l) m →
  (length (entries cs) ≤ fuel)%nat →
  ∃ it it',
    begin m = Ok it m ∧
    Iterator_visit fuel m it = Ok (entries cs) it' ∧
    Iterator_eq it' end_ = true.
Proof.
  intros Hr Hb Hfuel.
  assert (∃ x xs, cs !! 0%nat = Some (x :: xs)) as (x & xs & H0).
  { destruct cs as [|c cs].
    - unfold read_bucket, bucket_of in Hb.
      by rewrite (repr_table _ _ _ Hr) in Hb.
    - rewrite (read_bucket_repr m _ 0 c Hr) in Hb by done.
      destruct c as [|x xs]; [done|]. by exists x, xs. }
  assert (entries cs = (first_chain cs).*2 ++ entries (drop 1 cs)) as Hent.
  { rewrite (first_chain_head cs x xs H0). by apply (entries_drop_S cs 0). }
  rewrite Hent in *. rewrite length_app, length_fmap in Hfuel.
  destruct (begin_visit m cs fuel Hr Hfuel) as (it' & Hv & Hend).
  eexists _, it'. split; [by apply begin_repr|]. split; [exact Hv|].
  unfold Iterator_eq. by rewrite Hend, bool_decide_eq_true_2.
Qed.

(** ** print *)

Lemma string_app_assoc (a b c : string) : (a +:+ b) +:+ c = a +:+ (b +:+ c).
Proof.
  induction a as [|x a IH]; [done|].
  change (String x ((a +:+ b) +:+ c) = String x (a +:+ (b +:+ c))).
  by rewrite IH.
Qed.

Lemma string_app_nil_r (a : string) : a +:+ "" = a.
Proof.
  induction a as [|x a IH]; [done|].
  change (String x (a +:+ "") = String x a). by rewrite IH.
Qed.

Section PrintProofs.

Context `{Show K} `{Show V}.

Lemma print_chain_spec fuel m ys out :
  lseg (mem m) ys None → (length ys ≤ fuel)%nat →
  (print_chain fuel m (head_ptr ys) ;; write "" ;; write endl) out
  = Ok tt (out +:+ foldr (λ kv t, show_entry kv +:+ t) endl ys.*2).
Proof.
  revert fuel out. induction ys as [|y ys IH]; intros fuel out Hl Hfuel.
  { destruct fuel; unfold mbind, M_bind, mret, M_ret, write; cbn;
      by rewrite string_app_nil_r. }
  cbn in Hfuel. destruct fuel as [|fuel]; [lia|].
  destruct Hl as [Hy Hl]. specialize (IH fuel) with (1 := Hl).
  cbn [head_ptr ptr_to print_chain].
  unfold mbind, M_bind in *.
  rewrite (peek_Ok m m (deref (Some y.1)) _ out
             ltac:(unfold deref; by rewrite Hy)).
  cbn [key value next]. unfold write in *. cbn beta iota.
  change (ptr_to ys None) with (head_ptr ys).
  rewrite IH by lia. cbn [fmap list_fmap foldr].
  unfold show_entry. cbn [fst snd]. by rewrite !string_app_assoc.
Qed.

Lemma print_loop (k a : nat) m cs out :
  repr m cs → (a + k ≤ length cs)%nat →
  for_from k (N.of_nat a) (print_body m) tt out
  = Ok tt (out +:+ show_chains (N.of_nat a) (kvs (take k (drop a cs)))).
Proof.
  intros Hr. pose proof (repr_length _ _ _ Hr) as Hlen.
  revert a out. induction k as [|k IH]; intros a out Hk.
  { cbn. by rewrite string_app_nil_r. }
  destruct (lookup_lt_is_Some_2 cs a ltac:(lia)) as [c Hc].
  rewrite (drop_S cs c a Hc). cbn [take kvs fmap list_fmap show_chains for_from].
  fold (kvs (take k (drop (S a) cs))).
  assert (print_body m (N.of_nat a) tt out
          = Ok tt (out +:+ show_chain (N.of_nat a) c.*2)) as Hbody.
  { unfold print_body.
    erewrite bind_Ok by (eapply peek_Ok, lock_guard_repr; [done|lia]).
    erewrite bind_Ok
      by (eapply peek_Ok, (read_bucket_repr m cs (N.of_nat a) c); [done|];
          by rewrite Nat2N.id).
    destruct c as [|x xs]; cbn [head_ptr ptr_to].
    { unfold mret, M_ret. cbn. by rewrite string_app_nil_r. }
    pose proof (print_chain_spec (size (mem m)) m (x :: xs)) as Hch.
    unfold mbind, M_bind, write in *. cbn beta iota.
    rewrite Hch; [|by eapply repr_chain_linked|by eapply repr_chain_fuel].
    unfold show_chain. cbn [fmap list_fmap]. by rewrite !string_app_assoc. }
  erewrite bind_Ok by exact Hbody.
  rewrite <- Nat2N.inj_succ, IH by lia. by rewrite string_app_assoc.
Qed.

(** X15: [print()] on a table returns and appends to the output, for each
    non-empty bucket in ascending order, one line made of the bucket index
    in brackets, an arrow and the pairs of the chain in chain order, each as
    [(key, value), ]; an empty bucket writes nothing. *)
Theorem print_spec m cs out :
  repr m cs → print m out = Ok tt (out +:+ show_chains 0 (kvs cs)).
Proof.
  intros Hr. pose proof (repr_length _ _ _ Hr) as Hlen.
  pose proof (repr_size _ _ _ Hr) as Hsz.
  unfold print. erewrite bind_Ok by done.
  unfold for_unsigned. rewrite decide_True by done.
  rewrite (print_loop _ 0 m cs out Hr) by (cbn; lia).
  rewrite drop_0, take_ge by lia. done.
Qed.

End PrintProofs.

(** ** Copying and iteration *)

(** X16: copy construction from a table that satisfies the invariants of
    the data model (every entry in the bucket of its key, no key twice)
    returns a table that the older iterator traverses exactly as it
    traverses the original: the same pairs in the same order. *)
Theorem copy_same_order h t1 cs1 fuel it :
  table_repr h t1 cs1 → placed (_size t1) cs1 → unique_keys cs1 →
  (length (entries cs1) ≤ fuel)%nat →
  ∃ s2 r,
    HashMap_copy t1 h = Ok tt s2 ∧
    (HashMapIter_first s2 ;; HashMapIter_visit fuel s2) it = Ok (entries cs1) r ∧
    (HashMapIter_first (mkState t1 h) ;; HashMapIter_visit fuel (mkState t1 h)) it
    = Ok (entries cs1) r.
Proof.
  intros Hr Hp Hu Hfuel.
  destruct (fill_independent raw h t1 cs1) as (s2 & Hc & Hsz & (cs2 & Hr2 & Hkv) & _);
    [by left|done..|].
  assert (entries cs2 = entries cs1) as Hent by (by rewrite !entries_kvs, Hkv).
  exists s2, (mkHashMapIter None (_size t1)). split; [exact Hc|]. split.
  - rewrite (HashMapIter_visit_repr s2 cs2 fuel it Hr2) by (by rewrite Hent).
    by rewrite Hent, Hsz.
  - by rewrite (HashMapIter_visit_repr (mkState t1 h) cs1 fuel it Hr Hfuel).
Qed.

(** ** The re-hashing step of resize *)

(** One round of the inner loop of [resize], for the element at [l0], when
    the new bucket array is that of a table with chains [ncs]: the pair of
    the element goes into the chain of bucket [hashFunctor(key) % newSize],
    over the value of an equal key or after the last node, as [insert]
    does.  [resize] itself never calls it on such an array: its new array
    is not initialised. *)
Lemma rehash_one_places s newSize nt ncs l0 e :
  table_repr (mem s)
    (mkHashMap newSize nt (Array (replicate (length ncs) (Val unlocked)))) ncs →
  0 < newSize → mem s !! l0 = Some e →
  let i := N.to_nat (index newSize (key e)) in
  let l := fresh (dom (mem s)) in
  ∃ nt' h',
    rehash_one newSize nt (Some l0) s = Ok nt' (mkState (this s) h') ∧
    table_repr h'
      (mkHashMap newSize nt' (Array (replicate (length ncs) (Val unlocked))))
      (<[i := upsert l (key e) (value e) (chain_of newSize ncs (key e))]> ncs).
Proof.
  intros Hr Hpos He i l.
  set (mx := Array (replicate (length ncs) (Val unlocked))) in *.
  set (T := mkHashMap newSize nt mx) in *.
  set (k := key e) in *. set (v := value e) in *.
  pose proof (chain_of_lookup (mkState T (mem s)) ncs k Hr Hpos) as Hxs.
  cbn [this _size T] in Hxs. fold i in Hxs.
  pose proof (repr_chain_linked _ _ _ _ _ Hr Hxs) as Hl.
  pose proof (repr_chain_NoDup _ _ _ _ _ Hr Hxs) as Hnd.
  pose proof (repr_size _ _ _ Hr) as Hsz. cbn [_size T] in Hsz.
  assert (index newSize k < newSize) as Hidx by (by apply index_lt).
  assert (Hfresh : l ∉ dom (mem s)) by apply is_fresh.
  assert (Hnew : ∀ l', l' ∈ (upsert l k v (chain_of newSize ncs k)).*1 →
                       l' ∈ (chain_of newSize ncs k).*1 ∨ l' ∉ dom (mem s)).
  { intros l'. destruct (upsert_locs l k v (chain_of newSize ncs k)) as [-> | ->];
      [by left|]. intros [?| ->%list_elem_of_singleton]%elem_of_app; auto. }
  assert (Hnd' : NoDup (upsert l k v (chain_of newSize ncs k)).*1).
  { destruct (upsert_locs l k v (chain_of newSize ncs k)) as [-> | ->]; [done|].
    apply NoDup_app. split; [done|]. split; [|apply NoDup_singleton].
    intros l' Hl' ->%list_elem_of_singleton. apply Hfresh.
    eapply lseg_dom; [exact Hl | done]. }
  unfold rehash_one.
  erewrite bind_Ok by (unfold deref; by rewrite He). fold k v.
  unfold new_index. rewrite decide_False by lia.
  fold (index newSize k). rewrite (N.mod_small (index newSize k)) by lia.
  pose proof (repr_bucket _ T ncs (index newSize k) _ Hr Hxs) as Hb.
  unfold T in Hb. cbn [_table] in Hb. rewrite Hb.
  destruct (chain_of newSize ncs k) as [|x xs] eqn:Hc.
  - cbn [head_ptr ptr_to]. erewrite bind_Ok by done. fold l.
    unfold assign. rewrite (repr_table _ _ _ Hr : nt = _), decide_True; cycle 1.
    { rewrite length_fmap. by eapply lookup_lt_Some. }
    eexists _, _. split; [done|]. fold i.
    eapply (repr_update (mem s) _ T); try done.
    + split; [|done]. cbn [fst snd ptr_to]. by rewrite lookup_insert_eq.
    + intros l' Hl' _. rewrite lookup_insert_ne; [done|]. by intros <-.
  - rewrite <- Hc in *.
    destruct (chain_upsert_spec s (chain_of newSize ncs k) x.1 k v Hl Hnd)
      as (h' & Hrun & Hl' & Hframe & Hdom1 & Hdom2); [by rewrite Hc|].
    replace (head_ptr (chain_of newSize ncs k)) with (Some x.1) by (by rewrite Hc).
    exists nt, h'. split.
    + cbn beta iota. unfold mbind, M_bind in *.
      destruct (with_fuel _ s) as [p s1|?|?|?]; try done.
      destruct (deref (Some p) s1) as [pe s2|?|?|?]; try done.
      case_decide.
      * destruct (store p _ s2) as [[] s3|?|?|?]; try done. by injection Hrun as ->.
      * destruct (new_Element k v s2) as [l1 s3|?|?|?]; try done.
        destruct (store p _ s3) as [[] s4|?|?|?]; try done.
        by injection Hrun as ->.
    + eapply (repr_update (mem s) _ T T); try done.
      * rewrite upsert_head by (by rewrite Hc).
        rewrite list_insert_id; [by eapply (repr_table _ T)|].
        by rewrite list_lookup_fmap, Hxs.
      * intros l' Hd Hl'c. apply Hframe; [done|]. by intros ->.
Qed.

(** ** No key twice *)

Lemma placed_unique_NoDup n (a : nat) cs :
  (∀ i xs x, cs !! i = Some xs → x ∈ xs → index n x.2.1 = N.of_nat (a + i)) →
  unique_keys cs → NoDup (entries cs).*1.
Proof.
  revert a. induction cs as [|c cs IH]; intros a Hp Hu; [constructor|].
  apply Forall_cons in Hu as [Hc Hu].
  rewrite entries_cons, fmap_app. apply NoDup_app. split_and!.
  - done.
  - intros k (y & -> & Hy)%list_elem_of_fmap (z & Hz & Hin)%list_elem_of_fmap.
    apply list_elem_of_fmap in Hy as (x & -> & Hx).
    unfold entries in Hin. apply list_elem_of_fmap in Hin as (x' & -> & Hx').
    apply list_elem_of_join in Hx' as (zs & Hx' & Hzs).
    apply list_elem_of_lookup in Hzs as [j Hj].
    pose proof (Hp 0%nat c x eq_refl Hx) as H1.
    pose proof (Hp (S j) zs x' Hj Hx') as H2.
    rewrite Hz in H1. rewrite H1 in H2. lia.
  - apply (IH (S a)); [|done]. intros i xs x Hi Hx.
    rewrite (Hp (S i) xs x Hi Hx). f_equal. lia.
Qed.

(** X18: from [HashMap(n)] with [0 < n < 2^32], every sequence of
    [insert] and [remove] calls (a thrown [std::out_of_range] caught)
    returns and leaves a table in which no key occurs twice among the
    entries, whatever keys were inserted again or removed on the way. *)
Theorem keys_unique n h ops :
  0 < n → n < 2 ^ 32 → Forall mutation ops →
  ∃ s0 s,
    HashMap_sized n h = Ok tt s0 ∧ run ops s0 = Ok tt s ∧
    NoDup (entries (chains s)).*1.
Proof.
  intros Hpos Hlt Hops. destruct (HashMap_sized_spec n h Hlt) as [Hs0 Hr0].
  destruct (run_map_after ops _ _ Hr0) as (s & cs & Hrun & _); [done| |done|].
  { apply Forall_forall. intros xs [-> _]%elem_of_replicate. constructor. }
  eexists _, s. split; [exact Hs0|]. split; [exact Hrun|].
  destruct (sound_run ops _ s (sound_sized n h _ Hs0) Hrun)
    as [(cs' & Hr & Hp & Hu)|(m & h' & ->)].
  - rewrite (chains_repr s cs' Hr).
    apply (placed_unique_NoDup (_size (this s)) 0 cs'); [|done].
    intros i xs x Hi Hx. by apply (Hp i xs x).
  - unfold chains, resized, new_array. cbn [this _table mem].
    rewrite fmap_replicate, entries_replicate. constructor.
Qed.

End Proofs.

Local Open Scope string_scope.

(** * The theorems at the tables of the test programs *)

Example UnsignedHash_25 : UnsignedHash 25 = 42.
Proof. reflexivity. Qed.

Example UnsignedHash_143 : UnsignedHash 143 = 66 ∧ UnsignedHash 43 = 66.
Proof. split; reflexivity. Qed.

Example umap_repr : check_repr (mem umap) (this umap) (chains umap) = true.
Proof. vm_compute. reflexivity. Qed.

Example umap_chain_66 :
  chains umap !! 66%nat = Some [(3%positive, (43, "one")); (4%positive, (143, "two"))].
Proof. vm_compute. reflexivity. Qed.

(** C3: [resize] on the table of test1.cpp, which holds five entries, has
    no defined result: the first entry is re-hashed into a bucket array whose
    cells were never initialised.  On the same table without entries
    [resize] returns, but it leaves bucket and mutex arrays of uninitialised
    cells, and every later [insert] or [lookup] is undefined. *)
Theorem resize_test1 :
  resize 200 umap = Undefined ∧
  resize 200 umap0 = Ok tt (resized 200 ∅) ∧
  insert 25 "hello" (resized 200 ∅) = Undefined ∧
  lookup 25 (resized (V := string) 200 ∅) = Undefined.
Proof. repeat split; vm_compute; reflexivity. Qed.

(** C7: the move constructor applied to [umap] gives the new object the
    fields of [umap] and leaves [umap] default-constructed; so do the
    statements of the move assignment operator, as called by test1.cpp on a
    default-constructed object, but the operator then flows off its end
    without returning, which is undefined. *)
Theorem move_assign_test1 :
  HashMap_move (this umap) = (this umap, HashMap_default) ∧
  move_assign_body false (this umap) (mkState HashMap_default (mem umap))
  = Ok HashMap_default umap ∧
  move_assign false (this umap) (mkState HashMap_default (mem umap)) = Undefined.
Proof. repeat split; vm_compute; reflexivity. Qed.

(** C9: on the table that holds 25:"hello" and 34:"world" in buckets 42 and
    73, the loop from [begin()] to [end()] visits the entry of key 25 twice:
    [begin()] returns an iterator whose index is 0, not 42, and the scan for
    the next bucket finds bucket 42 again.  The loop from [first()] of the
    older iterator visits each entry once. *)
Theorem begin_visits_twice :
  begin two = Ok (mkIterator (Some 1%positive) 0) two ∧
  Iterator_visit 4 two (mkIterator (Some 1%positive) 0)
  = Ok [(25, "hello"); (25, "hello"); (34, "world")] (mkIterator None 100) ∧
  (HashMapIter_first two ;; HashMapIter_visit 4 two) createIterator
  = Ok [(25, "hello"); (34, "world")] (mkHashMapIter None 100).
Proof. repeat split; vm_compute; reflexivity. Qed.


(** ** The hash functor for string keys *)

Lemma StringHash_sum sg l r :
  foldl (StringHash_step sg) r l mod 2 ^ 32
  = (r + foldr (λ c t, unsigned_of_char sg c + 17 + t) 0 l) mod 2 ^ 32.
Proof.
  revert r. induction l as [|c l IH]; intros r; cbn [foldl foldr].
  { by rewrite N.add_0_r. }
  rewrite IH. unfold StringHash_step.
  set (u := unsigned_of_char sg c + 17). set (t := foldr _ 0 l).
  rewrite N.Div0.add_mod_idemp_l.
  replace (r + u mod 2 ^ 32 + t) with (u mod 2 ^ 32 + (r + t)) by lia.
  rewrite N.Div0.add_mod_idemp_l. f_equal. lia.
Qed.

Lemma StringHash_small sg l : foldl (StringHash_step sg) 0 l < 2 ^ 32.
Proof.
  induction l as [|c l _] using rev_ind; [done|].
  rewrite foldl_app. cbn [foldl]. unfold StringHash_step.
  by apply N.mod_upper_bound.
Qed.

Lemma StringHash_foldr sg key :
  StringHash sg key
  = foldr (λ c t, unsigned_of_char sg c + 17 + t) 0
      (String.list_ascii_of_string key) mod 2 ^ 32.
Proof.
  unfold StringHash.
  rewrite <- (N.mod_small _ (2 ^ 32) (StringHash_small sg _)) at 1.
  by rewrite StringHash_sum.
Qed.

(** X17: [StringHash] adds up the characters of the key, so it does not
    see their order: two keys that are made of the same characters hash to
    the same bucket in every table. *)
Theorem StringHash_anagram {V} sg (a b : string) (s : @state string V) :
  String.list_ascii_of_string a ≡ₚ String.list_ascii_of_string b →
  hash (H := StringHash sg) a s = hash (H := StringHash sg) b s.
Proof.
  intros Hperm. unfold hash, hashFunctor. rewrite !StringHash_foldr.
  assert (foldr (λ c t, unsigned_of_char sg c + 17 + t) 0
            (String.list_ascii_of_string a)
          = foldr (λ c t, unsigned_of_char sg c + 17 + t) 0
              (String.list_ascii_of_string b)) as ->; [|done].
  induction Hperm as [|c l1 l2 _ IH|c1 c2 l|l1 l2 l3 _ IH1 _ IH2];
    cbn [foldr]; [done|by rewrite IH|lia|congruence].
Qed.

Lemma umap0_repr : repr umap0 (chains umap0).
Proof. apply check_repr_sound. vm_compute. reflexivity. Defined.

Lemma umap_table : repr umap (chains umap).
Proof. apply check_repr_sound. vm_compute. reflexivity. Defined.

Lemma umap_placed : placed 100 (chains umap).
Proof. apply check_placed_sound. vm_compute. reflexivity. Defined.

Lemma umap_unique : unique_keys (chains umap).
Proof. apply check_unique_sound. vm_compute. reflexivity. Defined.

Lemma insert_then_lookup_witness :
  repr umap0 (chains umap0) ∧ 0 < _size (this umap0) ∧
  Forall (keeps 25) [Insert 34 "world"; Remove 60; Insert 43 "one"; Remove 34] ∧
  ∃ s1 s2,
    insert 25 "hello" umap0 = Ok tt s1 ∧
    run [Insert 34 "world"; Remove 60; Insert 43 "one"; Remove 34] s1
    = Ok tt s2 ∧
    lookup 25 s2 = Ok "hello" s2 ∧
    exists_ 25 s2 = Ok true s2.
Proof.
  assert (H1 : repr umap0 (chains umap0)) by exact umap0_repr.
  assert (H2 : 0 < _size (this umap0)) by reflexivity.
  assert (H3 : Forall (keeps (V := string) 25)
                 [Insert 34 "world"; Remove 60; Insert 43 "one"; Remove 34])
    by (repeat constructor; intros [=]).
  split_and!; [exact H1 | exact H2 | exact H3 |].
  exact (insert_then_lookup umap0 (chains umap0) 25 "hello" _ H1 H2 H3).
Defined.

Lemma insert_upsert_witness :
  repr umap (chains umap) ∧ 0 < _size (this umap) ∧
  ∃ s1 s2,
    insert 143 "143" umap = Ok tt s1 ∧
    insert 143 "new value" s1 = Ok tt s2 ∧
    lookup 143 s2 = Ok "new value" s2.
Proof.
  assert (H1 : repr umap (chains umap)) by exact umap_table.
  assert (H2 : 0 < _size (this umap)) by reflexivity.
  split_and!; [exact H1 | exact H2 |].
  destruct (insert_upsert umap (chains umap) 143 "143" "new value" H1 H2)
    as (s1 & s2 & cs1 & cs2 & Hi1 & _ & Hi2 & _ & Hl & _).
  exists s1, s2. split_and!; [exact Hi1 | exact Hi2 | exact Hl].
Defined.

Lemma absent_key_throws_witness :
  repr umap (chains umap) ∧ 0 < _size (this umap) ∧
  (30 ∉ (entries (chains umap)).*1) ∧
  lookup 30 umap = Throw "HashMap: key doesn't exists" umap ∧
  remove 30 umap = Throw "HashMap: key doesn't exists" umap.
Proof.
  assert (H1 : repr umap (chains umap)) by exact umap_table.
  assert (H2 : 0 < _size (this umap)) by reflexivity.
  assert (H3 : 30 ∉ (entries (chains umap)).*1) by by_evaluation.
  split_and!; [exact H1 | exact H2 | exact H3 | |];
    apply (absent_key_throws umap (chains umap) 30 H1 H2 H3).
Defined.

Lemma remove_present_witness :
  repr umap (chains umap) ∧ 0 < _size (this umap) ∧
  placed (_size (this umap)) (chains umap) ∧
  unique_keys (chains umap) ∧ 143 ∈ (entries (chains umap)).*1 ∧
  ∃ s',
    remove 143 umap = Ok tt s' ∧
    exists_ 143 s' = Ok false s' ∧
    lookup 143 s' = Throw "HashMap: key doesn't exists" s' ∧
    result (lookup 43 s') = result (lookup 43 umap).
Proof.
  assert (H1 : repr umap (chains umap)) by exact umap_table.
  assert (H2 : 0 < _size (this umap)) by reflexivity.
  assert (H3 : placed (_size (this umap)) (chains umap))
    by exact umap_placed.
  assert (H4 : unique_keys (chains umap)) by exact umap_unique.
  assert (H5 : 143 ∈ (entries (chains umap)).*1) by by_evaluation.
  split_and!; [exact H1 | exact H2 | exact H3 | exact H4 | exact H5 |].
  destruct (remove_present umap (chains umap) 143 H1 H2 H3 H4 H5)
    as (pre & x & post & s' & _ & _ & _ & Hrm & _ & _ & _ & _ & Hex & Hlk & Hother).
  exists s'. split_and!; [exact Hrm | exact Hex | exact Hlk |].
  apply Hother. intros [=].
Defined.

Lemma hash_placement_witness :
  HashMap_sized 100 ∅ = Ok tt umap0 ∧
  run
    [Insert 25 "hello"; Insert 34 "world"; Insert 43 "one";
     Insert 143 "two"; Insert 754 "three"] umap0 = Ok tt umap ∧
  bucket_entry umap 66 (mkElement 143 "two" None) ∧
  UnsignedHash 143 mod _size (this umap) = 66.
Proof.
  assert (H1 : HashMap_sized (K := N) (V := string) 100 ∅ = Ok tt umap0)
    by (vm_compute; reflexivity).
  assert (H2 : run
                 [Insert 25 "hello"; Insert 34 "world"; Insert 43 "one";
                  Insert 143 "two"; Insert 754 "three"] umap0 = Ok tt umap)
    by (vm_compute; reflexivity).
  assert (H3 : bucket_entry umap 66 (mkElement 143 "two" None)).
  { exists (Some 3%positive). split; [vm_compute; reflexivity|].
    apply (reaches_next _ _ (mkElement 43 "one" (Some 4%positive)));
      [vm_compute; reflexivity|].
    apply reaches_here. vm_compute. reflexivity. }
  split_and!; [exact H1 | exact H2 | exact H3 |].
  exact (hash_placement 100 ∅ _ umap0 umap H1 H2 66 _ H3).
Defined.

Lemma copy_independence_witness :
  is_table (mem umap) (this umap) (chains umap) ∧
  placed (_size (this umap)) (chains umap) ∧
  unique_keys (chains umap) ∧
  is_table (mem umap) HashMap_default [] ∧
  footprint (K := N) (V := string) [] ## footprint (chains umap) ∧
  ∃ s2 s2',
    HashMap_copy (this umap) (mem umap) = Ok tt s2 ∧
    independent_copy (this umap) (chains umap) (mem umap) s2 ∧
    copy_assign false (this umap) (mkState HashMap_default (mem umap))
    = Ok tt s2' ∧
    independent_copy (this umap) (chains umap) (mem umap) s2'.
Proof.
  assert (H1 : is_table (mem umap) (this umap) (chains umap))
    by (left; exact umap_table).
  assert (H2 : placed (_size (this umap)) (chains umap))
    by exact umap_placed.
  assert (H3 : unique_keys (chains umap)) by exact umap_unique.
  assert (H4 : is_table (K := N) (V := string) (mem umap) HashMap_default [])
    by (right; split; reflexivity).
  assert (H5 : footprint (K := N) (V := string) [] ## footprint (chains umap)).
  { intros l Hl. apply elem_of_footprint in Hl as (i & xs & Hi & _).
    destruct i; discriminate Hi. }
  split_and!; [exact H1 | exact H2 | exact H3 | exact H4 | exact H5 |].
  exact (copy_independence (mem umap) (this umap) (chains umap)
           HashMap_default [] H1 H2 H3 H4 H5).
Defined.

(** ** Witnesses of the further properties *)

Lemma two_table : repr two (chains two).
Proof. apply check_repr_sound. vm_compute. reflexivity. Defined.

Lemma three_table : repr three (chains three).
Proof. apply check_repr_sound. vm_compute. reflexivity. Defined.

Lemma sized_is_empty_witness :
  0 < 100 ∧ 100 < 2 ^ 32 ∧
  ∃ s, HashMap_sized (V := string) 100 ∅ = Ok tt s ∧ mem s = ∅ ∧
       getSize s = Ok 100 s ∧
       exists_ 30 s = Ok false s ∧
       lookup 30 s = Throw "HashMap: key doesn't exists" s ∧
       remove 30 s = Throw "HashMap: key doesn't exists" s.
Proof.
  assert (H1 : 0 < 100) by reflexivity.
  assert (H2 : 100 < 2 ^ 32) by reflexivity.
  split_and!; [exact H1 | exact H2 |].
  exact (sized_is_empty 100 ∅ 30 H1 H2).
Defined.

Lemma zero_capacity_witness :
  _size (this (mkState (K := N) (V := string) HashMap_default ∅)) = 0 ∧
  insert 25 "hello" (mkState HashMap_default ∅) = Undefined ∧
  lookup 25 (mkState (V := string) HashMap_default ∅) = Undefined ∧
  exists_ 25 (mkState (V := string) HashMap_default ∅) = Undefined ∧
  remove 25 (mkState (V := string) HashMap_default ∅) = Undefined.
Proof.
  assert (H1 : _size (this (mkState (K := N) (V := string) HashMap_default ∅)) = 0)
    by reflexivity.
  split; [exact H1|].
  exact (zero_capacity (mkState HashMap_default ∅) 25 "hello" H1).
Defined.

Lemma exists_iff_lookup_witness :
  repr umap (chains umap) ∧ 0 < _size (this umap) ∧
  ∃ b, exists_ 143 umap = Ok b umap ∧
       match b with
       | true => ∃ v, lookup 143 umap = Ok v umap
       | false => lookup 143 umap = Throw "HashMap: key doesn't exists" umap
       end.
Proof.
  assert (H1 : repr umap (chains umap)) by exact umap_table.
  assert (H2 : 0 < _size (this umap)) by reflexivity.
  split_and!; [exact H1 | exact H2 |].
  exact (exists_iff_lookup umap (chains umap) 143 H1 H2).
Defined.

Lemma insert_remove_restores_witness :
  repr umap (chains umap) ∧ 0 < _size (this umap) ∧
  exists_ 30 umap = Ok false umap ∧
  ∃ s1, insert 30 "thirty" umap = Ok tt s1 ∧ remove 30 s1 = Ok tt umap.
Proof.
  assert (H1 : repr umap (chains umap)) by exact umap_table.
  assert (H2 : 0 < _size (this umap)) by reflexivity.
  assert (H3 : exists_ 30 umap = Ok false umap) by (vm_compute; reflexivity).
  split_and!; [exact H1 | exact H2 | exact H3 |].
  exact (insert_remove_restores umap (chains umap) 30 "thirty" H1 H2 H3).
Defined.

Lemma destroy_frees_witness :
  is_table (mem umap) (this umap) (chains umap) ∧
  ∃ s', destroyTableAndMutexes (mkState (this umap) (mem umap)) = Ok tt s' ∧
        getSize s' = Ok 0 s' ∧
        dom (mem s') = dom (mem umap) ∖ footprint (chains umap) ∧
        (∀ l, l ∉ footprint (chains umap) → mem s' !! l = mem umap !! l).
Proof.
  assert (H1 : is_table (mem umap) (this umap) (chains umap))
    by (left; exact umap_table).
  split; [exact H1|].
  exact (destroy_frees (mem umap) (this umap) (chains umap) H1).
Defined.

Lemma destroy_after_copy_witness :
  is_table (mem umap) (this umap) (chains umap) ∧
  ∃ s2 s3 s3',
    HashMap_copy (this umap) (mem umap) = Ok tt s2 ∧
    destroyTableAndMutexes s2 = Ok tt s3 ∧
    is_table (mem s3) (this umap) (chains umap) ∧
    (∀ k, result (lookup k (mkState (this umap) (mem s3)))
          = result (lookup k (mkState (this umap) (mem umap)))) ∧
    destroyTableAndMutexes (mkState (this umap) (mem s2)) = Ok tt s3' ∧
    (∀ k, result (lookup k (mkState (this s2) (mem s3')))
          = result (lookup k s2)).
Proof.
  assert (H1 : is_table (mem umap) (this umap) (chains umap))
    by (left; exact umap_table).
  split; [exact H1|].
  exact (destroy_after_copy (mem umap) (this umap) (chains umap) H1).
Defined.

Lemma run_refines_map_witness :
  0 < 100 ∧ 100 < 2 ^ 32 ∧
  Forall mutation
    [Insert 25 "hello"; Insert 43 "one"; Insert 143 "two"; Remove 25;
     Remove 60; Insert 43 "new value"] ∧
  ∃ s0 s,
    HashMap_sized 100 ∅ = Ok tt s0 ∧
    run [Insert 25 "hello"; Insert 43 "one"; Insert 143 "two"; Remove 25;
         Remove 60; Insert 43 "new value"] s0 = Ok tt s ∧
    lookup 43 s = Ok "new value" s ∧
    lookup 25 s = Throw "HashMap: key doesn't exists" s.
Proof.
  assert (H1 : 0 < 100) by reflexivity.
  assert (H2 : 100 < 2 ^ 32) by reflexivity.
  assert (H3 : Forall (mutation (K := N) (V := string))
                 [Insert 25 "hello"; Insert 43 "one"; Insert 143 "two";
                  Remove 25; Remove 60; Insert 43 "new value"])
    by (repeat constructor).
  split_and!; [exact H1 | exact H2 | exact H3 |].
  destruct (run_refines_map 100 ∅ _ H1 H2 H3) as (s0 & s & Hs0 & Hrun & _ & Hl).
  exists s0, s. split_and!; [exact Hs0 | exact Hrun | |].
  - exact (proj1 (Hl 43)).
  - exact (proj1 (Hl 25)).
Defined.

Lemma mutation_is_local_witness :
  repr umap (chains umap) ∧ 0 < _size (this umap) ∧
  ∃ s', insert 243 "three" umap = Ok tt s' ∧
        _size (this s') = _size (this umap) ∧
        chains s' !! 42%nat = chains umap !! 42%nat.
Proof.
  assert (H1 : repr umap (chains umap)) by exact umap_table.
  assert (H2 : 0 < _size (this umap)) by reflexivity.
  split_and!; [exact H1 | exact H2 |].
  destruct (mutation_is_local umap (chains umap) 243 "three" H1 H2)
    as [(s' & Hi & Hsz & Hother) _].
  exists s'. split_and!; [exact Hi | exact Hsz |].
  apply Hother. vm_compute. discriminate.
Defined.

Lemma insert_twice_witness :
  repr umap (chains umap) ∧ 0 < _size (this umap) ∧
  ∃ s1, insert 143 "143" umap = Ok tt s1 ∧ insert 143 "143" s1 = Ok tt s1.
Proof.
  assert (H1 : repr umap (chains umap)) by exact umap_table.
  assert (H2 : 0 < _size (this umap)) by reflexivity.
  split_and!; [exact H1 | exact H2 |].
  exact (insert_twice umap (chains umap) 143 "143" H1 H2).
Defined.

Lemma no_leak_witness :
  0 < 100 ∧
  Forall mutation
    [Insert 25 "hello"; Insert 34 "world"; Insert 43 "one";
     Insert 143 "two"; Insert 754 "three"] ∧
  HashMap_sized 100 ∅ = Ok tt umap0 ∧
  run [Insert 25 "hello"; Insert 34 "world"; Insert 43 "one";
       Insert 143 "two"; Insert 754 "three"] umap0 = Ok tt umap ∧
  dom (mem umap) = dom (∅ : gmap loc (@Element N string)) ∪ footprint (chains umap) ∧
  size (footprint (chains umap)) = length (entries (chains umap)).
Proof.
  assert (H1 : 0 < 100) by reflexivity.
  assert (H2 : Forall (mutation (K := N) (V := string))
                 [Insert 25 "hello"; Insert 34 "world"; Insert 43 "one";
                  Insert 143 "two"; Insert 754 "three"])
    by (repeat constructor).
  assert (H3 : HashMap_sized (K := N) (V := string) 100 ∅ = Ok tt umap0)
    by (vm_compute; reflexivity).
  assert (H4 : run
                 [Insert 25 "hello"; Insert 34 "world"; Insert 43 "one";
                  Insert 143 "two"; Insert 754 "three"] umap0 = Ok tt umap)
    by (vm_compute; reflexivity).
  split_and!; [exact H1 | exact H2 | exact H3 | exact H4 | |];
    apply (no_leak 100 ∅ _ umap0 umap H1 H2 H3 H4).
Defined.

Lemma HashMapIter_visits_all_witness :
  repr umap (chains umap) ∧ (length (entries (chains umap)) ≤ 5)%nat ∧
  (HashMapIter_first umap ;; HashMapIter_visit 5 umap) createIterator
  = Ok [(754, "three"); (25, "hello"); (43, "one"); (143, "two"); (34, "world")]
       (mkHashMapIter None 100).
Proof.
  assert (H1 : repr umap (chains umap)) by exact umap_table.
  assert (H2 : (length (entries (chains umap)) ≤ 5)%nat)
    by (apply Nat.leb_le; vm_compute; reflexivity).
  split_and!; [exact H1 | exact H2 |].
  exact (HashMapIter_visits_all umap (chains umap) 5 createIterator H1 H2).
Defined.

Lemma begin_first_entry_witness :
  repr two (chains two) ∧
  ∃ it, begin two = Ok it two ∧
        _current it = head_ptr (first_chain (chains two)) ∧
        (Iterator_eq it end_ = true ↔ entries (chains two) = []).
Proof.
  assert (H1 : repr two (chains two)) by exact two_table.
  split; [exact H1|].
  exact (begin_first_entry two (chains two) H1).
Defined.

Lemma begin_to_end_witness :
  repr two (chains two) ∧
  (length (first_chain (chains two)) + length (entries (drop 1 (chains two))) ≤ 3)%nat ∧
  ∃ it it',
    begin two = Ok it two ∧
    Iterator_visit 3 two it
    = Ok [(25, "hello"); (25, "hello"); (34, "world")] it' ∧
    Iterator_eq it' end_ = true.
Proof.
  assert (H1 : repr two (chains two)) by exact two_table.
  assert (H2 : (length (first_chain (chains two))
                + length (entries (drop 1 (chains two))) ≤ 3)%nat)
    by (apply Nat.leb_le; vm_compute; reflexivity).
  split_and!; [exact H1 | exact H2 |].
  exact (begin_to_end two (chains two) 3 H1 H2).
Defined.

Lemma begin_to_end_exact_witness :
  repr three (chains three) ∧ read_bucket 0 three = Ok (Some 1%positive) three ∧
  (length (entries (chains three)) ≤ 2)%nat ∧
  ∃ it it',
    begin three = Ok it three ∧
    Iterator_visit 2 three it = Ok [(25, "hello"); (34, "world")] it' ∧
    Iterator_eq it' end_ = true.
Proof.
  assert (H1 : repr three (chains three)) by exact three_table.
  assert (H2 : read_bucket 0 three = Ok (Some 1%positive) three)
    by (vm_compute; reflexivity).
  assert (H3 : (length (entries (chains three)) ≤ 2)%nat)
    by (apply Nat.leb_le; vm_compute; reflexivity).
  split_and!; [exact H1 | exact H2 | exact H3 |].
  exact (begin_to_end_exact three (chains three) 2 1%positive H1 H2 H3).
Defined.

Lemma print_spec_witness :
  repr umap (chains umap) ∧
  print umap ""
  = Ok tt "[33] -> (754, three), 
[42] -> (25, hello), 
[66] -> (43, one), (143, two), 
[73] -> (34, world), 
".
Proof.
  assert (H1 : repr umap (chains umap)) by exact umap_table.
  split; [exact H1|].
  exact (print_spec umap (chains umap) "" H1).
Defined.

Lemma copy_same_order_witness :
  table_repr (mem umap) (this umap) (chains umap) ∧
  placed (_size (this umap)) (chains umap) ∧ unique_keys (chains umap) ∧
  (length (entries (chains umap)) ≤ 5)%nat ∧
  ∃ s2 r,
    HashMap_copy (this umap) (mem umap) = Ok tt s2 ∧
    (HashMapIter_first s2 ;; HashMapIter_visit 5 s2) createIterator
    = Ok (entries (chains umap)) r ∧
    (HashMapIter_first (mkState (this umap) (mem umap)) ;;
     HashMapIter_visit 5 (mkState (this umap) (mem umap))) createIterator
    = Ok (entries (chains umap)) r.
Proof.
  assert (H1 : table_repr (mem umap) (this umap) (chains umap))
    by exact umap_table.
  assert (H2 : placed (_size (this umap)) (chains umap)) by exact umap_placed.
  assert (H3 : unique_keys (chains umap)) by exact umap_unique.
  assert (H4 : (length (entries (chains umap)) ≤ 5)%nat)
    by (apply Nat.leb_le; vm_compute; reflexivity).
  split_and!; [exact H1 | exact H2 | exact H3 | exact H4 |].
  exact (copy_same_order (mem umap) (this umap) (chains umap) 5 createIterator
           H1 H2 H3 H4).
Defined.

Lemma StringHash_anagram_witness :
  String.list_ascii_of_string "ab" ≡ₚ String.list_ascii_of_string "ba" ∧
  hash (H := StringHash true) "ab" (mkState (V := string) (empty_table 100) ∅)
  = hash (H := StringHash true) "ba" (mkState (empty_table 100) ∅).
Proof.
  assert (H1 : String.list_ascii_of_string "ab" ≡ₚ String.list_ascii_of_string "ba")
    by apply perm_swap.
  split; [exact H1|].
  exact (StringHash_anagram true "ab" "ba" (mkState (empty_table 100) ∅) H1).
Defined.

Lemma keys_unique_witness :
  0 < 100 ∧ 100 < 2 ^ 32 ∧
  Forall mutation
    [Insert 25 "hello"; Insert 43 "one"; Insert 143 "two"; Remove 25;
     Remove 60; Insert 43 "new value"; Insert 25 "again"] ∧
  ∃ s0 s,
    HashMap_sized 100 ∅ = Ok tt s0 ∧
    run [Insert 25 "hello"; Insert 43 "one"; Insert 143 "two"; Remove 25;
         Remove 60; Insert 43 "new value"; Insert 25 "again"] s0 = Ok tt s ∧
    NoDup (entries (chains s)).*1.
Proof.
  assert (H1 : 0 < 100) by reflexivity.
  assert (H2 : 100 < 2 ^ 32) by reflexivity.
  assert (H3 : Forall (mutation (K := N) (V := string))
                 [Insert 25 "hello"; Insert 43 "one"; Insert 143 "two";
                  Remove 25; Remove 60; Insert 43 "new value";
                  Insert 25 "again"])
    by (repeat constructor).
  split_and!; [exact H1 | exact H2 | exact H3 |].
  exact (keys_unique 100 ∅ _ H1 H2 H3).
Defined.

End HashMap.
